(** * Playlist store and share codec of the YouTube playlist manager

    A shallow embedding of [src/lib/storage.ts], [src/lib/share.ts],
    [src/lib/youtube.ts], [src/lib/id.ts] and of the import handlers of
    [src/App.tsx], with the properties the specification states about them.

    Strings are sequences of UTF-8 bytes ([string]); a JavaScript number
    that holds a timestamp is an integer ([Z]); an optional field
    ([videoId?: string]) is an [option]. *)

From Stdlib Require Import ZArith String Ascii List Lia Bool.
From Stdlib Require Import DecimalString DecimalNat.
From stdpp Require Import base option list strings gmap.

Local Open Scope stdpp_scope.

(** ** JavaScript strings *)

Module JsString.

Definition bytes (l : list nat) : list ascii := map ascii_of_nat l.

(** The UTF-8 encodings of the code points that ECMAScript counts as
    WhiteSpace or LineTerminator, which is what [String.prototype.trim]
    strips: TAB, LF, VT, FF, CR, SP, U+00A0, U+1680, U+2000..U+200A,
    U+2028, U+2029, U+202F, U+205F, U+3000, U+FEFF. *)
Definition white_space : list (list ascii) :=
  map bytes
    [ [9]; [10]; [11]; [12]; [13]; [32]; [194;160]; [225;154;128];
      [226;128;128]; [226;128;129]; [226;128;130]; [226;128;131];
      [226;128;132]; [226;128;133]; [226;128;134]; [226;128;135];
      [226;128;136]; [226;128;137]; [226;128;138];
      [226;128;168]; [226;128;169]; [226;128;175]; [226;129;159];
      [227;128;128]; [239;187;191] ]%nat.

(** The line terminators, which the regular expression [.] refuses. *)
Definition line_terminators : list (list ascii) :=
  map bytes [ [10]; [13]; [226;128;168]; [226;128;169] ]%nat.

Fixpoint strip_prefix (p s : list ascii) : option (list ascii) :=
  match p, s with
  | [], _ => Some s
  | a :: p', b :: s' => if decide (a = b) then strip_prefix p' s' else None
  | _ :: _, [] => None
  end.

Fixpoint strip_any (tbl : list (list ascii)) (s : list ascii)
  : option (list ascii) :=
  match tbl with
  | [] => None
  | p :: tbl' =>
      match strip_prefix p s with
      | Some r => Some r
      | None => strip_any tbl' s
      end
  end.

Fixpoint strip_all (fuel : nat) (tbl : list (list ascii)) (s : list ascii)
  : list ascii :=
  match fuel with
  | O => s
  | S fuel' =>
      match strip_any tbl s with
      | Some r => strip_all fuel' tbl r
      | None => s
      end
  end.

Definition trimStartL (s : list ascii) : list ascii :=
  strip_all (length s) white_space s.

Definition trimEndL (s : list ascii) : list ascii :=
  rev (strip_all (length s) (map (@rev ascii) white_space) (rev s)).

(** [s.trim()] *)
Definition trim (s : string) : string :=
  string_of_list_ascii (trimEndL (trimStartL (list_ascii_of_string s))).

(** Truthiness of a string: every string but the empty one. *)
Definition truthy (s : string) : bool :=
  match s with EmptyString => false | String _ _ => true end.

(** [a || b] where [a : string | undefined] and [b : string]. *)
Definition or_else (a : option string) (b : string) : string :=
  match a with
  | Some s => if truthy s then s else b
  | None => b
  end.

(** [a || undefined] on an optional string: the empty string becomes
    [undefined]. *)
Definition or_undefined (a : option string) : option string :=
  match a with
  | Some s => if truthy s then Some s else None
  | None => None
  end.

(** [a || b] where both are optional. *)
Definition or_opt (a b : option string) : option string :=
  match or_undefined a with
  | Some s => Some s
  | None => b
  end.

(** [toLowerCase] on the ASCII letters; every other byte is kept. The
    Unicode case tables are not part of this development: the functions
    that call [toLowerCase] take it as a parameter, and the examples run
    them with this one on ASCII names. *)
Definition lower_ascii (c : ascii) : ascii :=
  let n := nat_of_ascii c in
  if (65 <=? n)%nat && (n <=? 90)%nat then ascii_of_nat (n + 32) else c.

Fixpoint toLowerCaseAscii (s : string) : string :=
  match s with
  | EmptyString => EmptyString
  | String c s' => String (lower_ascii c) (toLowerCaseAscii s')
  end.

(** Decimal rendering of a counter, as a template literal prints it. *)
Definition of_nat (n : nat) : string :=
  NilZero.string_of_uint (Nat.to_uint n).

End JsString.

(** ** Data model ([src/lib/types.ts]) *)

Module Item.
Record VideoItem := mk {
  id : string;
  url : string;
  videoId : option string;
  title : option string;
  thumbnailUrl : option string;
  sourceTitle : option string;
  tags : list string;
  addedAt : Z
}.

(** [Partial<VideoItem>]: [None] is a key the patch does not carry. *)
Record Patch := mkPatch {
  p_id : option string;
  p_url : option string;
  p_videoId : option (option string);
  p_title : option (option string);
  p_thumbnailUrl : option (option string);
  p_sourceTitle : option (option string);
  p_tags : option (list string);
  p_addedAt : option Z
}.

(** [{ ...v, ...patch }] *)
Definition spread (v : VideoItem) (patch : Patch) : VideoItem :=
  {| id := default (id v) (p_id patch);
     url := default (url v) (p_url patch);
     videoId := default (videoId v) (p_videoId patch);
     title := default (title v) (p_title patch);
     thumbnailUrl := default (thumbnailUrl v) (p_thumbnailUrl patch);
     sourceTitle := default (sourceTitle v) (p_sourceTitle patch);
     tags := default (tags v) (p_tags patch);
     addedAt := default (addedAt v) (p_addedAt patch) |}.
End Item.
Abbreviation VideoItem := Item.VideoItem.

Module PL.
Record Playlist := mk {
  id : string;
  name : string;
  createdAt : Z;
  items : list VideoItem
}.

(** [{ ...pl, items }] *)
Definition with_items (pl : Playlist) (its : list VideoItem) : Playlist :=
  {| id := id pl; name := name pl; createdAt := createdAt pl; items := its |}.

(** [{ ...pl, name }] *)
Definition with_name (pl : Playlist) (n : string) : Playlist :=
  {| id := id pl; name := n; createdAt := createdAt pl; items := items pl |}.
End PL.
Abbreviation Playlist := PL.Playlist.

Record StoredStateV1 := mkState {
version : Z;
selectedPlaylistId : string;
playlists : list Playlist
}.

#[global] Instance VideoItem_eq_dec : EqDecision VideoItem.
Proof. solve_decision. Defined.
#[global] Instance Playlist_eq_dec : EqDecision Playlist.
Proof. solve_decision. Defined.
#[global] Instance StoredStateV1_eq_dec : EqDecision StoredStateV1.
Proof. solve_decision. Defined.

(** ** Identifier generator ([src/lib/id.ts]) *)

(** [newId] draws its suffix from [crypto.randomUUID] or from the clock and
  [Math.random]. The draws are a sequence [entropy] fixed by the run; the
  state threaded through the code is the number of draws made so far. *)
Definition Gen (A : Type) : Type := nat -> A * nat.

Definition ret {A} (a : A) : Gen A := fun n => (a, n).
Definition bind {A B} (m : Gen A) (k : A -> Gen B) : Gen B :=
fun n => let (a, n') := m n in k a n'.

Definition newId (entropy : nat -> string) (prefix : string) : Gen string :=
fun n => (prefix +:+ "_" +:+ entropy n, S n).

(** ** State store ([src/lib/storage.ts]) *)

Module Store.
Section Store.

(** The random draws of [newId] and the reading of [Date.now()] during
    the call. *)
Variable entropy : nat -> string.
Variable now : Z.

Definition default_name : string := "즐겨찾기".

Definition defaultState : Gen StoredStateV1 :=
  bind (newId entropy "pl") (fun fav_id =>
  let fav := {| PL.id := fav_id; PL.name := default_name;
                PL.createdAt := now; PL.items := [] |} in
  ret {| version := 1%Z; selectedPlaylistId := PL.id fav; playlists := [fav] |}).

(** [state.playlists.find((p) => p.id === playlistId)], together with the
    index [findIndex] gives. *)
Definition findPlaylist (ps : list Playlist) (playlistId : string)
  : option (nat * Playlist) :=
  list_find (fun p => PL.id p = playlistId) ps.

Definition upsertPlaylist (state : StoredStateV1) (playlist : Playlist)
  : StoredStateV1 :=
  let playlists' :=
    match findPlaylist (playlists state) (PL.id playlist) with
    | Some (idx, _) => <[idx := playlist]> (playlists state)
    | None => playlist :: playlists state
    end in
  {| version := version state;
     selectedPlaylistId := selectedPlaylistId state;
     playlists := playlists' |}.

Definition deletePlaylist (state : StoredStateV1) (playlistId : string)
  : Gen StoredStateV1 :=
  let playlists' :=
    filter (fun p => PL.id p <> playlistId) (playlists state) in
  match playlists' with
  | [] => defaultState
  | first :: _ =>
      let selected :=
        if decide (selectedPlaylistId state = playlistId)
        then PL.id first else selectedPlaylistId state in
      ret {| version := version state;
             selectedPlaylistId := selected;
             playlists := playlists' |}
  end.

(** The key of the item being added: [item.videoId || item.url.trim()]. *)
Definition videoKey (item : VideoItem) : string :=
  JsString.or_else (Item.videoId item) (JsString.trim (Item.url item)).

(** The key of an item already stored: [v.videoId || v.url]. *)
Definition storedKey (v : VideoItem) : string :=
  JsString.or_else (Item.videoId v) (Item.url v).

(** [pl.items.some((v) => (v.videoId || v.url) === videoKey)] *)
Definition exists_key (its : list VideoItem) (key : string) : bool :=
  existsb (fun v => bool_decide (storedKey v = key)) its.

Definition addVideoToPlaylist (state : StoredStateV1) (playlistId : string)
    (item : VideoItem) : StoredStateV1 :=
  match findPlaylist (playlists state) playlistId with
  | None => state
  | Some (_, pl) =>
      if exists_key (PL.items pl) (videoKey item) then state
      else upsertPlaylist state (PL.with_items pl (item :: PL.items pl))
  end.

Definition removeVideoFromPlaylist (state : StoredStateV1)
    (playlistId videoItemId : string) : StoredStateV1 :=
  match findPlaylist (playlists state) playlistId with
  | None => state
  | Some (_, pl) =>
      upsertPlaylist state
        (PL.with_items pl
           (filter (fun v => Item.id v <> videoItemId) (PL.items pl)))
  end.

Definition updateVideoInPlaylist (state : StoredStateV1)
    (playlistId videoItemId : string) (patch : Item.Patch) : StoredStateV1 :=
  match findPlaylist (playlists state) playlistId with
  | None => state
  | Some (_, pl) =>
      let items' :=
        map (fun v => if decide (Item.id v = videoItemId)
                      then Item.spread v patch else v) (PL.items pl) in
      upsertPlaylist state (PL.with_items pl items')
  end.

(** [from.items.find((v) => v.id === videoItemId)] *)
Definition findItem (its : list VideoItem) (videoItemId : string)
  : option VideoItem :=
  snd <$> list_find (fun v => Item.id v = videoItemId) its.

Definition moveVideo (state : StoredStateV1)
    (fromPlaylistId toPlaylistId videoItemId : string) : StoredStateV1 :=
  if decide (fromPlaylistId = toPlaylistId) then state else
  match findPlaylist (playlists state) fromPlaylistId,
        findPlaylist (playlists state) toPlaylistId with
  | Some (_, from), Some (_, to) =>
      match findItem (PL.items from) videoItemId with
      | None => state
      | Some item =>
          let next := removeVideoFromPlaylist state fromPlaylistId videoItemId in
          addVideoToPlaylist next toPlaylistId item
      end
  | _, _ => state
  end.

(** [pickDefaultPlaylistId] of [src/App.tsx]; [playlists[0]!.id] of an
    empty list is a TypeError, hence the [option]. *)
Definition pickDefaultPlaylistId (state : StoredStateV1) : option string :=
  if existsb (fun p => bool_decide (PL.id p = selectedPlaylistId state))
       (playlists state)
  then Some (selectedPlaylistId state)
  else PL.id <$> head (playlists state).

(** The invariant of the collection. *)
Definition invariant (state : StoredStateV1) : Prop :=
  playlists state <> [] /\
  exists p, p ∈ playlists state /\ PL.id p = selectedPlaylistId state.

End Store.
End Store.

(** ** The state store over an object heap

    The store functions never compare or rebuild the objects they are given;
    what they return is a reference, either the one they received
    ([return state]) or one to an object they created ([{ ...state, playlists }]).
    This second embedding keeps that: states, playlist arrays and playlists
    live in a heap, an address is an index into it, and the only write,
    [playlists[idx] = playlist] or [playlists.unshift(playlist)], goes to the
    array the function has just copied. *)

Module Ref.

Abbreviation loc := nat.

Inductive obj :=
| OPlaylist (p : Playlist)
| OArray (ps : list loc)
| OState (version : Z) (selected : string) (arr : loc).

Abbreviation heap := (list obj).

(** A computation reads and extends the heap, or gets stuck on a reference
    that does not hold what the code expects (which a typed caller never
    passes). *)
Definition M (A : Type) : Type := heap -> option (A * heap).

Definition mret {A} (a : A) : M A := fun h => Some (a, h).
Definition mbind {A B} (m : M A) (k : A -> M B) : M B :=
  fun h => match m h with Some (a, h') => k a h' | None => None end.

Notation "'let*' x ':=' m 'in' k" := (mbind m (fun x => k))
  (at level 10, x pattern, m at level 100, k at level 200).

Definition alloc (o : obj) : M loc := fun h => Some (length h, h ++ [o]).

Definition write (l : loc) (o : obj) : M unit :=
  fun h => if decide (l < length h)%nat then Some (tt, <[l := o]> h) else None.

Definition readPlaylist (l : loc) : M Playlist :=
  fun h => match h !! l with Some (OPlaylist p) => Some (p, h) | _ => None end.

Definition readArray (l : loc) : M (list loc) :=
  fun h => match h !! l with Some (OArray ps) => Some (ps, h) | _ => None end.

Definition readState (l : loc) : M (Z * string * loc) :=
  fun h => match h !! l with
           | Some (OState v sel arr) => Some ((v, sel, arr), h)
           | _ => None
           end.

(** [arr.find((p) => p.id === playlistId)] with the index of the hit. *)
Fixpoint findFrom (idx : nat) (ps : list loc) (playlistId : string)
  : M (option (nat * loc * Playlist)) :=
  match ps with
  | [] => mret None
  | l :: ps' =>
      let* p := readPlaylist l in
      if decide (PL.id p = playlistId) then mret (Some (idx, l, p))
      else findFrom (S idx) ps' playlistId
  end.

Definition find (ps : list loc) (playlistId : string) := findFrom 0 ps playlistId.

(** [arr.filter((p) => p.id !== playlistId)], before the result is stored. *)
Fixpoint filterOut (ps : list loc) (playlistId : string) : M (list loc) :=
  match ps with
  | [] => mret []
  | l :: ps' =>
      let* p := readPlaylist l in
      let* rest := filterOut ps' playlistId in
      mret (if decide (PL.id p <> playlistId) then l :: rest else rest)
  end.

Section Ref.

Variable entropy : nat -> string.
Variable now : Z.

Definition defaultState (n : nat) : M (loc * nat) :=
  let (fav_id, n') := newId entropy "pl" n in
  let* fav := alloc (OPlaylist {| PL.id := fav_id; PL.name := Store.default_name;
                                  PL.createdAt := now; PL.items := [] |}) in
  let* arr := alloc (OArray [fav]) in
  let* st := alloc (OState 1 fav_id arr) in
  mret (st, n').

Definition upsertPlaylist (state playlist : loc) : M loc :=
  let* (v, sel, arr) := readState state in
  let* ps := readArray arr in
  let* pl := readPlaylist playlist in
  let* hit := find ps (PL.id pl) in
  let* copy := alloc (OArray ps) in
  let* _ := match hit with
            | Some (idx, _, _) => write copy (OArray (<[idx := playlist]> ps))
            | None => write copy (OArray (playlist :: ps))
            end in
  alloc (OState v sel copy).

Definition deletePlaylist (state : loc) (playlistId : string) (n : nat)
  : M (loc * nat) :=
  let* (v, sel, arr) := readState state in
  let* ps := readArray arr in
  let* kept := filterOut ps playlistId in
  let* arr' := alloc (OArray kept) in
  match kept with
  | [] => defaultState n
  | first :: _ =>
      let* p := readPlaylist first in
      let sel' := if decide (sel = playlistId) then PL.id p else sel in
      let* st := alloc (OState v sel' arr') in
      mret (st, n)
  end.

Definition addVideoToPlaylist (state : loc) (playlistId : string)
    (item : VideoItem) : M loc :=
  let* (_, _, arr) := readState state in
  let* ps := readArray arr in
  let* hit := find ps playlistId in
  match hit with
  | None => mret state
  | Some (_, _, pl) =>
      if Store.exists_key (PL.items pl) (Store.videoKey item) then mret state
      else
        let* updated := alloc (OPlaylist (PL.with_items pl (item :: PL.items pl))) in
        upsertPlaylist state updated
  end.

Definition removeVideoFromPlaylist (state : loc) (playlistId videoItemId : string)
  : M loc :=
  let* (_, _, arr) := readState state in
  let* ps := readArray arr in
  let* hit := find ps playlistId in
  match hit with
  | None => mret state
  | Some (_, _, pl) =>
      let* updated :=
        alloc (OPlaylist (PL.with_items pl
                 (filter (fun v => Item.id v <> videoItemId) (PL.items pl)))) in
      upsertPlaylist state updated
  end.

Definition updateVideoInPlaylist (state : loc) (playlistId videoItemId : string)
    (patch : Item.Patch) : M loc :=
  let* (_, _, arr) := readState state in
  let* ps := readArray arr in
  let* hit := find ps playlistId in
  match hit with
  | None => mret state
  | Some (_, _, pl) =>
      let items' :=
        map (fun v => if decide (Item.id v = videoItemId)
                      then Item.spread v patch else v) (PL.items pl) in
      let* updated := alloc (OPlaylist (PL.with_items pl items')) in
      upsertPlaylist state updated
  end.

Definition moveVideo (state : loc) (fromPlaylistId toPlaylistId videoItemId : string)
  : M loc :=
  if decide (fromPlaylistId = toPlaylistId) then mret state else
  let* (_, _, arr) := readState state in
  let* ps := readArray arr in
  let* from := find ps fromPlaylistId in
  let* to := find ps toPlaylistId in
  match from, to with
  | Some (_, _, from), Some _ =>
      match Store.findItem (PL.items from) videoItemId with
      | None => mret state
      | Some item =>
          let* next := removeVideoFromPlaylist state fromPlaylistId videoItemId in
          addVideoToPlaylist next toPlaylistId item
      end
  | _, _ => mret state
  end.

End Ref.

(** [denotes h l p]: the reference [l] is to the playlist [p]. *)
Definition denotes (h : heap) (l : loc) (p : Playlist) : Prop :=
  h !! l = Some (OPlaylist p).

(** The value a reference denotes. *)
Definition playlistsAt (h : heap) (ps : list loc) : option (list Playlist) :=
  mapM (fun l => match h !! l with Some (OPlaylist p) => Some p | _ => None end) ps.

Definition snapshot (h : heap) (state : loc) : option StoredStateV1 :=
  match h !! state with
  | Some (OState v sel arr) =>
      match h !! arr with
      | Some (OArray ps) =>
          match playlistsAt h ps with
          | Some pls => Some {| version := v; selectedPlaylistId := sel;
                                playlists := pls |}
          | None => None
          end
      | _ => None
      end
  | _ => None
  end.

(** [returns h res r' s']: the computation, started in [h], ends with the
    reference [r'], has only added objects to [h], and [r'] denotes [s']. *)
Definition returns (h : heap) (res : option (loc * heap)) (r' : loc)
    (s' : StoredStateV1) : Prop :=
  exists ext, res = Some (r', h ++ ext) /\ snapshot (h ++ ext) r' = Some s'.

(** Storing a value: the playlists, their array, the state. *)
Fixpoint storePlaylists (pls : list Playlist) : M (list loc) :=
  match pls with
  | [] => mret []
  | p :: pls' =>
      let* l := alloc (OPlaylist p) in
      let* ls := storePlaylists pls' in
      mret (l :: ls)
  end.

Definition store (s : StoredStateV1) : M loc :=
  let* ls := storePlaylists (playlists s) in
  let* arr := alloc (OArray ls) in
  alloc (OState (version s) (selectedPlaylistId s) arr).

End Ref.

(** ** Import merge policy ([onApply] of [src/App.tsx]) *)

Module Merge.
Section Merge.

Variable toLowerCase : string -> string.

Definition imported_label : string := "가져온 목록".

(** [name.trim().toLowerCase()] *)
Definition nameKey (name : string) : string :=
  toLowerCase (JsString.trim name).

(** [`${s} (${i})`] *)
Definition numbered (s : string) (i : nat) : string :=
  s +:+ " (" +:+ JsString.of_nat i +:+ ")".

(** [while (existingNames.has(`${k} (${i})`)) i++;] The loop leaves after at
    most as many rounds as the set has elements, which is the fuel that
    [renameOne] gives it. *)
Fixpoint nextFree (fuel : nat) (existingNames : gset string) (k : string)
    (i : nat) : option nat :=
  match fuel with
  | O => None
  | S fuel' =>
      if decide (numbered k i ∈ existingNames)
      then nextFree fuel' existingNames k (S i)
      else Some i
  end.

(** [p.name || "가져온 목록"] *)
Definition baseName (p : Playlist) : string :=
  if JsString.truthy (PL.name p) then PL.name p else imported_label.

(** The body of [imported.playlists.map((p) => ...)]: the renamed playlist
    and the set after [existingNames.add(k)]. *)
Definition renameOne (existingNames : gset string) (p : Playlist)
  : option (Playlist * gset string) :=
  let base := baseName p in
  let k := nameKey base in
  if decide (k ∈ existingNames) then
    match nextFree (S (size existingNames)) existingNames k 2 with
    | Some i =>
        let name := numbered base i in
        Some (PL.with_name p name, {[ nameKey name ]} ∪ existingNames)
    | None => None
    end
  else Some (PL.with_name p base, {[ k ]} ∪ existingNames).

Fixpoint renameAll (existingNames : gset string) (ps : list Playlist)
  : option (list Playlist) :=
  match ps with
  | [] => Some []
  | p :: ps' =>
      match renameOne existingNames p with
      | Some (p', names') =>
          match renameAll names' ps' with
          | Some rest => Some (p' :: rest)
          | None => None
          end
      | None => None
      end
  end.

(** [new Set(state.playlists.map((p) => p.name.trim().toLowerCase()))] *)
Definition namesOf (ps : list Playlist) : gset string :=
  list_to_set (map (fun p => nameKey (PL.name p)) ps).

(** [fixed.selectedPlaylistId = pickDefaultPlaylistId(fixed)] *)
Definition withDefaultSelection (s : StoredStateV1) : option StoredStateV1 :=
  match Store.pickDefaultPlaylistId s with
  | Some sel => Some {| version := version s; selectedPlaylistId := sel;
                        playlists := playlists s |}
  | None => None
  end.

(** The branch [mode === "replace"]. [imported.playlists[0]?.id ||
    state.selectedPlaylistId] *)
Definition applyReplace (state imported : StoredStateV1)
  : option StoredStateV1 :=
  withDefaultSelection
    {| version := 1;
       playlists := match playlists imported with
                    | [] => playlists state
                    | _ :: _ => playlists imported
                    end;
       selectedPlaylistId :=
         JsString.or_else (PL.id <$> head (playlists imported))
           (selectedPlaylistId state) |}.

(** The merge branch. *)
Definition applyMerge (state imported : StoredStateV1)
  : option StoredStateV1 :=
  match renameAll (namesOf (playlists state)) (playlists imported) with
  | Some merged =>
      withDefaultSelection
        {| version := 1;
           playlists := playlists state ++ merged;
           selectedPlaylistId := selectedPlaylistId state |}
  | None => None
  end.

End Merge.
End Merge.

(** ** JavaScript values

    What [JSON.parse] returns and what the decoder handles without checking
    its type. A number is an integer here: the numbers of a share payload
    are the version and time stamps. [Obj] lists the own properties in
    order, each key once. *)

Module Js.

#[local] Unset Elimination Schemes.
Inductive value :=
| Undefined
| Null
| Bool (b : bool)
| Num (n : Z)
| Str (s : string)
| Arr (elems : list value)
| Obj (fields : list (string * value)).
#[local] Set Elimination Schemes.

(** [!!v] *)
Definition truthy (v : value) : bool :=
  match v with
  | Undefined | Null => false
  | Bool b => b
  | Num n => negb (n =? 0)%Z
  | Str s => JsString.truthy s
  | Arr _ | Obj _ => true
  end.

(** [a || b] *)
Definition or (a b : value) : value := if truthy a then a else b.

Fixpoint lookup_field (k : string) (fields : list (string * value)) : value :=
  match fields with
  | [] => Undefined
  | (k', v) :: fields' => if decide (k' = k) then v else lookup_field k fields'
  end.

(** [v.k] for one of the keys of a share payload, none of which is a
    property of a boxed primitive or of an array: a TypeError ([None]) on
    [undefined] and [null], the own property of an object, [undefined]
    otherwise. *)
Definition get (k : string) (v : value) : option value :=
  match v with
  | Undefined | Null => None
  | Obj fields => Some (lookup_field k fields)
  | _ => Some Undefined
  end.

(** An optional string as a value. *)
Definition of_opt (o : option string) : value :=
  match o with Some s => Str s | None => Undefined end.

(** What [JSON.stringify] keeps of a value: a property whose value is
    [undefined] is left out, and [undefined] in an array becomes [null]. *)
Definition prune_elems (prune : value -> value) : list value -> list value :=
  fix go l :=
    match l with
    | [] => []
    | x :: l' =>
        match prune x with
        | Undefined => Null :: go l'
        | y => y :: go l'
        end
    end.

Definition prune_fields (prune : value -> value)
  : list (string * value) -> list (string * value) :=
  fix go l :=
    match l with
    | [] => []
    | (k, x) :: l' =>
        match prune x with
        | Undefined => go l'
        | y => (k, y) :: go l'
        end
    end.

Fixpoint prune (v : value) : value :=
  match v with
  | Arr elems => Arr (prune_elems prune elems)
  | Obj fields => Obj (prune_fields prune fields)
  | _ => v
  end.

End Js.

(** ** Share codec ([src/lib/share.ts]) *)

Module Share.

(** What can be thrown: the two errors of the decoder, the errors of
    [atob], [pako.inflateRaw] and [JSON.parse], and the TypeError of a
    property read on [null] or of a call of [map] on something that has
    none. *)
Inductive exn :=
| Unsupported | Invalid | InvalidCharacter | InflateError | SyntaxError
| TypeError.

(** A decoded item: [id] is minted and a string; the other fields are
    whatever the payload holds. *)
Module DItem.
Record t := mk {
  id : string;
  url : Js.value;
  videoId : Js.value;
  title : Js.value;
  thumbnailUrl : Js.value;
  sourceTitle : Js.value;
  tags : Js.value;
  addedAt : Js.value
}.
End DItem.

Module DPlaylist.
Record t := mk {
  id : string;
  name : Js.value;
  createdAt : Js.value;
  items : list DItem.t
}.
End DPlaylist.

Record Decoded := mkDecoded {
  d_version : Z;
  d_playlists : list DPlaylist.t;
  d_selectedPlaylistId : string
}.

(** The value that the type [StoredStateV1] promises, as the untyped
    record that the decoder builds. *)
Definition item_as_decoded (it : VideoItem) : DItem.t :=
  {| DItem.id := Item.id it;
     DItem.url := Js.Str (Item.url it);
     DItem.videoId := Js.of_opt (Item.videoId it);
     DItem.title := Js.of_opt (Item.title it);
     DItem.thumbnailUrl := Js.of_opt (Item.thumbnailUrl it);
     DItem.sourceTitle := Js.of_opt (Item.sourceTitle it);
     DItem.tags := Js.Arr (Js.Str <$> Item.tags it);
     DItem.addedAt := Js.Num (Item.addedAt it) |}.

Definition playlist_as_decoded (pl : Playlist) : DPlaylist.t :=
  {| DPlaylist.id := PL.id pl;
     DPlaylist.name := Js.Str (PL.name pl);
     DPlaylist.createdAt := Js.Num (PL.createdAt pl);
     DPlaylist.items := item_as_decoded <$> PL.items pl |}.

Definition state_as_decoded (s : StoredStateV1) : Decoded :=
  {| d_version := version s;
     d_playlists := playlist_as_decoded <$> playlists s;
     d_selectedPlaylistId := selectedPlaylistId s |}.

(** Computations that mint identifiers and may throw. *)
Definition Dec (A : Type) : Type := nat -> exn + (A * nat).

Definition dret {A} (a : A) : Dec A := fun n => inr (a, n).
Definition throw {A} (e : exn) : Dec A := fun _ => inl e.
Definition dbind {A B} (m : Dec A) (k : A -> Dec B) : Dec B :=
  fun n => match m n with inl e => inl e | inr (a, n') => k a n' end.
Definition lift {A} (m : Gen A) : Dec A := fun n => inr (m n).
Definition try_opt {A} (e : exn) (o : option A) : Dec A :=
  match o with Some a => dret a | None => throw e end.

Notation "'do*' x ':=' m 'in' k" := (dbind m (fun x => k))
  (at level 10, x pattern, m at level 100, k at level 200).

(** [arr.map(f)] where [f] mints identifiers and may throw. *)
Fixpoint mapD {A B} (f : A -> Dec B) (l : list A) : Dec (list B) :=
  match l with
  | [] => dret []
  | x :: l' =>
      do* y := f x in
      do* ys := mapD f l' in
      dret (y :: ys)
  end.

(** [s.replace(/a/g, b)] for single characters. *)
Fixpoint replace_char (a b : ascii) (s : string) : string :=
  match s with
  | EmptyString => EmptyString
  | String c s' => String (if decide (c = a) then b else c) (replace_char a b s')
  end.

(** [s.replace(/=+$/g, "")] *)
Fixpoint strip_trailing_eq (s : string) : string :=
  match s with
  | EmptyString => EmptyString
  | String c s' =>
      match strip_trailing_eq s' with
      | EmptyString => if decide (c = "="%char) then EmptyString
                       else String c EmptyString
      | r => String c r
      end
  end.

(** ["===".slice((s.length + 3) % 4)] *)
Definition padding (s : string) : string :=
  match ((String.length s + 3) mod 4)%nat with
  | 0%nat => "==="
  | 1%nat => "=="
  | 2%nat => "="
  | _ => ""
  end.

(** Does one of the byte sequences of [tbl] occur in [s]? *)
Fixpoint occurs (tbl : list (list ascii)) (s : list ascii) : bool :=
  match JsString.strip_any tbl s with
  | Some _ => true
  | None => match s with [] => false | _ :: s' => occurs tbl s' end
  end.

(** [s.match(/^v1\.(.+)$/)]: the capture, when [s] is ["v1."] followed by
    at least one character and holds no line terminator, which [.] does
    not match. *)
Definition match_v1 (s : string) : option string :=
  match s with
  | String "v" (String "1" (String "." rest)) =>
      if JsString.truthy rest &&
         negb (occurs JsString.line_terminators (list_ascii_of_string rest))
      then Some rest else None
  | _ => None
  end.

Section Codec.

(** The platform: [btoa] and [atob] on the bytes of a binary string, pako,
    [TextEncoder] and [TextDecoder], [JSON]. [atob] and [pako.inflateRaw]
    throw on input they cannot decode, [JSON.parse] on text that is not
    JSON; the text decoder never throws. *)
Variable btoa : list Byte.byte -> string.
Variable atob : string -> option (list Byte.byte).
Variable deflateRaw : list Byte.byte -> list Byte.byte.
Variable inflateRaw : list Byte.byte -> option (list Byte.byte).
Variable toUtf8Bytes : string -> list Byte.byte.
Variable fromUtf8Bytes : list Byte.byte -> string.
Variable JSON_stringify : Js.value -> string.
Variable JSON_parse : string -> option Js.value.

Variable entropy : nat -> string.
Variable now : Z.

(** [toBase64] joins the chunks of the binary string and calls [btoa];
    [fromBase64] calls [atob] and copies the character codes. *)
Definition toBase64 (bytes : list Byte.byte) : string := btoa bytes.
Definition fromBase64 (b64 : string) : option (list Byte.byte) := atob b64.

Definition base64UrlEncode (bytes : list Byte.byte) : string :=
  strip_trailing_eq
    (replace_char "/" "_" (replace_char "+" "-" (toBase64 bytes))).

Definition base64UrlDecode (s : string) : option (list Byte.byte) :=
  let padded :=
    replace_char "_" "/" (replace_char "-" "+" s) +:+ padding s in
  fromBase64 padded.

Record ShareEncodeOptions := mkOptions {
  includeThumbnails : bool;
  scope_selected : bool
}.

(** The object literal built for one item. *)
Definition encodeItem (opts : ShareEncodeOptions) (it : VideoItem) : Js.value :=
  Js.Obj
    [ ("u", Js.Str (Item.url it));
      ("y", Js.of_opt (JsString.or_undefined (Item.videoId it)));
      ("t", Js.of_opt (JsString.or_opt (Item.title it)
                         (JsString.or_undefined (Item.sourceTitle it))));
      ("g", match Item.tags it with
            | [] => Js.Undefined
            | _ :: _ => Js.Arr (Js.Str <$> Item.tags it)
            end);
      ("a", Js.Num (Item.addedAt it));
      ("h", if includeThumbnails opts then Js.of_opt (Item.thumbnailUrl it)
            else Js.Undefined) ].

Definition encodePlaylist (opts : ShareEncodeOptions) (pl : Playlist) : Js.value :=
  Js.Obj
    [ ("n", Js.Str (PL.name pl));
      ("c", Js.Num (PL.createdAt pl));
      ("i", Js.Arr (encodeItem opts <$> PL.items pl)) ].

Definition sharePayload (state : StoredStateV1) (opts : ShareEncodeOptions)
  : Js.value :=
  let selected :=
    if scope_selected opts
    then filter (fun p => PL.id p = selectedPlaylistId state) (playlists state)
    else playlists state in
  Js.Obj [ ("v", Js.Num 1); ("p", Js.Arr (encodePlaylist opts <$> selected)) ].

Definition encodeShareFromState (state : StoredStateV1)
    (opts : ShareEncodeOptions) : string :=
  let json := JSON_stringify (sharePayload state opts) in
  let deflated := deflateRaw (toUtf8Bytes json) in
  let data := base64UrlEncode deflated in
  "v1." +:+ data.

(** The callback of [(pl.i || []).map]. *)
Definition decodeItem (it : Js.value) : Dec DItem.t :=
  do* id := lift (newId entropy "v") in
  do* u := try_opt TypeError (Js.get "u" it) in
  do* y := try_opt TypeError (Js.get "y" it) in
  do* t := try_opt TypeError (Js.get "t" it) in
  do* h := try_opt TypeError (Js.get "h" it) in
  do* g := try_opt TypeError (Js.get "g" it) in
  do* a := try_opt TypeError (Js.get "a" it) in
  dret {| DItem.id := id; DItem.url := u; DItem.videoId := y;
          DItem.title := t; DItem.thumbnailUrl := h;
          DItem.sourceTitle := Js.Undefined;
          DItem.tags := Js.or g (Js.Arr []);
          DItem.addedAt := Js.or a (Js.Num now) |}.

Definition imported_label : string := "가져온 목록".

(** The callback of [payload.p.map]. *)
Definition decodePlaylist (pl : Js.value) : Dec DPlaylist.t :=
  do* playlistId := lift (newId entropy "pl") in
  do* i := try_opt TypeError (Js.get "i" pl) in
  do* items :=
    match Js.or i (Js.Arr []) with
    | Js.Arr elems => mapD decodeItem elems
    | _ => throw TypeError
    end in
  do* n := try_opt TypeError (Js.get "n" pl) in
  do* c := try_opt TypeError (Js.get "c" pl) in
  dret {| DPlaylist.id := playlistId;
          DPlaylist.name := Js.or n (Js.Str imported_label);
          DPlaylist.createdAt := Js.or c (Js.Num now);
          DPlaylist.items := items |}.

(** The decoder from the parsed payload on. *)
Definition decodePayload (payload : Js.value) : Dec Decoded :=
  if negb (Js.truthy payload) then throw Invalid else
  match Js.get "v" payload, Js.get "p" payload with
  | Some (Js.Num 1), Some (Js.Arr ps) =>
      do* playlists := mapD decodePlaylist ps in
      do* selectedPlaylistId :=
        match playlists with
        | first :: _ =>
            if JsString.truthy (DPlaylist.id first)
            then dret (DPlaylist.id first)
            else lift (newId entropy "pl")
        | [] => lift (newId entropy "pl")
        end in
      dret {| d_version := 1; d_playlists := playlists;
              d_selectedPlaylistId := selectedPlaylistId |}
  | _, _ => throw Invalid
  end.

Definition decodeShareToState (encoded : string) : Dec Decoded :=
  do* data := try_opt Unsupported (match_v1 (JsString.trim encoded)) in
  do* bytes := try_opt InvalidCharacter (base64UrlDecode data) in
  do* inflated := try_opt InflateError (inflateRaw bytes) in
  let json := fromUtf8Bytes inflated in
  do* payload := try_opt SyntaxError (JSON_parse json) in
  decodePayload payload.

(** The effect of [ApplyImportModal]: the decoded state it offers to the
    two import buttons, or nothing and the error message. *)
Definition previewImport (encoded : string) (n : nat) : option Decoded :=
  match decodeShareToState encoded n with
  | inr (decoded, _) =>
      match d_playlists decoded with
      | [] => None
      | _ :: _ => Some decoded
      end
  | inl _ => None
  end.

(** The import buttons are enabled only when the modal holds a decoded
    state: [imported && props.onApply(mode, imported)]. *)
Definition clickApply {S : Type} (imported : option Decoded)
    (onApply : Decoded -> S -> S) (state : S) : S :=
  match imported with
  | Some decoded => onApply decoded state
  | None => state
  end.

(** The collection invariant, read on a decoded state. *)
Definition invariant (d : Decoded) : Prop :=
  d_playlists d <> [] /\
  exists p, p ∈ d_playlists d /\ DPlaylist.id p = d_selectedPlaylistId d.

(** *** What the decoder accepts

    The shape of a payload on which the two [map] calls do not throw: no
    playlist and no item is [null], and the [i] of a playlist is an array
    or is falsy. *)
Definition item_readable (it : Js.value) : bool :=
  match it with Js.Undefined | Js.Null => false | _ => true end.

Definition playlist_readable (pl : Js.value) : bool :=
  match Js.get "i" pl with
  | None => false
  | Some i =>
      match Js.or i (Js.Arr []) with
      | Js.Arr elems => forallb item_readable elems
      | _ => false
      end
  end.

Definition payload_accepted (payload : Js.value) : bool :=
  Js.truthy payload &&
  match Js.get "v" payload, Js.get "p" payload with
  | Some (Js.Num 1), Some (Js.Arr ps) => forallb playlist_readable ps
  | _, _ => false
  end.

(** *** What a round trip gives

    The state that decoding an encoded collection is to give, written from
    the collection alone: fresh identifiers in the order of the traversal,
    an empty name replaced by the import label, a zero time stamp by the
    clock, an empty videoId dropped, the title taken from the title or else
    from the source title, the thumbnail kept on request only. *)
Definition mapGen {A B} (f : A -> Gen B) : list A -> Gen (list B) :=
  fix go l :=
    match l with
    | [] => ret []
    | x :: l' => bind (f x) (fun y => bind (go l') (fun ys => ret (y :: ys)))
    end.

Definition stamp (t : Z) : Z := if (t =? 0)%Z then now else t.

Definition expectedItem (opts : ShareEncodeOptions) (it : VideoItem)
  : Gen DItem.t :=
  bind (newId entropy "v") (fun id =>
  ret {| DItem.id := id;
         DItem.url := Js.Str (Item.url it);
         DItem.videoId := Js.of_opt (JsString.or_undefined (Item.videoId it));
         DItem.title :=
           Js.of_opt (JsString.or_opt (Item.title it)
                        (JsString.or_undefined (Item.sourceTitle it)));
         DItem.thumbnailUrl :=
           if includeThumbnails opts then Js.of_opt (Item.thumbnailUrl it)
           else Js.Undefined;
         DItem.sourceTitle := Js.Undefined;
         DItem.tags := Js.Arr (Js.Str <$> Item.tags it);
         DItem.addedAt := Js.Num (stamp (Item.addedAt it)) |}).

Definition expectedPlaylist (opts : ShareEncodeOptions) (pl : Playlist)
  : Gen DPlaylist.t :=
  bind (newId entropy "pl") (fun id =>
  bind (mapGen (expectedItem opts) (PL.items pl)) (fun items =>
  ret {| DPlaylist.id := id;
         DPlaylist.name :=
           Js.Str (if JsString.truthy (PL.name pl) then PL.name pl
                   else imported_label);
         DPlaylist.createdAt := Js.Num (stamp (PL.createdAt pl));
         DPlaylist.items := items |})).

Definition expectedDecoded (opts : ShareEncodeOptions) (state : StoredStateV1)
  : Gen Decoded :=
  bind (mapGen (expectedPlaylist opts) (playlists state)) (fun pls =>
  bind (match pls with
        | first :: _ => ret (DPlaylist.id first)
        | [] => newId entropy "pl"
        end) (fun sel =>
  ret {| d_version := 1; d_playlists := pls; d_selectedPlaylistId := sel |})).

End Codec.

(** The characters of the base64 alphabet, and what [btoa] returns: a
    non-empty run of them, then at most two [=], a multiple of four
    characters in all. *)
Definition base64_char (c : ascii) : bool :=
  let n := nat_of_ascii c in
  ((65 <=? n) && (n <=? 90) || (97 <=? n) && (n <=? 122) ||
   (48 <=? n) && (n <=? 57) || (n =? 43) || (n =? 47))%nat.

Fixpoint all_chars (P : ascii -> bool) (s : string) : bool :=
  match s with
  | EmptyString => true
  | String c s' => P c && all_chars P s'
  end.

(** The characters of a share token after the prefix. *)
Definition base64url_char (c : ascii) : bool :=
  let n := nat_of_ascii c in
  ((65 <=? n) && (n <=? 90) || (97 <=? n) && (n <=? 122) ||
   (48 <=? n) && (n <=? 57) || (n =? 45) || (n =? 95))%nat.

Definition base64_shaped (e : string) : Prop :=
  exists core pad,
    e = core +:+ pad /\ core <> "" /\ all_chars base64_char core = true /\
    (pad = "" \/ pad = "=" \/ pad = "==") /\
    ((String.length e) mod 4 = 0)%nat.

End Share.

(** ** URL normalizer ([src/lib/youtube.ts]) *)

(** The URL class of the platform. [parse] is [new URL(s)], [None] when it
    throws; [href] is [url.toString()]; [searchParams] lists the name and
    value pairs of the query; [deleteParam k] is
    [url.searchParams.delete(k)], which updates the URL. *)
Class UrlApi := {
  URL : Type;
  parse : string -> option URL;
  href : URL -> string;
  hostname : URL -> string;
  pathname : URL -> string;
  searchParams : URL -> list (string * string);
  deleteParam : string -> URL -> URL
}.

(** What the URL standard provides and the normalizer relies on: a URL is
    parsed back from its serialization, which has no white space around it;
    deleting a parameter removes the pairs of that name and changes neither
    the host nor, for a URL that has a host, the path. *)
Class UrlLaws `{UrlApi} : Prop := {
  parse_href : forall u, parse (href u) = Some u;
  href_trimmed : forall u, JsString.trim (href u) = href u;
  searchParams_delete : forall k u,
    searchParams (deleteParam k u) =
      filter (fun p => p.1 <> k) (searchParams u);
  hostname_delete : forall k u, hostname (deleteParam k u) = hostname u;
  pathname_delete : forall k u,
    hostname u <> "" -> pathname (deleteParam k u) = pathname u
}.

Module Youtube.

(** [s.split(sep)] for a separator of one character. *)
Fixpoint split (sep : ascii) (s : string) : list string :=
  match s with
  | EmptyString => [EmptyString]
  | String c s' =>
      if decide (c = sep) then EmptyString :: split sep s'
      else match split sep s' with
           | seg :: segs => String c seg :: segs
           | [] => [String c EmptyString]
           end
  end.

(** [s.startsWith(p)] *)
Fixpoint startsWith (p s : string) : bool :=
  match p, s with
  | EmptyString, _ => true
  | String a p', String b s' => if decide (a = b) then startsWith p' s' else false
  | String _ _, EmptyString => false
  end.

(** [s.replace(/^www\./, "")] *)
Definition strip_www (s : string) : string :=
  match s with
  | String "w" (String "w" (String "w" (String "." rest))) => rest
  | _ => s
  end.

(** [params.get(k)]: the value of the first pair named [k]. *)
Fixpoint get (k : string) (params : list (string * string)) : option string :=
  match params with
  | [] => None
  | (k', v) :: params' => if decide (k' = k) then Some v else get k params'
  end.

(** [if (id) videoId = id] *)
Definition truthy_id (id : option string) : option string :=
  JsString.or_undefined id.

Definition keep : list string := ["v"; "t"; "start"; "list"; "index"; "si"].

(** The video identifier, from the host name, the path and the query. *)
Definition videoIdOf (hostname pathname : string)
    (params : list (string * string)) : option string :=
  let host := strip_www hostname in
  if decide (host = "youtu.be") then
    truthy_id (head (filter (fun seg => JsString.truthy seg = true)
                       (split "/" pathname)))
  else if bool_decide (host = "youtube.com") || bool_decide (host = "m.youtube.com")
          || bool_decide (host = "music.youtube.com") then
    if decide (pathname = "/watch") then truthy_id (get "v" params)
    else if startsWith "/shorts/" pathname then
      truthy_id (split "/" pathname !! 2%nat)
    else if startsWith "/embed/" pathname then
      truthy_id (split "/" pathname !! 2%nat)
    else None
  else None.

Record Normalized := mkNormalized {
  url : string;
  videoId : option string
}.

Section Normalizer.

Context `{UrlApi}.

(** [[...cleaned.searchParams.keys()].forEach((k) => { if (!keep.has(k))
    cleaned.searchParams.delete(k); })] *)
Definition clean (u : URL) : URL :=
  fold_left (fun cleaned k =>
               if decide (k ∈ keep) then cleaned else deleteParam k cleaned)
    (map fst (searchParams u)) u.

(** [None] is the TypeError of [new URL(url.toString())], which is not
    inside the [try]. *)
Definition normalizeYouTubeUrl (input : string) : option Normalized :=
  let trimmed := JsString.trim input in
  match parse trimmed with
  | None => Some {| url := trimmed; videoId := None |}
  | Some u =>
      let videoId := videoIdOf (hostname u) (pathname u) (searchParams u) in
      match parse (href u) with
      | Some cleaned => Some {| url := href (clean cleaned); videoId := videoId |}
      | None => None
      end
  end.

End Normalizer.
End Youtube.

(** *** A small URL class

    An instance of the URL interface to run the normalizer on: the URLs
    ["https://" host path "?" name "=" value "&" ...] of printable ASCII
    characters, without fragment and without percent-encoding. *)

Module SimpleUrl.

(** Printable ASCII without the space. *)
Definition printable (c : ascii) : bool :=
  let n := nat_of_ascii c in ((33 <=? n) && (n <=? 126))%nat.

Definition other_than (x c : ascii) : bool := negb (bool_decide (c = x)).

(** The characters of the part before the query, of a parameter value and
    of a parameter name. *)
Definition origin_char (c : ascii) : bool := printable c && other_than "?" c.
Definition value_char (c : ascii) : bool := printable c && other_than "&" c.
Definition name_char (c : ascii) : bool := value_char c && other_than "=" c.

Record raw := mkRaw {
  origin : string;
  query : list (string * string)
}.

Definition wf_pair (p : string * string) : bool :=
  Share.all_chars name_char p.1 && Share.all_chars value_char p.2.

Definition wf (r : raw) : bool :=
  Youtube.startsWith "https://" (origin r) &&
  Share.all_chars origin_char (origin r) &&
  forallb wf_pair (query r).

Definition t : Type := { r : raw | wf r = true }.

(** Serialization *)

Fixpoint join (sep : ascii) (l : list string) : string :=
  match l with
  | [] => ""
  | s :: l' =>
      match l' with
      | [] => s
      | _ :: _ => s +:+ String sep (join sep l')
      end
  end.

Definition pair_text (p : string * string) : string :=
  p.1 +:+ String "=" p.2.

Definition query_text (q : list (string * string)) : string :=
  join "&" (map pair_text q).

Definition href_raw (r : raw) : string :=
  match query r with
  | [] => origin r
  | _ :: _ => origin r +:+ String "?" (query_text (query r))
  end.

(** Parsing *)

(** [s] up to the first [c], and what follows that [c]. *)
Fixpoint cut (c : ascii) (s : string) : string * option string :=
  match s with
  | EmptyString => (EmptyString, None)
  | String a s' =>
      if decide (a = c) then (EmptyString, Some s')
      else let (h, t) := cut c s' in (String a h, t)
  end.

Definition parse_pair (s : string) : string * string :=
  let (k, v) := cut "=" s in (k, default "" v).

Definition parse_query (s : string) : list (string * string) :=
  if decide (s = "") then [] else map parse_pair (Youtube.split "&" s).

Definition parse_raw (s : string) : raw :=
  let (o, q) := cut "?" s in mkRaw o (parse_query (default "" q)).

Definition parse (s : string) : option t :=
  match decide (wf (parse_raw s) = true) with
  | left ok => Some (exist _ (parse_raw s) ok)
  | right _ => None
  end.

(** The interface *)

Definition href (u : t) : string := href_raw (proj1_sig u).

(** What follows ["https://"] in the part before the query. *)
Definition rest (u : t) : string :=
  let o := origin (proj1_sig u) in
  String.substring 8 (String.length o - 8) o.

Definition hostname (u : t) : string :=
  match Youtube.split "/" (rest u) with
  | host :: _ => host
  | [] => ""
  end.

Definition pathname (u : t) : string :=
  let p := String.substring (String.length (hostname u))
             (String.length (rest u) - String.length (hostname u)) (rest u) in
  if decide (p = "") then "/" else p.

Definition searchParams (u : t) : list (string * string) :=
  query (proj1_sig u).

Definition deleteParam (k : string) (u : t) : t :=
  let r := mkRaw (origin (proj1_sig u))
             (filter (fun p => p.1 <> k) (query (proj1_sig u))) in
  match decide (wf r = true) with
  | left ok => exist _ r ok
  | right _ => u
  end.

#[global] Instance api : UrlApi :=
  Build_UrlApi t parse href hostname pathname searchParams deleteParam.

End SimpleUrl.

(** ** A reference platform

    Executable stand-ins for the platform functions that the codec takes as
    parameters, used to run it on examples: base64 as [btoa] and the
    forgiving decoder of [atob] define it, a deflate that stores its input,
    the identity between a string and its UTF-8 bytes, and a JSON printer
    and parser for the values of [Js.value] (no exponents or fractions,
    escapes for the quote, the backslash and the control characters). *)

Module Reference.

Definition alphabet : string :=
  "ABCDEFGHIJKLMNOPQRSTUVWXYZabcdefghijklmnopqrstuvwxyz0123456789+/".

Definition sextet_char (n : N) : ascii :=
  match String.get (N.to_nat n) alphabet with
  | Some c => c
  | None => "="%char
  end.

Fixpoint btoa (bytes : list Byte.byte) : string :=
  match bytes with
  | [] => ""
  | [a] =>
      let n := (Byte.to_N a * 65536)%N in
      String (sextet_char (n / 262144))
        (String (sextet_char ((n / 4096) mod 64)) "==")
  | [a; b] =>
      let n := (Byte.to_N a * 65536 + Byte.to_N b * 256)%N in
      String (sextet_char (n / 262144))
        (String (sextet_char ((n / 4096) mod 64))
           (String (sextet_char ((n / 64) mod 64)) "="))
  | a :: b :: c :: rest =>
      let n := (Byte.to_N a * 65536 + Byte.to_N b * 256 + Byte.to_N c)%N in
      String (sextet_char (n / 262144))
        (String (sextet_char ((n / 4096) mod 64))
           (String (sextet_char ((n / 64) mod 64))
              (String (sextet_char (n mod 64)) (btoa rest))))
  end.

Fixpoint index_from (i : N) (c : ascii) (s : string) : option N :=
  match s with
  | EmptyString => None
  | String c' s' => if decide (c' = c) then Some i else index_from (i + 1)%N c s'
  end.

Definition char_sextet (c : ascii) : option N := index_from 0 c alphabet.

Definition byte_of (n : N) : Byte.byte :=
  match Byte.of_N (n mod 256) with Some b => b | None => Byte.x00 end.

Fixpoint decode_sextets (l : list N) : list Byte.byte :=
  match l with
  | a :: b :: c :: d :: rest =>
      let n := (a * 262144 + b * 4096 + c * 64 + d)%N in
      byte_of (n / 65536) :: byte_of (n / 256) :: byte_of n :: decode_sextets rest
  | [a; b; c] =>
      let n := (a * 262144 + b * 4096 + c * 64)%N in
      [byte_of (n / 65536); byte_of (n / 256)]
  | [a; b] =>
      let n := (a * 262144 + b * 4096)%N in [byte_of (n / 65536)]
  | _ => []
  end.

Definition ascii_space (c : ascii) : bool :=
  match nat_of_ascii c with
  | 9 | 10 | 12 | 13 | 32 => true
  | _ => false
  end%nat.

Definition drop_padding (l : list ascii) : list ascii :=
  if (length l mod 4 =? 0)%nat then
    match rev l with
    | "="%char :: "="%char :: r => rev r
    | "="%char :: r => rev r
    | _ => l
    end
  else l.

Definition atob (s : string) : option (list Byte.byte) :=
  let l := drop_padding
             (List.filter (fun c => negb (ascii_space c)) (list_ascii_of_string s)) in
  if (length l mod 4 =? 1)%nat then None
  else decode_sextets <$> mapM char_sextet l.

Definition deflateRaw (bytes : list Byte.byte) : list Byte.byte := bytes.
Definition inflateRaw (bytes : list Byte.byte) : option (list Byte.byte) :=
  Some bytes.

Definition toUtf8Bytes (s : string) : list Byte.byte := list_byte_of_string s.
Definition fromUtf8Bytes (bytes : list Byte.byte) : string :=
  string_of_list_byte bytes.

(** *** Printing *)

Definition hex_digit (n : nat) : ascii :=
  match String.get n "0123456789abcdef" with
  | Some c => c
  | None => "0"%char
  end.

(** The double quote. *)
Definition dquote : ascii := ascii_of_nat 34.

Fixpoint escape (s : string) : string :=
  match s with
  | EmptyString => EmptyString
  | String c s' =>
      let n := nat_of_ascii c in
      if decide (c = dquote) then String "\" (String dquote (escape s'))
      else if decide (c = "\"%char) then String "\" (String "\" (escape s'))
      else if (n <? 32)%nat then
        "\u00" +:+ String (hex_digit (n / 16)) (String (hex_digit (n mod 16))
                                                  (escape s'))
      else String c (escape s')
  end.

Definition quote (s : string) : string :=
  String dquote (escape s +:+ String dquote EmptyString).

Definition print_num (n : Z) : string := NilZero.string_of_int (Z.to_int n).

Fixpoint print (v : Js.value) : string :=
  match v with
  | Js.Undefined | Js.Null => "null"
  | Js.Bool true => "true"
  | Js.Bool false => "false"
  | Js.Num n => print_num n
  | Js.Str s => quote s
  | Js.Arr elems =>
      "[" +:+
      (fix go (first : bool) (l : list Js.value) : string :=
         match l with
         | [] => ""
         | x :: l' => (if first then "" else ",") +:+ print x +:+ go false l'
         end) true elems +:+ "]"
  | Js.Obj fields =>
      "{" +:+
      (fix go (first : bool) (l : list (string * Js.value)) : string :=
         match l with
         | [] => ""
         | (_, Js.Undefined) :: l' => go first l'
         | (k, x) :: l' =>
             (if first then "" else ",") +:+ quote k +:+ ":" +:+ print x
             +:+ go false l'
         end) true fields +:+ "}"
  end.

Definition JSON_stringify (v : Js.value) : string := print v.

(** *** Parsing *)

Definition json_space (c : ascii) : bool :=
  match nat_of_ascii c with
  | 9 | 10 | 13 | 32 => true
  | _ => false
  end%nat.

Fixpoint skip_ws (s : list ascii) : list ascii :=
  match s with
  | c :: r => if json_space c then skip_ws r else s
  | [] => []
  end.

Definition hex_value (c : ascii) : option nat :=
  let n := nat_of_ascii c in
  if (48 <=? n)%nat && (n <=? 57)%nat then Some (n - 48)%nat
  else if (97 <=? n)%nat && (n <=? 102)%nat then Some (n - 87)%nat
  else if (65 <=? n)%nat && (n <=? 70)%nat then Some (n - 55)%nat
  else None.

Fixpoint parse_string (s acc : list ascii) : option (string * list ascii) :=
  match s with
  | [] => None
  | c :: r =>
      if decide (c = dquote) then Some (string_of_list_ascii (rev acc), r)
      else if decide (c = "\"%char) then
        match r with
        | "u"%char :: "0"%char :: "0"%char :: h :: l :: r' =>
            match hex_value h, hex_value l with
            | Some a, Some b => parse_string r' (ascii_of_nat (16 * a + b) :: acc)
            | _, _ => None
            end
        | e :: r' =>
            match nat_of_ascii e with
            | 34 => parse_string r' (dquote :: acc)
            | 92 => parse_string r' ("\"%char :: acc)
            | 47 => parse_string r' ("/"%char :: acc)
            | 110 => parse_string r' (ascii_of_nat 10 :: acc)
            | 114 => parse_string r' (ascii_of_nat 13 :: acc)
            | 116 => parse_string r' (ascii_of_nat 9 :: acc)
            | 98 => parse_string r' (ascii_of_nat 8 :: acc)
            | 102 => parse_string r' (ascii_of_nat 12 :: acc)
            | _ => None
            end%nat
        | [] => None
        end
      else if (nat_of_ascii c <? 32)%nat then None
      else parse_string r (c :: acc)
  end.

Definition digit (c : ascii) : bool :=
  let n := nat_of_ascii c in (48 <=? n)%nat && (n <=? 57)%nat.

Fixpoint span_digits (s : list ascii) : list ascii * list ascii :=
  match s with
  | c :: r => if digit c then let (ds, rest) := span_digits r in (c :: ds, rest)
              else ([], s)
  | [] => ([], [])
  end.

Definition parse_num (s : list ascii) : option (Z * list ascii) :=
  let (neg, s') := match s with
                   | "-"%char :: r => (true, r)
                   | _ => (false, s)
                   end in
  let (ds, rest) := span_digits s' in
  match ds with
  | [] => None
  | "0"%char :: _ :: _ => None
  | _ =>
      match NilZero.uint_of_string (string_of_list_ascii ds) with
      | Some u => let n := Z.of_uint u in
                  Some (if neg then (- n)%Z else n, rest)
      | None => None
      end
  end.

Fixpoint parse_value (fuel : nat) (s : list ascii)
  : option (Js.value * list ascii) :=
  match fuel with
  | O => None
  | S fuel' =>
      match skip_ws s with
      | [] => None
      | c :: r =>
          if decide (c = dquote) then
            match parse_string r [] with
            | Some (str, r') => Some (Js.Str str, r')
            | None => None
            end
          else
            match c :: r with
            | "n"%char :: "u"%char :: "l"%char :: "l"%char :: r' =>
                Some (Js.Null, r')
            | "t"%char :: "r"%char :: "u"%char :: "e"%char :: r' =>
                Some (Js.Bool true, r')
            | "f"%char :: "a"%char :: "l"%char :: "s"%char :: "e"%char :: r' =>
                Some (Js.Bool false, r')
            | "["%char :: r' =>
                match skip_ws r' with
                | "]"%char :: r'' => Some (Js.Arr [], r'')
                | r'' => match parse_elems fuel' r'' [] with
                         | Some (vs, r3) => Some (Js.Arr vs, r3)
                         | None => None
                         end
                end
            | "{"%char :: r' =>
                match skip_ws r' with
                | "}"%char :: r'' => Some (Js.Obj [], r'')
                | r'' => match parse_fields fuel' r'' [] with
                         | Some (fs, r3) => Some (Js.Obj fs, r3)
                         | None => None
                         end
                end
            | s' =>
                match parse_num s' with
                | Some (n, r') => Some (Js.Num n, r')
                | None => None
                end
            end
      end
  end
with parse_elems (fuel : nat) (s : list ascii) (acc : list Js.value)
  : option (list Js.value * list ascii) :=
  match fuel with
  | O => None
  | S fuel' =>
      match parse_value fuel' s with
      | Some (v, r) =>
          match skip_ws r with
          | ","%char :: r' => parse_elems fuel' r' (v :: acc)
          | "]"%char :: r' => Some (rev (v :: acc), r')
          | _ => None
          end
      | None => None
      end
  end
with parse_fields (fuel : nat) (s : list ascii) (acc : list (string * Js.value))
  : option (list (string * Js.value) * list ascii) :=
  match fuel with
  | O => None
  | S fuel' =>
      match skip_ws s with
      | c :: r =>
          if decide (c = dquote) then
            match parse_string r [] with
            | Some (k, r1) =>
                match skip_ws r1 with
                | ":"%char :: r2 =>
                    match parse_value fuel' r2 with
                    | Some (v, r3) =>
                        match skip_ws r3 with
                        | ","%char :: r4 =>
                            parse_fields fuel' r4 ((k, v) :: acc)
                        | "}"%char :: r4 => Some (rev ((k, v) :: acc), r4)
                        | _ => None
                        end
                    | None => None
                    end
                | _ => None
                end
            | None => None
            end
          else None
      | [] => None
      end
  end.

Definition JSON_parse (s : string) : option Js.value :=
  let l := list_ascii_of_string s in
  match parse_value (S (length l)) l with
  | Some (v, rest) => match skip_ws rest with [] => Some v | _ => None end
  | None => None
  end.

(** The codec on this platform. *)
Definition encode :=
  Share.encodeShareFromState btoa deflateRaw toUtf8Bytes JSON_stringify.

Definition decode (entropy : nat -> string) (now : Z) :=
  Share.decodeShareToState atob inflateRaw fromUtf8Bytes JSON_parse entropy now.

End Reference.

(** ** Sample data *)

Module Sample.

(** An item that carries only an identifier and a url. *)
Definition bare (id url : string) : VideoItem :=
  {| Item.id := id; Item.url := url; Item.videoId := None;
     Item.title := None; Item.thumbnailUrl := None;
     Item.sourceTitle := None; Item.tags := []; Item.addedAt := 1700000000000%Z |}.

Definition playlist (id name : string) (its : list VideoItem) : Playlist :=
  {| PL.id := id; PL.name := name; PL.createdAt := 1700000000000%Z;
     PL.items := its |}.

Definition state (ps : list Playlist) (selected : string) : StoredStateV1 :=
  {| version := 1%Z; selectedPlaylistId := selected; playlists := ps |}.

(** Two playlists that both hold the url ["https://x.test/a "], with a
    trailing space. *)
Definition spaced : StoredStateV1 :=
  state [ playlist "A" "First" [bare "v1" "https://x.test/a "];
          playlist "B" "Second" [bare "v2" "https://x.test/a "] ] "A".

(** Two items of one playlist that share an identifier. *)
Definition twins : StoredStateV1 :=
  state [ playlist "A" "First"
            [bare "v1" "https://x.test/a"; bare "v1" "https://x.test/b"];
          playlist "B" "Second" [bare "v2" "https://x.test/a"] ] "A".

(** The ordinary case: the same trimmed url in both playlists. *)
Definition plain : StoredStateV1 :=
  state [ playlist "A" "First"
            [bare "v1" "https://x.test/a"; bare "v3" "https://x.test/c"];
          playlist "B" "Second" [bare "v2" "https://x.test/a"] ] "A".

Definition entropy (n : nat) : string := "seed" +:+ JsString.of_nat n.

(** A collection with one playlist named "Music", and three imports. *)
Definition music : StoredStateV1 := state [playlist "p1" "Music" []] "p1".

Definition music_twice : StoredStateV1 :=
  state [playlist "q1" "Music" []; playlist "q2" "music" [];
         playlist "q3" "Jazz" []] "q1".

(** The imported names end with a space. *)
Definition music_spaced : StoredStateV1 :=
  state [playlist "q1" "Music " []; playlist "q2" "Music " []] "q1".

(** Two payloads, with an empty playlist list and with [null] for a
    playlist; their share tokens on the reference platform; and a token
    whose body is not base64. *)
Definition empty_payload : Js.value :=
  Js.Obj [("v", Js.Num 1); ("p", Js.Arr [])].
Definition null_payload : Js.value :=
  Js.Obj [("v", Js.Num 1); ("p", Js.Arr [Js.Null])].
Definition empty_token : string := "v1.eyJ2IjoxLCJwIjpbXX0".
Definition null_token : string := "v1.eyJ2IjoxLCJwIjpbbnVsbF19".
Definition garbage_token : string := "v1.!!!".

(** A collection with an item that has a source title and no title, and a
    playlist without a name. *)
Definition shared : StoredStateV1 :=
  state
    [ playlist "A" "First"
        [ {| Item.id := "v1"; Item.url := "https://youtu.be/abc";
             Item.videoId := Some "abc"; Item.title := None;
             Item.thumbnailUrl := Some "https://i.ytimg.com/vi/abc/0.jpg";
             Item.sourceTitle := Some "Shared title";
             Item.tags := ["dev"; "music"];
             Item.addedAt := 1700000000123 |} ];
      playlist "B" "" [] ] "A".

(** A collection whose round trip changes nothing but the identifiers. *)
Definition titled : StoredStateV1 :=
  state
    [ playlist "A" "First"
        [ {| Item.id := "v1"; Item.url := "https://youtu.be/abc";
             Item.videoId := Some "abc"; Item.title := Some "A title";
             Item.thumbnailUrl := Some "https://i.ytimg.com/vi/abc/0.jpg";
             Item.sourceTitle := None;
             Item.tags := ["dev"; "music"];
             Item.addedAt := 1700000000123 |} ] ] "A".

(** A patch with no key, and the patch [{ tags }]. *)
Definition no_patch : Item.Patch :=
  Item.mkPatch None None None None None None None None.

Definition tags_patch (tags : list string) : Item.Patch :=
  Item.mkPatch None None None None None None (Some tags) None.

(** [plain] laid out in an empty heap: the two playlists at 0 and 1, their
    array at 2, the state at 3. *)
Definition plain_heap : Ref.heap :=
  [ Ref.OPlaylist (playlist "A" "First"
       [bare "v1" "https://x.test/a"; bare "v3" "https://x.test/c"]);
    Ref.OPlaylist (playlist "B" "Second" [bare "v2" "https://x.test/a"]);
    Ref.OArray [0; 1]%nat;
    Ref.OState 1 "A" 2%nat ].

End Sample.

(** ** Handlers of the application ([src/App.tsx]) *)

Module App.
Section App.

Context `{UrlApi}.

(** The random draws of [newId] and the reading of [Date.now()]. *)
Variable entropy : nat -> string.
Variable now : Z.

(** What [fetchYouTubeOEmbed] resolves to for a url: the title and the
    thumbnail of the answer, both absent when the answer is not ok, or
    [None] when the request or the reading of its body throws. *)
Variable fetchYouTubeOEmbed : string -> option (option string * option string).

(** [onAddVideo]: the state after the updater it schedules has run. An
    exception of the normalizer or of the request is caught, and then no
    updater is scheduled and no identifier is drawn. *)
Definition onAddVideo (playlistId url : string) (tags : list string)
    (sourceTitle : option string) (state : StoredStateV1)
  : Gen StoredStateV1 :=
  match Youtube.normalizeYouTubeUrl url with
  | None => ret state
  | Some normalized =>
      match fetchYouTubeOEmbed (Youtube.url normalized) with
      | None => ret state
      | Some (title, thumbnailUrl) =>
          bind (newId entropy "v") (fun id =>
          let item :=
            {| Item.id := id;
               Item.url := Youtube.url normalized;
               Item.videoId := Youtube.videoId normalized;
               Item.title := title;
               Item.thumbnailUrl := thumbnailUrl;
               Item.sourceTitle := sourceTitle;
               Item.tags := tags;
               Item.addedAt := now |} in
          ret (Store.addVideoToPlaylist state playlistId item))
      end
  end.

End App.

Section Playlists.

Variable entropy : nat -> string.
Variable now : Z.

Definition new_list_label : string := "새 목록".

(** [onCreatePlaylist]: the identifier is drawn when the handler runs, and
    the updater is [(s) => ({ ...upsertPlaylist(s, pl), selectedPlaylistId:
    pl.id })]. *)
Definition onCreatePlaylist (name : string) (state : StoredStateV1)
  : Gen StoredStateV1 :=
  bind (newId entropy "pl") (fun id =>
  let pl := {| PL.id := id;
               PL.name := JsString.or_else (Some (JsString.trim name))
                            new_list_label;
               PL.createdAt := now;
               PL.items := [] |} in
  let state' := Store.upsertPlaylist state pl in
  ret {| version := version state';
         selectedPlaylistId := PL.id pl;
         playlists := playlists state' |}).

(** The updater of [onRenamePlaylist]. *)
Definition onRenamePlaylist (playlistId name : string)
    (state : StoredStateV1) : StoredStateV1 :=
  match Store.findPlaylist (playlists state) playlistId with
  | None => state
  | Some (_, pl) =>
      Store.upsertPlaylist state
        (PL.with_name pl
           (JsString.or_else (Some (JsString.trim name)) (PL.name pl)))
  end.

End Playlists.

(** No two items of a playlist have the same stored key. *)
Definition keys_distinct (state : StoredStateV1) : Prop :=
  Forall (fun pl => NoDup (Store.storedKey <$> PL.items pl)) (playlists state).

End App.

(** ** More of the share codec ([src/lib/share.ts]) *)

(** The fragment of a URL and the parser of a query string: [url.hash] and
    [new URLSearchParams(s)]. *)
Class UrlHashApi `{UrlApi} := {
  hash : URL -> string;
  URLSearchParams : string -> list (string * string)
}.

Module Link.

(** [s.slice(s.indexOf(c) + 1)], when [indexOf] does not return -1. *)
Fixpoint after_first (c : ascii) (s : string) : option string :=
  match s with
  | EmptyString => None
  | String a s' => if decide (a = c) then Some s' else after_first c s'
  end.

Section Link.

Context `{UrlHashApi}.

(** [None] is [undefined]; an exception of [new URL(s)] is caught. *)
Definition extractSharePayloadFromUrlOrHash (input : string) : option string :=
  let s := JsString.trim input in
  if negb (JsString.truthy s) then None
  else if Youtube.startsWith "v1." s then Some s
  else
    match parse s with
    | None => None
    | Some u =>
        let from_hash :=
          match after_first "?" (hash u) with
          | Some q =>
              JsString.or_undefined (Youtube.get "d" (URLSearchParams q))
          | None => None
          end in
        match from_hash with
        | Some d => Some d
        | None => JsString.or_undefined (Youtube.get "d" (searchParams u))
        end
    end.

End Link.
End Link.

(** The small URL class has no fragment; its query parser serves as
    [URLSearchParams]. *)
#[global] Instance SimpleUrl_hash : @UrlHashApi SimpleUrl.api :=
  {| hash := fun _ => ""; URLSearchParams := SimpleUrl.parse_query |}.

(** The identifiers of a decoded state, in the order in which the decoder
    mints them: each playlist, then its items. *)
Module Minted.

Definition ids_of (d : Share.Decoded) : list string :=
  concat ((fun p => Share.DPlaylist.id p ::
                    (Share.DItem.id <$> Share.DPlaylist.items p))
            <$> Share.d_playlists d).

(** [ids] are [m] identifiers made from the draws [n], [n + 1], ... *)
Definition from_draws (entropy : nat -> string) (n m : nat)
    (ids : list string) : Prop :=
  length ids = m /\
  forall j id, ids !! j = Some id ->
    id = "pl_" +:+ entropy (n + j)%nat \/ id = "v_" +:+ entropy (n + j)%nat.

End Minted.

(** ** Tags ([src/lib/search.ts]) *)

Module Search.

(** [s.split(re)] for a regular expression that matches one character of
    a class. *)
Fixpoint split_on (sep : ascii -> bool) (s : string) : list string :=
  match s with
  | EmptyString => [EmptyString]
  | String c s' =>
      if sep c then EmptyString :: split_on sep s'
      else match split_on sep s' with
           | seg :: segs => String c seg :: segs
           | [] => [String c EmptyString]
           end
  end.

(** The class [[,\n]]. *)
Definition tag_separator (c : ascii) : bool :=
  bool_decide (c = ","%char) || bool_decide (c = "010"%char).

(** [s.replace(/^#/, "")] *)
Definition strip_hash (s : string) : string :=
  match s with
  | String "#" rest => rest
  | _ => s
  end.

(** [tags.join(sep)] *)
Fixpoint join (sep : string) (l : list string) : string :=
  match l with
  | [] => ""
  | s :: l' =>
      match l' with
      | [] => s
      | _ :: _ => s +:+ sep +:+ join sep l'
      end
  end.

Section Search.

Variable toLowerCase : string -> string.

Definition normalize (s : string) : string :=
  toLowerCase (JsString.trim s).

(** The body of the loop of [parseTagsInput]: [out] after the part [p]. *)
Definition push_tag (out : list string) (p : string) : list string :=
  let t := JsString.trim (strip_hash p) in
  if negb (JsString.truthy t) then out
  else if existsb (fun x => bool_decide (normalize x = normalize t)) out
       then out
       else out ++ [t].

Definition parseTagsInput (input : string) : list string :=
  let parts :=
    filter (fun p => JsString.truthy p = true)
      (JsString.trim <$> split_on tag_separator input) in
  fold_left push_tag parts [].

End Search.

Definition formatTags (tags : list string) : list string :=
  (fun t => if Youtube.startsWith "#" t then t else "#" +:+ t) <$> tags.

(** What a tag of the result of [parseTagsInput] is like: not empty,
    without white space around it, and without a separator. *)
Definition tidy (t : string) : Prop :=
  t <> "" /\ JsString.trim t = t /\
  Forall (fun c => tag_separator c = false) (list_ascii_of_string t).

End Search.

(** ** Paths and the search box ([src/App.tsx]) *)

Module Nav.

(** [s.endsWith(suffix)] *)
Definition endsWith (suffix s : string) : bool :=
  Youtube.startsWith (string_of_list_ascii (rev (list_ascii_of_string suffix)))
    (string_of_list_ascii (rev (list_ascii_of_string s))).

(** [p.replace(/[^/]+$/, "")]: [p] without the characters after its last
    slash. *)
Fixpoint drop_segment (l : list ascii) : list ascii :=
  match l with
  | [] => []
  | c :: l' => if decide (c = "/"%char) then l else drop_segment l'
  end.

Definition drop_last_segment (p : string) : string :=
  string_of_list_ascii (rev (drop_segment (rev (list_ascii_of_string p)))).

(** [getBasePath], as a function of [window.location.pathname]. *)
Definition getBasePath (p : string) : string :=
  if endsWith "/" p then p
  else if endsWith ".html" p then drop_last_segment p
  else p +:+ "/".

(** [s.includes(sub)] *)
Fixpoint includes (sub s : string) : bool :=
  Youtube.startsWith sub s ||
  match s with
  | EmptyString => false
  | String _ s' => includes sub s'
  end.

(** The updater of the search box when a tag is clicked:
    [(q) => (q.includes(token) ? q : (q.trim() ? `${q.trim()} ${token}` :
    token))]. *)
Definition addToken (token q : string) : string :=
  if includes token q then q
  else if JsString.truthy (JsString.trim q)
       then JsString.trim q +:+ " " +:+ token
       else token.

End Nav.

(** ** Persistence ([src/lib/storage.ts]) *)

Module Persist.

(** What [localStorage.getItem] does: it throws, returns [null], or returns
    the stored text. *)
Inductive Stored := Throws | Missing | Text (raw : string).

(** [v === s] for a string [s]. *)
Definition is_string (s : string) (v : Js.value) : bool :=
  match v with
  | Js.Str x => bool_decide (x = s)
  | _ => false
  end.

(** [isStoredStateV1]: an object, or an array, has the type "object", and
    [JSON.parse] gives an array no property [version]. *)
Definition isStoredStateV1 (x : Js.value) : bool :=
  match x with
  | Js.Obj fields =>
      match Js.lookup_field "version" fields,
            Js.lookup_field "playlists" fields,
            Js.lookup_field "selectedPlaylistId" fields with
      | Js.Num 1, Js.Arr _, Js.Str _ => true
      | _, _, _ => false
      end
  | _ => false
  end.

(** [playlists.some((p) => p.id === selectedPlaylistId)]: [None] is the
    TypeError of [p.id] on [null], which [some] meets only before the
    first hit. *)
Fixpoint some_id (sel : string) (ps : list Js.value) : option bool :=
  match ps with
  | [] => Some false
  | p :: ps' =>
      match Js.get "id" p with
      | None => None
      | Some v => if is_string sel v then Some true else some_id sel ps'
      end
  end.

(** [obj.k = v] *)
Fixpoint set_field (k : string) (v : Js.value)
    (fields : list (string * Js.value)) : list (string * Js.value) :=
  match fields with
  | [] => [(k, v)]
  | (k', x) :: fields' =>
      if decide (k' = k) then (k, v) :: fields'
      else (k', x) :: set_field k v fields'
  end.

(** What [loadStoredState] returns: the state that [defaultState] builds,
    or the parsed object. *)
Inductive Loaded := Seeded (s : StoredStateV1) | Kept (v : Js.value).

Section Persist.

Variable JSON_stringify : Js.value -> string.
Variable JSON_parse : string -> option Js.value.
Variable entropy : nat -> string.
Variable now : Z.

Definition seeded : Gen Loaded :=
  bind (Store.defaultState entropy now) (fun s => ret (Seeded s)).

(** Every exception inside the [try] ends in [defaultState()]. *)
Definition loadStoredState (stored : Stored) : Gen Loaded :=
  match stored with
  | Throws | Missing => seeded
  | Text raw =>
      if negb (JsString.truthy raw) then seeded else
      match JSON_parse raw with
      | None => seeded
      | Some parsed =>
          if negb (isStoredStateV1 parsed) then seeded else
          match parsed with
          | Js.Obj fields =>
              match Js.lookup_field "playlists" fields,
                    Js.lookup_field "selectedPlaylistId" fields with
              | Js.Arr ps, Js.Str sel =>
                  match ps with
                  | [] => seeded
                  | first :: _ =>
                      match some_id sel ps with
                      | None => seeded
                      | Some true => ret (Kept parsed)
                      | Some false =>
                          match Js.get "id" first with
                          | Some id =>
                              ret (Kept (Js.Obj
                                     (set_field "selectedPlaylistId" id fields)))
                          | None => seeded
                          end
                      end
                  end
              | _, _ => seeded
              end
          | _ => seeded
          end
      end
  end.

(** [saveStoredState]: the content of the storage after [setItem]. *)
Definition saveStoredState (state : Js.value) : Stored :=
  Text (JSON_stringify state).

End Persist.

(** A typed state as the object that the application holds, with the
    properties in the order of [src/lib/types.ts]. *)
Definition of_item (it : VideoItem) : Js.value :=
  Js.Obj
    [ ("id", Js.Str (Item.id it));
      ("url", Js.Str (Item.url it));
      ("videoId", Js.of_opt (Item.videoId it));
      ("title", Js.of_opt (Item.title it));
      ("thumbnailUrl", Js.of_opt (Item.thumbnailUrl it));
      ("sourceTitle", Js.of_opt (Item.sourceTitle it));
      ("tags", Js.Arr (Js.Str <$> Item.tags it));
      ("addedAt", Js.Num (Item.addedAt it)) ].

Definition of_playlist (pl : Playlist) : Js.value :=
  Js.Obj
    [ ("id", Js.Str (PL.id pl));
      ("name", Js.Str (PL.name pl));
      ("createdAt", Js.Num (PL.createdAt pl));
      ("items", Js.Arr (of_item <$> PL.items pl)) ].

Definition of_state (s : StoredStateV1) : Js.value :=
  Js.Obj
    [ ("version", Js.Num (version s));
      ("selectedPlaylistId", Js.Str (selectedPlaylistId s));
      ("playlists", Js.Arr (of_playlist <$> playlists s)) ].

(** [s] with another selection. *)
Definition select (sel : string) (s : StoredStateV1) : StoredStateV1 :=
  {| version := version s; selectedPlaylistId := sel;
     playlists := playlists s |}.

End Persist.
(** * Properties *)

(** ** The state store *)

Module StoreFacts.
Import Store.

(** *** Lookup after an update *)

Lemma findPlaylist_Some ps pid i pl :
  findPlaylist ps pid = Some (i, pl) ->
  ps !! i = Some pl /\ PL.id pl = pid /\
  forall j q, ps !! j = Some q -> (j < i)%nat -> PL.id q <> pid.
Proof. unfold findPlaylist. by rewrite list_find_Some. Qed.

Lemma findPlaylist_None ps pid :
  findPlaylist ps pid = None <-> Forall (fun q => PL.id q <> pid) ps.
Proof. unfold findPlaylist. by rewrite list_find_None. Qed.

Lemma findPlaylist_insert_same ps pid i pl pl' :
  findPlaylist ps pid = Some (i, pl) -> PL.id pl' = pid ->
  findPlaylist (<[i := pl']> ps) pid = Some (i, pl').
Proof.
  intros (Hi & _ & Hleast)%findPlaylist_Some Hid.
  apply list_find_Some. split_and!; [|done|].
  - apply list_lookup_insert_eq. by eapply lookup_lt_Some.
  - intros j q Hj Hlt. rewrite list_lookup_insert_ne in Hj by lia. eauto.
Qed.

Lemma findPlaylist_insert_other ps pid i pl pl' other :
  findPlaylist ps pid = Some (i, pl) -> PL.id pl' = pid -> other <> pid ->
  findPlaylist (<[i := pl']> ps) other = findPlaylist ps other.
Proof.
  intros (Hi & Hpl & _)%findPlaylist_Some Hid Hne. unfold findPlaylist.
  revert i Hi. induction ps as [|q ps IH]; intros [|i] Hi; simplify_eq/=.
  - do 2 (case_decide; [congruence|]). done.
  - case_decide; [done|]. by rewrite IH.
Qed.

Lemma upsertPlaylist_found state playlist i old :
  findPlaylist (playlists state) (PL.id playlist) = Some (i, old) ->
  upsertPlaylist state playlist =
    {| version := version state;
       selectedPlaylistId := selectedPlaylistId state;
       playlists := <[i := playlist]> (playlists state) |}.
Proof. intros H. unfold upsertPlaylist. by rewrite H. Qed.

Lemma exists_key_true its key :
  exists_key its key = true <-> exists v, v ∈ its /\ storedKey v = key.
Proof.
  unfold exists_key. rewrite existsb_exists. split.
  - intros (v & Hin & Hk). exists v. rewrite list_elem_of_In.
    by apply bool_decide_eq_true in Hk.
  - intros (v & Hin & Hk). exists v. rewrite <- list_elem_of_In.
    by rewrite bool_decide_eq_true.
Qed.

(** What the three item operations return when the playlist is found. *)
Lemma addVideoToPlaylist_dup state pid item i pl :
  findPlaylist (playlists state) pid = Some (i, pl) ->
  exists_key (PL.items pl) (videoKey item) = true ->
  addVideoToPlaylist state pid item = state.
Proof. intros Hf Hex. unfold addVideoToPlaylist. by rewrite Hf, Hex. Qed.

Lemma addVideoToPlaylist_fresh state pid item i pl :
  findPlaylist (playlists state) pid = Some (i, pl) ->
  exists_key (PL.items pl) (videoKey item) = false ->
  addVideoToPlaylist state pid item =
    {| version := version state;
       selectedPlaylistId := selectedPlaylistId state;
       playlists :=
         <[i := PL.with_items pl (item :: PL.items pl)]> (playlists state) |}.
Proof.
  intros Hf Hex. unfold addVideoToPlaylist. rewrite Hf, Hex.
  apply upsertPlaylist_found with (old := pl). simpl.
  by rewrite (proj1 (proj2 (findPlaylist_Some _ _ _ _ Hf))).
Qed.

Lemma removeVideoFromPlaylist_found state pid vid i pl :
  findPlaylist (playlists state) pid = Some (i, pl) ->
  removeVideoFromPlaylist state pid vid =
    {| version := version state;
       selectedPlaylistId := selectedPlaylistId state;
       playlists :=
         <[i := PL.with_items pl
                  (filter (fun v => Item.id v <> vid) (PL.items pl))]>
           (playlists state) |}.
Proof.
  intros Hf. unfold removeVideoFromPlaylist. rewrite Hf.
  apply upsertPlaylist_found with (old := pl). simpl.
  by rewrite (proj1 (proj2 (findPlaylist_Some _ _ _ _ Hf))).
Qed.

Lemma updateVideoInPlaylist_found state pid vid patch i pl :
  findPlaylist (playlists state) pid = Some (i, pl) ->
  updateVideoInPlaylist state pid vid patch =
    {| version := version state;
       selectedPlaylistId := selectedPlaylistId state;
       playlists :=
         <[i := PL.with_items pl
                  (map (fun v => if decide (Item.id v = vid)
                                 then Item.spread v patch else v) (PL.items pl))]>
           (playlists state) |}.
Proof.
  intros Hf. unfold updateVideoInPlaylist. rewrite Hf.
  apply upsertPlaylist_found with (old := pl). simpl.
  by rewrite (proj1 (proj2 (findPlaylist_Some _ _ _ _ Hf))).
Qed.

(** *** The collection invariant *)

Lemma invariant_upsertPlaylist state playlist :
  invariant state -> invariant (upsertPlaylist state playlist).
Proof.
  intros [Hne (p & Hp & Hsel)]. unfold upsertPlaylist, invariant. simpl.
  destruct (findPlaylist (playlists state) (PL.id playlist))
    as [[i old]|] eqn:Hf.
  - apply findPlaylist_Some in Hf as (Hi & Hid & _).
    assert (Hlt : (i < length (playlists state))%nat)
      by by eapply lookup_lt_Some.
    split.
    + intros Hnil. apply (f_equal length) in Hnil.
      rewrite length_insert in Hnil. simpl in Hnil. lia.
    + apply list_elem_of_lookup in Hp as [j Hj].
      destruct (decide (j = i)) as [->|Hji].
      * exists playlist. split; [by apply list_elem_of_insert|].
        rewrite Hi in Hj. simplify_eq. congruence.
      * exists p. split; [|done]. apply list_elem_of_lookup. exists j.
        by rewrite list_lookup_insert_ne.
  - split; [done|]. exists p. split; [by apply elem_of_cons; right|done].
Qed.

Lemma invariant_defaultState entropy now n :
  invariant (fst (defaultState entropy now n)).
Proof.
  unfold defaultState, bind, newId, ret, invariant. simpl.
  split; [done|]. eexists. split; [left|done].
Qed.

Lemma invariant_deletePlaylist entropy now state pid n :
  invariant state -> invariant (fst (deletePlaylist entropy now state pid n)).
Proof.
  intros [Hne (p & Hp & Hsel)]. unfold deletePlaylist.
  destruct (filter _ (playlists state)) as [|first rest] eqn:Hflt.
  - apply invariant_defaultState.
  - unfold ret, invariant. simpl. split; [done|]. case_decide as Hd.
    + exists first. split; [left|done].
    + exists p. split; [|done]. rewrite <- Hflt.
      apply list_elem_of_filter. split; [congruence|done].
Qed.

Lemma invariant_addVideoToPlaylist state pid item :
  invariant state -> invariant (addVideoToPlaylist state pid item).
Proof.
  intros Hinv. unfold addVideoToPlaylist.
  destruct (findPlaylist _ _) as [[i pl]|]; [|done].
  destruct (exists_key _ _); [done|]. by apply invariant_upsertPlaylist.
Qed.

Lemma invariant_removeVideoFromPlaylist state pid vid :
  invariant state -> invariant (removeVideoFromPlaylist state pid vid).
Proof.
  intros Hinv. unfold removeVideoFromPlaylist.
  destruct (findPlaylist _ _) as [[i pl]|]; [|done].
  by apply invariant_upsertPlaylist.
Qed.

Lemma invariant_updateVideoInPlaylist state pid vid patch :
  invariant state -> invariant (updateVideoInPlaylist state pid vid patch).
Proof.
  intros Hinv. unfold updateVideoInPlaylist.
  destruct (findPlaylist _ _) as [[i pl]|]; [|done].
  by apply invariant_upsertPlaylist.
Qed.

Lemma invariant_moveVideo state a b vid :
  invariant state -> invariant (moveVideo state a b vid).
Proof.
  intros Hinv. unfold moveVideo. case_decide; [done|].
  destruct (findPlaylist _ a) as [[i from]|]; [|done].
  destruct (findPlaylist _ b) as [[j to]|]; [|done].
  destruct (findItem _ _); [|done].
  by apply invariant_addVideoToPlaylist, invariant_removeVideoFromPlaylist.
Qed.

(** C3. Every operation of the state store maps a state that satisfies the
    collection invariant (at least one playlist, and the selected identifier
    is the identifier of one of them) to a state that satisfies it. Deleting
    the only playlist left gives exactly one freshly seeded playlist, and
    deleting the selected playlist while others remain selects the first of
    those. *)
Theorem C3_operations_preserve_invariant entropy now state :
  invariant state ->
  (forall playlist, invariant (upsertPlaylist state playlist)) /\
  (forall pid n, invariant (fst (deletePlaylist entropy now state pid n))) /\
  (forall pid item, invariant (addVideoToPlaylist state pid item)) /\
  (forall pid vid, invariant (removeVideoFromPlaylist state pid vid)) /\
  (forall pid vid patch,
      invariant (updateVideoInPlaylist state pid vid patch)) /\
  (forall a b vid, invariant (moveVideo state a b vid)) /\
  (forall only n, playlists state = [only] ->
      playlists (fst (deletePlaylist entropy now state (PL.id only) n)) =
        [ {| PL.id := "pl_" +:+ entropy n; PL.name := default_name;
             PL.createdAt := now; PL.items := [] |} ] /\
      selectedPlaylistId
        (fst (deletePlaylist entropy now state (PL.id only) n)) =
        "pl_" +:+ entropy n) /\
  (forall first rest n,
      filter (fun p => PL.id p <> selectedPlaylistId state) (playlists state)
        = first :: rest ->
      let state' :=
        fst (deletePlaylist entropy now state (selectedPlaylistId state) n) in
      playlists state' = first :: rest /\
      selectedPlaylistId state' = PL.id first).
Proof.
  intros Hinv. split_and!.
  - intros. by apply invariant_upsertPlaylist.
  - intros. by apply invariant_deletePlaylist.
  - intros. by apply invariant_addVideoToPlaylist.
  - intros. by apply invariant_removeVideoFromPlaylist.
  - intros. by apply invariant_updateVideoInPlaylist.
  - intros. by apply invariant_moveVideo.
  - intros only n Hps. unfold deletePlaylist. rewrite Hps.
    rewrite filter_cons_False by (intros Hc; by apply Hc). done.
  - intros first rest n Hflt. unfold deletePlaylist. rewrite Hflt. simpl.
    by rewrite decide_True.
Qed.

Lemma C3_witness :
  let entropy := Sample.entropy in
  let now := 0%Z in
  let state := Sample.plain in
  invariant state /\
  ((forall playlist, invariant (upsertPlaylist state playlist)) /\
  (forall pid n, invariant (fst (deletePlaylist entropy now state pid n))) /\
  (forall pid item, invariant (addVideoToPlaylist state pid item)) /\
  (forall pid vid, invariant (removeVideoFromPlaylist state pid vid)) /\
  (forall pid vid patch,
      invariant (updateVideoInPlaylist state pid vid patch)) /\
  (forall a b vid, invariant (moveVideo state a b vid)) /\
  (forall only n, playlists state = [only] ->
      playlists (fst (deletePlaylist entropy now state (PL.id only) n)) =
        [ {| PL.id := "pl_" +:+ entropy n; PL.name := default_name;
             PL.createdAt := now; PL.items := [] |} ] /\
      selectedPlaylistId
        (fst (deletePlaylist entropy now state (PL.id only) n)) =
        "pl_" +:+ entropy n) /\
  (forall first rest n,
      filter (fun p => PL.id p <> selectedPlaylistId state) (playlists state)
        = first :: rest ->
      let state' :=
        fst (deletePlaylist entropy now state (selectedPlaylistId state) n) in
      playlists state' = first :: rest /\
      selectedPlaylistId state' = PL.id first)).
Proof.
  intros entropy now state.
  assert (Hinv : invariant state).
  { split; [discriminate|]. eexists. split; [left|reflexivity]. }
  split; [exact Hinv|].
  exact (C3_operations_preserve_invariant entropy now state Hinv).
Defined.


(** *** Moving an item between playlists *)

Lemma findItem_Some its vid item :
  findItem its vid = Some item -> item ∈ its /\ Item.id item = vid.
Proof.
  unfold findItem. intros ([i v] & Hf & ->)%fmap_Some.
  apply list_find_Some in Hf as (Hi & Hid & _). simpl.
  split; [by eapply list_elem_of_lookup_2|done].
Qed.

Lemma filter_keeps_all {A} (P : A -> Prop) `{!forall x, Decision (P x)}
    (l : list A) :
  Forall P l -> filter P l = l.
Proof.
  induction 1 as [|x l Hx _ IH]; [done|].
  by rewrite filter_cons_True, IH.
Qed.

Lemma filter_id_shorter (its : list VideoItem) vid item :
  item ∈ its -> Item.id item = vid ->
  (length (filter (fun v => Item.id v <> vid) its) < length its)%nat.
Proof.
  intros Hin Hid. apply length_filter_lt with (x := item); [done|].
  intros Hc. by apply Hc.
Qed.

Lemma filter_id_NoDup (its : list VideoItem) vid item :
  NoDup (Item.id <$> its) -> item ∈ its -> Item.id item = vid ->
  S (length (filter (fun v => Item.id v <> vid) its)) = length its.
Proof.
  intros Hnd Hin Hid. induction its as [|v its IH]; [by inversion Hin|].
  rewrite fmap_cons in Hnd. apply NoDup_cons in Hnd as [Hv Hnd].
  destruct (decide (Item.id v = vid)) as [Heq|Hne].
  - rewrite filter_cons_False by (intros Hc; by apply Hc). simpl. f_equal.
    f_equal. apply filter_keeps_all, Forall_forall. intros w Hw Hwid.
    apply Hv. rewrite Heq, <- Hwid. by apply list_elem_of_fmap_2.
  - rewrite filter_cons_True by done. simpl. f_equal.
    apply elem_of_cons in Hin as [->|Hin]; [congruence|]. by apply IH.
Qed.

Lemma videoKey_storedKey item :
  (JsString.or_undefined (Item.videoId item) = None ->
   JsString.trim (Item.url item) = Item.url item) ->
  videoKey item = storedKey item.
Proof.
  unfold videoKey, storedKey, JsString.or_else, JsString.or_undefined.
  destruct (Item.videoId item) as [s|]; [destruct (JsString.truthy s)|];
    intros H; [done|by rewrite H..].
Qed.

Lemma moveVideo_duplicate state a b itemId ia ib from to item :
  a <> b ->
  findPlaylist (playlists state) a = Some (ia, from) ->
  findPlaylist (playlists state) b = Some (ib, to) ->
  findItem (PL.items from) itemId = Some item ->
  exists_key (PL.items to) (videoKey item) = true ->
  moveVideo state a b itemId = removeVideoFromPlaylist state a itemId /\
  findPlaylist (playlists (moveVideo state a b itemId)) b = Some (ib, to).
Proof.
  intros Hab Hfa Hfb Hitem Hdup. unfold moveVideo.
  rewrite decide_False by done. rewrite Hfa, Hfb, Hitem.
  assert (Hb' : findPlaylist
            (playlists (removeVideoFromPlaylist state a itemId)) b
          = Some (ib, to)).
  { rewrite (removeVideoFromPlaylist_found _ _ _ _ _ Hfa). simpl.
    erewrite findPlaylist_insert_other; eauto.
    apply findPlaylist_Some in Hfa. simpl. tauto. }
  rewrite (addVideoToPlaylist_dup _ _ _ _ _ Hb' Hdup). done.
Qed.




(** *** Adding an item *)

(** The part of the duplicate rule that the code keeps: an item whose
    non-empty videoId is the videoId of a stored item is discarded. *)
Lemma addVideoToPlaylist_same_videoId state pid item i pl v vid :
  findPlaylist (playlists state) pid = Some (i, pl) ->
  v ∈ PL.items pl ->
  Item.videoId v = Some vid -> Item.videoId item = Some vid ->
  JsString.truthy vid = true ->
  addVideoToPlaylist state pid item = state.
Proof.
  intros Hf Hv Hvid Hitem Ht. eapply addVideoToPlaylist_dup; [done|].
  apply exists_key_true. exists v. split; [done|].
  unfold storedKey, videoKey, JsString.or_else. by rewrite Hvid, Hitem, Ht.
Qed.

(** C2, at the failing input. An item whose url ends with a space is added
    to an empty playlist and then added again: the second call does not
    find the stored copy, whose untrimmed url is compared with the trimmed
    key, and the playlist holds the item twice. *)
Theorem C2_untrimmed_url_is_added_twice :
  let item := Sample.bare "v1" "https://x.test/a " in
  let s0 := Sample.state [Sample.playlist "A" "First" []] "A" in
  let s1 := addVideoToPlaylist s0 "A" item in
  playlists s1 = [Sample.playlist "A" "First" [item]] /\
  playlists (addVideoToPlaylist s1 "A" item)
    = [Sample.playlist "A" "First" [item; item]].
Proof. split; reflexivity. Qed.

(** *** Operations that change nothing *)

Lemma upsertPlaylist_same state i pl :
  findPlaylist (playlists state) (PL.id pl) = Some (i, pl) ->
  upsertPlaylist state pl = state.
Proof.
  intros Hf. rewrite (upsertPlaylist_found _ _ _ _ Hf).
  apply findPlaylist_Some in Hf as (Hi & _).
  rewrite list_insert_id by done. by destruct state.
Qed.

Lemma updateVideoInPlaylist_no_item state pid vid patch i pl :
  findPlaylist (playlists state) pid = Some (i, pl) ->
  Forall (fun v => Item.id v <> vid) (PL.items pl) ->
  updateVideoInPlaylist state pid vid patch = state.
Proof.
  intros Hf Hall. unfold updateVideoInPlaylist. rewrite Hf.
  assert (Hmap : map (fun v => if decide (Item.id v = vid)
                               then Item.spread v patch else v) (PL.items pl)
                 = PL.items pl).
  { induction Hall as [|v its Hv _ IH]; [done|]. simpl.
    by rewrite decide_False, IH. }
  rewrite Hmap. replace (PL.with_items pl (PL.items pl)) with pl
    by by destruct pl.
  apply upsertPlaylist_same with (i := i).
  by rewrite (proj1 (proj2 (findPlaylist_Some _ _ _ _ Hf))).
Qed.

Lemma deletePlaylist_absent entropy now state pid n :
  invariant state ->
  Forall (fun p => PL.id p <> pid) (playlists state) ->
  deletePlaylist entropy now state pid n = (state, n).
Proof.
  intros [Hne (p & Hp & Hsel)] Hall. unfold deletePlaylist.
  rewrite filter_keeps_all by done.
  destruct (playlists state) as [|first rest] eqn:Hps; [done|].
  unfold ret. rewrite decide_False.
  - f_equal. destruct state. simpl in *. by subst.
  - intros Heq. rewrite Forall_forall in Hall. apply (Hall p Hp). congruence.
Qed.

(** A patch without keys changes nothing in the value. *)
Example update_no_patch :
  updateVideoInPlaylist Sample.plain "A" "v1" Sample.no_patch = Sample.plain.
Proof. reflexivity. Qed.

End StoreFacts.

(** ** The state store over the heap *)

Module RefFacts.
Import Ref.

Lemma playlistsAt_Some h ps pls :
  playlistsAt h ps = Some pls <-> Forall2 (denotes h) ps pls.
Proof.
  unfold playlistsAt. rewrite mapM_Some. unfold denotes.
  split; intros H; (eapply Forall2_impl; [exact H|]); simpl; intros l p Hl.
  - by destruct (h !! l) as [[]|]; simplify_eq.
  - by rewrite Hl.
Qed.

Lemma denotes_extend h ext l p : denotes h l p -> denotes (h ++ ext) l p.
Proof. unfold denotes. apply lookup_app_l_Some. Qed.

Lemma Forall2_denotes_extend h ext ps pls :
  Forall2 (denotes h) ps pls -> Forall2 (denotes (h ++ ext)) ps pls.
Proof. intros H. eapply Forall2_impl; [exact H|]. apply denotes_extend. Qed.

Lemma findFrom_spec h ps pls pid idx :
  Forall2 (denotes h) ps pls ->
  exists r, findFrom idx ps pid h = Some (r, h) /\
    match r with
    | None => Store.findPlaylist pls pid = None
    | Some (i, l, p) =>
        (idx <= i)%nat /\ ps !! (i - idx)%nat = Some l /\ denotes h l p /\
        Store.findPlaylist pls pid = Some ((i - idx)%nat, p)
    end.
Proof.
  intros H. revert idx. induction H as [|l p ps pls Hl _ IH]; intros idx.
  - exists None. done.
  - simpl. unfold mbind, readPlaylist. rewrite Hl.
    unfold Store.findPlaylist. cbn [list_find].
    destruct (decide (PL.id p = pid)) as [Hid|Hid].
    + exists (Some (idx, l, p)). rewrite Nat.sub_diag.
      split_and!; first [done|lia].
    + destruct (IH (S idx)) as (r & Hr & Hspec). exists r.
      split; [exact Hr|].
      destruct r as [[[i l'] p']|].
      * destruct Hspec as (Hle & Hi & Hd & Hf).
        replace (i - idx)%nat with (S (i - S idx)) by lia.
        split_and!; [lia|exact Hi|exact Hd|].
        unfold Store.findPlaylist in Hf. by rewrite Hf.
      * unfold Store.findPlaylist in Hspec. by rewrite Hspec.
Qed.

Lemma find_spec h ps pls pid :
  Forall2 (denotes h) ps pls ->
  exists r, find ps pid h = Some (r, h) /\
    match r with
    | None => Store.findPlaylist pls pid = None
    | Some (i, l, p) =>
        ps !! i = Some l /\ denotes h l p /\
        Store.findPlaylist pls pid = Some (i, p)
    end.
Proof.
  intros H. destruct (findFrom_spec h ps pls pid 0 H) as (r & Hr & Hspec).
  exists r. split; [done|]. destruct r as [[[i l] p]|]; [|done].
  rewrite Nat.sub_0_r in Hspec. tauto.
Qed.

Lemma filterOut_spec h ps pls pid :
  Forall2 (denotes h) ps pls ->
  exists kept, filterOut ps pid h = Some (kept, h) /\
    Forall2 (denotes h) kept (filter (fun p => PL.id p <> pid) pls).
Proof.
  induction 1 as [|l p ps pls Hl _ (kept & Hk & Hden)].
  - exists []. split; [done|]. constructor.
  - simpl. unfold mbind, readPlaylist. rewrite Hl, Hk. unfold mret.
    eexists. split; [done|]. case_decide as Hc.
    + rewrite filter_cons_True by exact Hc. by constructor.
    + rewrite filter_cons_False by (intros Hn; by apply Hn). exact Hden.
Qed.

Lemma snapshot_Some h r s :
  snapshot h r = Some s <->
  exists arr ps,
    h !! r = Some (OState (version s) (selectedPlaylistId s) arr) /\
    h !! arr = Some (OArray ps) /\
    Forall2 (denotes h) ps (playlists s).
Proof.
  unfold snapshot. split.
  - destruct (h !! r) as [[| |v sel arr]|] eqn:Hr; try done.
    destruct (h !! arr) as [[|ps|]|] eqn:Harr; try done.
    destruct (playlistsAt h ps) as [pls|] eqn:Hp; [|done].
    intros [= <-]. exists arr, ps. simpl.
    apply playlistsAt_Some in Hp. done.
  - intros (arr & ps & -> & -> & Hp). apply playlistsAt_Some in Hp.
    rewrite Hp. by destruct s.
Qed.

Lemma snapshot_extend h ext r s :
  snapshot h r = Some s -> snapshot (h ++ ext) r = Some s.
Proof.
  rewrite !snapshot_Some. intros (arr & ps & Hr & Harr & Hp).
  exists arr, ps. split_and!.
  - by apply lookup_app_l_Some.
  - by apply lookup_app_l_Some.
  - by apply Forall2_denotes_extend.
Qed.

Lemma write_last h x o :
  write (length h) o (h ++ [x]) = Some (tt, h ++ [o]).
Proof.
  unfold write. rewrite decide_True by (rewrite length_app; simpl; lia).
  rewrite insert_app_r_alt by lia. by rewrite Nat.sub_diag.
Qed.

(** The reference-level [upsertPlaylist] allocates the copied array and the
    new state after everything that was there, and the new state denotes
    what the value-level [upsertPlaylist] computes. *)
Lemma upsertPlaylist_spec h state playlist s pl :
  snapshot h state = Some s -> denotes h playlist pl ->
  exists arr ps ps',
    h !! state = Some (OState (version s) (selectedPlaylistId s) arr) /\
    h !! arr = Some (OArray ps) /\
    ps' = match Store.findPlaylist (playlists s) (PL.id pl) with
          | Some (i, _) => <[i := playlist]> ps
          | None => playlist :: ps
          end /\
    upsertPlaylist state playlist h =
      Some (S (length h),
            h ++ [OArray ps';
                  OState (version s) (selectedPlaylistId s) (length h)]) /\
    snapshot (h ++ [OArray ps';
                    OState (version s) (selectedPlaylistId s) (length h)])
             (S (length h))
      = Some (Store.upsertPlaylist s pl).
Proof.
  intros Hs Hpl. pose proof Hs as (arr & ps & Hr & Harr & Hp)%snapshot_Some.
  exists arr, ps. eexists. split_and!; [done|done|reflexivity| |].
  - unfold upsertPlaylist, mbind, readState, readArray, readPlaylist.
    rewrite Hr, Harr, Hpl.
    destruct (find_spec h ps (playlists s) (PL.id pl) Hp) as (hit & Hfind & Hhit).
    rewrite Hfind. unfold alloc.
    destruct hit as [[[i l] p]|].
    + destruct Hhit as (_ & _ & ->). rewrite write_last.
      rewrite length_app. simpl. rewrite Nat.add_1_r.
      by rewrite <- app_assoc.
    + rewrite Hhit. rewrite write_last.
      rewrite length_app. simpl. rewrite Nat.add_1_r.
      by rewrite <- app_assoc.
  - apply snapshot_Some. eexists (length h), _. split_and!.
    + simpl. rewrite (lookup_app_r h) by lia.
      by replace (S (length h) - length h)%nat with 1%nat by lia.
    + by rewrite list_lookup_middle.
    + unfold Store.upsertPlaylist. simpl.
      destruct (Store.findPlaylist (playlists s) (PL.id pl)) as [[i old]|].
      * apply Forall2_denotes_extend. apply Forall2_insert; [done|].
        exact Hpl.
      * constructor; [by apply denotes_extend|].
        by apply Forall2_denotes_extend.
Qed.

Lemma snapshot_lt h r s : snapshot h r = Some s -> (r < length h)%nat.
Proof.
  intros (arr & ps & Hr & _)%snapshot_Some. by eapply lookup_lt_Some.
Qed.

Lemma returns_same h r s : snapshot h r = Some s -> returns h (Some (r, h)) r s.
Proof. intros Hs. exists []. by rewrite app_nil_r. Qed.

(** A result that is the reference received denotes the value received. *)
Lemma returns_same_ref h res r s s' :
  snapshot h r = Some s -> returns h res r s' -> s' = s.
Proof.
  intros Hs (ext & _ & Hs'). apply (snapshot_extend _ ext) in Hs. congruence.
Qed.

(** The tail shared by the three item operations: allocate the updated
    playlist, then [upsertPlaylist]. *)
Lemma alloc_upsert_spec h r s updated :
  snapshot h r = Some s ->
  exists r',
    (length h <= r')%nat /\
    returns h
      (mbind (alloc (OPlaylist updated)) (fun l => upsertPlaylist r l) h)
      r' (Store.upsertPlaylist s updated).
Proof.
  intros Hs. unfold mbind at 1. unfold alloc at 1.
  assert (Hs1 : snapshot (h ++ [OPlaylist updated]) r = Some s)
    by by apply snapshot_extend.
  assert (Hd : denotes (h ++ [OPlaylist updated]) (length h) updated)
    by by apply list_lookup_middle.
  destruct (upsertPlaylist_spec _ _ _ _ _ Hs1 Hd)
    as (arr & ps & ps' & _ & _ & _ & Hrun & Hsnap).
  rewrite Hrun. exists (S (length (h ++ [OPlaylist updated]))).
  split; [|eexists; split].
  - rewrite length_app. simpl. lia.
  - by rewrite <- app_assoc.
  - rewrite app_assoc. exact Hsnap.
Qed.

Lemma read_state_array h r s :
  snapshot h r = Some s ->
  exists arr ps,
    readState r h = Some ((version s, selectedPlaylistId s, arr), h) /\
    readArray arr h = Some (ps, h) /\
    Forall2 (denotes h) ps (playlists s).
Proof.
  intros (arr & ps & Hr & Harr & Hp)%snapshot_Some. exists arr, ps.
  unfold readState, readArray. by rewrite Hr, Harr.
Qed.

(** The head shared by the item operations: read the state and its array,
    look the playlist up. *)
Lemma with_playlist_run {A} h r s pid
    (k : option (nat * loc * Playlist) -> M A) :
  snapshot h r = Some s ->
  exists hit,
    (let* (_, _, arr) := readState r in
     let* ps := readArray arr in
     let* hit := find ps pid in k hit) h = k hit h /\
    match hit with
    | None => Store.findPlaylist (playlists s) pid = None
    | Some (i, l, p) =>
        denotes h l p /\ Store.findPlaylist (playlists s) pid = Some (i, p)
    end.
Proof.
  intros Hs. destruct (read_state_array _ _ _ Hs) as (arr & ps & Hr & Ha & Hp).
  destruct (find_spec h ps (playlists s) pid Hp) as (hit & Hfind & Hhit).
  exists hit. split.
  - unfold mbind. by rewrite Hr, Ha, Hfind.
  - destruct hit as [[[i l] p]|]; tauto.
Qed.

(** Each item operation either returns the reference and the heap it was
    given, on the paths of the code that end in [return state], or returns
    a reference to an object it has just allocated. *)
Lemma addVideoToPlaylist_spec h r s pid item :
  snapshot h r = Some s ->
  exists r',
    returns h (addVideoToPlaylist r pid item h) r'
      (Store.addVideoToPlaylist s pid item) /\
    let unchanged :=
      match Store.findPlaylist (playlists s) pid with
      | None => True
      | Some (_, pl) =>
          Store.exists_key (PL.items pl) (Store.videoKey item) = true
      end in
    (unchanged /\ r' = r /\ addVideoToPlaylist r pid item h = Some (r, h)) \/
    (~ unchanged /\ (length h <= r')%nat).
Proof.
  intros Hs. unfold addVideoToPlaylist, Store.addVideoToPlaylist.
  destruct (with_playlist_run h r s pid
    (fun hit => match hit with
       | None => mret r
       | Some (_, _, pl) =>
           if Store.exists_key (PL.items pl) (Store.videoKey item) then mret r
           else
             let* updated :=
               alloc (OPlaylist (PL.with_items pl (item :: PL.items pl))) in
             upsertPlaylist r updated
       end) Hs) as (hit & -> & Hhit).
  destruct hit as [[[i l] pl]|].
  - destruct Hhit as (_ & ->).
    destruct (Store.exists_key _ _) eqn:Hex.
    + exists r. split; [by apply returns_same|]. by left.
    + destruct (alloc_upsert_spec h r s
                  (PL.with_items pl (item :: PL.items pl)) Hs)
        as (r' & Hge & Hret).
      exists r'. split; [exact Hret|]. right. done.
  - rewrite Hhit. exists r. split; [by apply returns_same|]. by left.
Qed.

Lemma removeVideoFromPlaylist_spec h r s pid vid :
  snapshot h r = Some s ->
  exists r',
    returns h (removeVideoFromPlaylist r pid vid h) r'
      (Store.removeVideoFromPlaylist s pid vid) /\
    let unchanged := Store.findPlaylist (playlists s) pid = None in
    (unchanged /\ r' = r /\ removeVideoFromPlaylist r pid vid h = Some (r, h)) \/
    (~ unchanged /\ (length h <= r')%nat).
Proof.
  intros Hs. unfold removeVideoFromPlaylist, Store.removeVideoFromPlaylist.
  destruct (with_playlist_run h r s pid
    (fun hit => match hit with
       | None => mret r
       | Some (_, _, pl) =>
           let* updated :=
             alloc (OPlaylist (PL.with_items pl
                      (filter (fun v => Item.id v <> vid) (PL.items pl)))) in
           upsertPlaylist r updated
       end) Hs) as (hit & -> & Hhit).
  destruct hit as [[[i l] pl]|].
  - destruct Hhit as (_ & ->).
    destruct (alloc_upsert_spec h r s
                (PL.with_items pl
                   (filter (fun v => Item.id v <> vid) (PL.items pl))) Hs)
      as (r' & Hge & Hret).
    exists r'. split; [exact Hret|]. right. done.
  - rewrite Hhit. exists r. split; [by apply returns_same|]. by left.
Qed.

Lemma updateVideoInPlaylist_spec h r s pid vid patch :
  snapshot h r = Some s ->
  exists r',
    returns h (updateVideoInPlaylist r pid vid patch h) r'
      (Store.updateVideoInPlaylist s pid vid patch) /\
    let unchanged := Store.findPlaylist (playlists s) pid = None in
    (unchanged /\ r' = r /\
     updateVideoInPlaylist r pid vid patch h = Some (r, h)) \/
    (~ unchanged /\ (length h <= r')%nat).
Proof.
  intros Hs. unfold updateVideoInPlaylist, Store.updateVideoInPlaylist.
  cbv zeta.
  destruct (with_playlist_run h r s pid
    (fun hit => match hit with
       | None => mret r
       | Some (_, _, pl) =>
           let* updated :=
             alloc (OPlaylist (PL.with_items pl
                      (map (fun v => if decide (Item.id v = vid)
                                     then Item.spread v patch else v)
                         (PL.items pl)))) in
           upsertPlaylist r updated
       end) Hs) as (hit & -> & Hhit).
  destruct hit as [[[i l] pl]|].
  - destruct Hhit as (_ & ->).
    destruct (alloc_upsert_spec h r s
                (PL.with_items pl
                   (map (fun v => if decide (Item.id v = vid)
                                  then Item.spread v patch else v)
                      (PL.items pl))) Hs)
      as (r' & Hge & Hret).
    exists r'. split; [exact Hret|]. right. done.
  - rewrite Hhit. exists r. split; [by apply returns_same|]. by left.
Qed.

Lemma returns_trans h res1 r1 s1 r2 s2 (k : loc -> M loc) :
  returns h res1 r1 s1 ->
  (forall h1, res1 = Some (r1, h1) -> returns h1 (k r1 h1) r2 s2) ->
  returns h (match res1 with Some (a, h') => k a h' | None => None end) r2 s2.
Proof.
  intros (ext1 & -> & Hs1) Hk.
  destruct (Hk _ eq_refl) as (ext2 & -> & Hs2).
  exists (ext1 ++ ext2). by rewrite app_assoc.
Qed.

Lemma moveVideo_run h r s a b vid :
  snapshot h r = Some s -> a <> b ->
  moveVideo r a b vid h =
    match Store.findPlaylist (playlists s) a,
          Store.findPlaylist (playlists s) b with
    | Some (_, from), Some _ =>
        match Store.findItem (PL.items from) vid with
        | None => Some (r, h)
        | Some item =>
            mbind (removeVideoFromPlaylist r a vid)
                  (fun next => addVideoToPlaylist next b item) h
        end
    | _, _ => Some (r, h)
    end.
Proof.
  intros Hs Hab. unfold moveVideo. rewrite decide_False by done.
  destruct (read_state_array _ _ _ Hs) as (arr & ps & Hr & Ha & Hp).
  destruct (find_spec h ps (playlists s) a Hp) as (hita & Hfa & Hhita).
  destruct (find_spec h ps (playlists s) b Hp) as (hitb & Hfb & Hhitb).
  unfold mbind at 1 2 3 4. rewrite Hr, Ha, Hfa, Hfb.
  destruct hita as [[[ia la] from]|]; [|by rewrite Hhita].
  destruct Hhita as (_ & _ & ->).
  destruct hitb as [[[ib lb] to]|]; [|by rewrite Hhitb].
  destruct Hhitb as (_ & _ & ->).
  by destruct (Store.findItem (PL.items from) vid).
Qed.

Lemma moveVideo_spec h r s a b vid :
  snapshot h r = Some s ->
  exists r',
    returns h (moveVideo r a b vid h) r' (Store.moveVideo s a b vid) /\
    let unchanged :=
      a = b \/
      match Store.findPlaylist (playlists s) a,
            Store.findPlaylist (playlists s) b with
      | Some (_, from), Some _ =>
          Store.findItem (PL.items from) vid = None
      | _, _ => True
      end in
    (unchanged /\ r' = r /\ moveVideo r a b vid h = Some (r, h)) \/
    (~ unchanged /\ (length h <= r')%nat).
Proof.
  intros Hs. cbv zeta. destruct (decide (a = b)) as [Hab|Hab].
  { unfold moveVideo, Store.moveVideo. rewrite !decide_True by done.
    exists r. split; [by apply returns_same|]. left. by split_and!; [left|..]. }
  rewrite (moveVideo_run _ _ _ _ _ _ Hs Hab). unfold Store.moveVideo.
  rewrite decide_False by done.
  destruct (Store.findPlaylist (playlists s) a) as [[ia from]|] eqn:Hfa; cycle 1.
  { exists r. split; [by apply returns_same|]. left. by split_and!; [right|..]. }
  destruct (Store.findPlaylist (playlists s) b) as [[ib to]|] eqn:Hfb; cycle 1.
  { exists r. split; [by apply returns_same|]. left. by split_and!; [right|..]. }
  destruct (Store.findItem (PL.items from) vid) as [item|] eqn:Hitem; cycle 1.
  { exists r. split; [by apply returns_same|]. left. by split_and!; [right|..]. }
  destruct (removeVideoFromPlaylist_spec h r s a vid Hs) as (r1 & Hret1 & Hcase1).
  pose proof Hret1 as (ext1 & Hrun1 & Hs1).
  destruct (addVideoToPlaylist_spec (h ++ ext1) r1 _ b item Hs1)
    as (r2 & Hret2 & Hcase2).
  exists r2. split.
  - unfold mbind. apply returns_trans with (r1 := r1)
      (s1 := Store.removeVideoFromPlaylist s a vid); [done|].
    intros h1 Hh1. rewrite Hrun1 in Hh1. by simplify_eq.
  - right. split; [intros [?|?]; done|].
    assert (length h <= r1)%nat.
    { destruct Hcase1 as [(Hn & _)|(_ & ?)]; [|done].
      cbv zeta in Hn. congruence. }
    destruct Hcase2 as [(_ & -> & _)|(_ & Hge)]; [done|].
    rewrite length_app in Hge. lia.
Qed.

Lemma lookup_ext (h ext : heap) (k : nat) :
  (h ++ ext) !! (length h + k)%nat = ext !! k.
Proof. rewrite lookup_app_r by lia. f_equal. lia. Qed.

(** [deletePlaylist] always returns a reference to a state it has just
    allocated; that state denotes what the value-level function computes. *)
Lemma deletePlaylist_spec entropy now h r s pid n :
  snapshot h r = Some s ->
  exists r',
    returns h
      ((fun x => (fst (fst x), snd x)) <$> deletePlaylist entropy now r pid n h)
      r' (fst (Store.deletePlaylist entropy now s pid n)) /\
    (length h <= r')%nat.
Proof.
  intros Hs. destruct (read_state_array _ _ _ Hs) as (arr & ps & Hr & Ha & Hp).
  destruct (filterOut_spec h ps (playlists s) pid Hp) as (kept & Hk & Hkept).
  unfold deletePlaylist, Store.deletePlaylist, mbind at 1 2 3 4.
  rewrite Hr, Ha, Hk. unfold alloc at 1.
  destruct kept as [|first rest].
  - apply Forall2_nil_inv_l in Hkept. rewrite Hkept.
    unfold defaultState, Store.defaultState, bind, newId, ret, mbind, alloc, mret.
    simpl. change ("pl" +:+ "_" +:+ entropy n) with ("pl_" +:+ entropy n).
    exists (length h + 3)%nat. split; [|lia].
    exists [OArray [];
            OPlaylist {| PL.id := "pl_" +:+ entropy n;
                         PL.name := Store.default_name;
                         PL.createdAt := now; PL.items := [] |};
            OArray [(length h + 1)%nat];
            OState 1 ("pl_" +:+ entropy n) (length h + 2)%nat].
    split.
    + rewrite !length_app. simpl. rewrite <- !app_assoc. simpl.
      replace (length h + 1 + 1 + 1)%nat with (length h + 3)%nat by lia.
      replace (length h + 1 + 1)%nat with (length h + 2)%nat by lia.
      reflexivity.
    + apply snapshot_Some. exists (length h + 2)%nat, [(length h + 1)%nat].
      simpl. rewrite !lookup_ext. split_and!; [done|done|].
      constructor; [|constructor]. unfold denotes. by rewrite lookup_ext.
  - destruct (filter _ (playlists s)) as [|p pls'] eqn:Hflt;
      [by apply Forall2_cons_nil_inv in Hkept|].
    apply Forall2_cons_1 in Hkept as [Hfirst Hrest].
    unfold mbind, readPlaylist, alloc, mret.
    rewrite (denotes_extend h [OArray (first :: rest)] _ _ Hfirst). simpl.
    exists (length h + 1)%nat. split; [|lia].
    eexists [OArray (first :: rest); OState _ _ (length h)].
    split.
    + rewrite !length_app. simpl. rewrite <- !app_assoc. simpl.
      do 3 f_equal.
    + apply snapshot_Some. exists (length h), (first :: rest).
      unfold ret. simpl. split_and!.
      * by rewrite lookup_ext.
      * by apply list_lookup_middle.
      * apply Forall2_denotes_extend. by constructor.
Qed.

Lemma upsertPlaylist_returns h r s playlist pl :
  snapshot h r = Some s -> denotes h playlist pl ->
  exists r',
    returns h (upsertPlaylist r playlist h) r' (Store.upsertPlaylist s pl) /\
    (length h <= r')%nat.
Proof.
  intros Hs Hpl.
  destruct (upsertPlaylist_spec _ _ _ _ _ Hs Hpl)
    as (arr & ps & ps' & _ & _ & _ & Hrun & Hsnap).
  exists (S (length h)). split; [|lia]. eexists. split; [exact Hrun|exact Hsnap].
Qed.






(** [Sample.plain_heap] is [Sample.plain] stored in the empty heap. *)
Example store_plain : store Sample.plain [] = Some (3%nat, Sample.plain_heap).
Proof. reflexivity. Qed.

End RefFacts.

(** ** Strings *)

Module JsStringFacts.
Import JsString.

Lemma list_ascii_of_string_app a b :
  list_ascii_of_string (a +:+ b) = list_ascii_of_string a ++ list_ascii_of_string b.
Proof. induction a as [|c a IH]; [done|]. simpl. by rewrite IH. Qed.

Lemma list_ascii_of_string_inj a b :
  list_ascii_of_string a = list_ascii_of_string b -> a = b.
Proof.
  intros H. rewrite <- (string_of_list_ascii_of_string a).
  rewrite <- (string_of_list_ascii_of_string b). by rewrite H.
Qed.

Lemma string_app_inv_tail a b t : a +:+ t = b +:+ t -> a = b.
Proof.
  intros H. apply list_ascii_of_string_inj.
  apply (f_equal list_ascii_of_string) in H.
  rewrite !list_ascii_of_string_app in H. by apply app_inv_tail in H.
Qed.

Lemma to_uint_nonnil n : Nat.to_uint n <> Decimal.Nil.
Proof.
  rewrite <- (DecimalNat.Unsigned.of_to n) at 1.
  rewrite DecimalNat.Unsigned.to_of. apply DecimalFacts.unorm_nonnil.
Qed.

Lemma of_nat_inj n m : of_nat n = of_nat m -> n = m.
Proof.
  unfold of_nat. intros H. apply DecimalNat.Unsigned.to_uint_inj.
  pose proof (NilZero.usu _ (to_uint_nonnil n)) as Hn.
  pose proof (NilZero.usu _ (to_uint_nonnil m)) as Hm.
  rewrite H in Hn. congruence.
Qed.

Lemma strip_all_None fuel tbl s :
  strip_any tbl s = None -> strip_all fuel tbl s = s.
Proof. intros H. destruct fuel; [done|]. simpl. by rewrite H. Qed.

(** A string that neither starts nor ends with white space is its own
    trim. *)
Lemma trim_stable s :
  strip_any white_space (list_ascii_of_string s) = None ->
  strip_any (map (@rev ascii) white_space) (rev (list_ascii_of_string s))
    = None ->
  trim s = s.
Proof.
  intros Hstart Hend. unfold trim, trimStartL, trimEndL.
  rewrite (strip_all_None _ _ _ Hstart), (strip_all_None _ _ _ Hend).
  by rewrite rev_involutive, string_of_list_ascii_of_string.
Qed.

Lemma all_chars_Forall (P : ascii -> bool) s :
  Share.all_chars P s = true ->
  Forall (fun c => P c = true) (list_ascii_of_string s).
Proof.
  induction s as [|c s IH]; simpl; [by constructor|].
  intros [Hc Hs]%andb_prop. constructor; auto.
Qed.

Lemma rev_head {A} (P : A -> Prop) (l : list A) :
  Forall P l -> l <> [] -> exists c rest, rev l = c :: rest /\ P c.
Proof.
  intros Hall Hne. destruct (rev l) as [|c rest] eqn:Hrev.
  - apply (f_equal (@rev A)) in Hrev. rewrite rev_involutive in Hrev. done.
  - exists c, rest. split; [done|].
    rewrite Forall_forall in Hall. apply Hall.
    apply list_elem_of_In, in_rev. rewrite Hrev. by left.
Qed.

(** *** [trim] is idempotent *)

Lemma strip_prefix_Some p s r : strip_prefix p s = Some r <-> s = p ++ r.
Proof.
  revert s. induction p as [|a p IH]; intros s; simpl.
  - split; congruence.
  - destruct s as [|b s]; [split; discriminate|]. case_decide as Hab.
    + subst b. rewrite IH. split; congruence.
    + split; [discriminate|]. intros [= -> _]. done.
Qed.

Lemma strip_any_Some tbl s r :
  strip_any tbl s = Some r -> exists p, p ∈ tbl /\ s = p ++ r.
Proof.
  induction tbl as [|p tbl IH]; [done|]. simpl.
  destruct (strip_prefix p s) as [r'|] eqn:Hp.
  - intros [= ->]. apply strip_prefix_Some in Hp. exists p. split; [left|done].
  - intros (q & Hq & ->)%IH. exists q. split; [by right|done].
Qed.

Lemma strip_any_None tbl s p r :
  strip_any tbl s = None -> p ∈ tbl -> s <> p ++ r.
Proof.
  induction tbl as [|q tbl IH]; [by intros _ ?%elem_of_nil|]. simpl.
  destruct (strip_prefix q s) as [r'|] eqn:Hq; [done|].
  intros Hnone [->|Hin]%elem_of_cons; [|by apply IH].
  intros Hs. apply strip_prefix_Some in Hs. congruence.
Qed.

Lemma strip_all_clean tbl fuel s :
  Forall (fun p => p <> []) tbl -> (length s <= fuel)%nat ->
  strip_any tbl (strip_all fuel tbl s) = None.
Proof.
  intros Htbl. revert s. induction fuel as [|fuel IH]; intros s Hlen.
  - destruct s; [|simpl in Hlen; lia]. simpl.
    induction Htbl as [|p tbl Hp _ IHt]; [done|]. simpl.
    by destruct p.
  - simpl. destruct (strip_any tbl s) as [r|] eqn:Hs; [|done].
    apply IH. apply strip_any_Some in Hs as (p & Hp & ->).
    rewrite Forall_forall in Htbl. specialize (Htbl p Hp).
    rewrite length_app in Hlen. destruct p; [done|]. simpl in Hlen. lia.
Qed.

Lemma strip_all_suffix tbl fuel s :
  exists pre, s = pre ++ strip_all fuel tbl s.
Proof.
  revert s. induction fuel as [|fuel IH]; intros s; [by exists []|].
  simpl. destruct (strip_any tbl s) as [r|] eqn:Hs; [|by exists []].
  apply strip_any_Some in Hs as (p & _ & ->).
  destruct (IH r) as (pre & Hr). exists (p ++ pre).
  rewrite <- app_assoc. by rewrite <- Hr.
Qed.

Lemma white_space_nonempty :
  Forall (fun p => p <> []) white_space /\
  Forall (fun p => p <> []) (map (@rev ascii) white_space).
Proof. split; repeat (constructor; [discriminate|]); constructor. Qed.

Lemma trim_idempotent s : trim (trim s) = trim s.
Proof.
  unfold trim. rewrite list_ascii_of_string_of_list_ascii. f_equal.
  set (l := list_ascii_of_string s).
  set (t := trimStartL l).
  assert (Ht : strip_any white_space t = None).
  { apply strip_all_clean; [apply white_space_nonempty|done]. }
  unfold trimEndL at 2.
  set (v := strip_all (length t) (map (@rev ascii) white_space) (rev t)).
  assert (Hv : strip_any (map (@rev ascii) white_space) v = None).
  { apply strip_all_clean; [apply white_space_nonempty|].
    by rewrite length_rev. }
  destruct (strip_all_suffix (map (@rev ascii) white_space) (length t) (rev t))
    as (pre & Hpre). fold v in Hpre.
  assert (Htv : t = rev v ++ rev pre).
  { rewrite <- rev_app_distr, <- Hpre. by rewrite rev_involutive. }
  assert (Hstart : strip_any white_space (rev v) = None).
  { destruct (strip_any white_space (rev v)) as [r|] eqn:Hr; [|done].
    apply strip_any_Some in Hr as (p & Hp & Hrv). exfalso.
    apply (strip_any_None _ _ p (r ++ rev pre) Ht Hp).
    rewrite Htv, Hrv. by rewrite <- app_assoc. }
  unfold trimStartL. rewrite (strip_all_None _ _ _ Hstart).
  unfold trimEndL. rewrite rev_involutive.
  by rewrite (strip_all_None _ _ _ Hv).
Qed.

End JsStringFacts.

(** ** The merge policy *)

Module MergeFacts.
Import Merge.

Section MergeFacts.

Variable toLowerCase : string -> string.

Lemma numbered_inj k i j : numbered k i = numbered k j -> i = j.
Proof.
  unfold numbered. intros H. apply (inj (String.app k)) in H.
  apply (inj (String.app " (")) in H.
  apply JsStringFacts.string_app_inv_tail in H.
  by apply JsStringFacts.of_nat_inj.
Qed.

Lemma nextFree_None fuel names k i0 :
  nextFree fuel names k i0 = None ->
  forall j, (i0 <= j < i0 + fuel)%nat -> numbered k j ∈ names.
Proof.
  revert i0. induction fuel as [|fuel IH]; intros i0 H j Hj; [lia|].
  simpl in H. case_decide as Hin; [|done].
  destruct (decide (j = i0)) as [->|]; [done|].
  apply (IH (S i0)); [done|lia].
Qed.

Lemma nextFree_Some fuel names k i0 i :
  nextFree fuel names k i0 = Some i ->
  (i0 <= i)%nat /\ (numbered k i ∉ names) /\
  forall j, (i0 <= j < i)%nat -> numbered k j ∈ names.
Proof.
  revert i0. induction fuel as [|fuel IH]; intros i0 H; [done|].
  simpl in H. case_decide as Hin.
  - apply IH in H as (Hle & Hout & Hbelow). split_and!; [lia|done|].
    intros j Hj. destruct (decide (j = i0)) as [->|]; [done|].
    apply Hbelow. lia.
  - simplify_eq. split_and!; [lia|done|]. intros j Hj. lia.
Qed.

(** The loop ends: a set cannot hold more numbered names than it has
    elements. *)
Lemma nextFree_total names k i0 :
  is_Some (nextFree (S (size names)) names k i0).
Proof.
  destruct (nextFree _ names k i0) as [i|] eqn:H; [by eexists|].
  exfalso. pose proof (nextFree_None _ _ _ _ H) as Hall.
  set (cands := numbered k <$> seq i0 (S (size names))).
  assert (Hnd : NoDup cands).
  { apply NoDup_fmap_2; [|apply NoDup_seq]. intros i j. apply numbered_inj. }
  assert (Hsub : (list_to_set cands : gset string) ⊆ names).
  { intros x Hx. apply elem_of_list_to_set in Hx.
    apply list_elem_of_fmap in Hx as (j & -> & Hj).
    apply elem_of_seq in Hj. apply Hall. lia. }
  apply subseteq_size in Hsub. rewrite size_list_to_set in Hsub by done.
  unfold cands in Hsub. rewrite length_fmap, length_seq in Hsub. lia.
Qed.

(** One imported playlist: the loop ends, the playlist keeps everything but
    its name, and the name is the base name, or the base name with the first
    counter from 2 whose numbered key is not in the set. *)
Lemma renameOne_spec names p :
  exists name,
    renameOne toLowerCase names p =
      Some (PL.with_name p name, {[ nameKey toLowerCase name ]} ∪ names) /\
    let base := baseName p in
    let k := nameKey toLowerCase base in
    (k ∉ names -> name = base) /\
    (k ∈ names ->
       exists i, (2 <= i)%nat /\ name = numbered base i /\
         (numbered k i ∉ names) /\
         forall j, (2 <= j < i)%nat -> numbered k j ∈ names).
Proof.
  unfold renameOne. cbv zeta. case_decide as Hin.
  - destruct (nextFree_total names (nameKey toLowerCase (baseName p)) 2)
      as [i Hi].
    rewrite Hi. apply nextFree_Some in Hi as (Hle & Hout & Hbelow).
    eexists. split; [done|]. split; [done|]. intros _. by exists i.
  - eexists. split; [done|]. split; [done|]. done.
Qed.

Lemma renameAll_spec names ps :
  exists merged,
    renameAll toLowerCase names ps = Some merged /\
    Forall2 (fun p p' => p' = PL.with_name p (PL.name p')) ps merged.
Proof.
  revert names. induction ps as [|p ps IH]; intros names.
  - exists []. split; [done|constructor].
  - simpl. destruct (renameOne_spec names p) as (name & -> & _).
    destruct (IH ({[nameKey toLowerCase name]} ∪ names)) as (rest & -> & Hall).
    eexists. split; [done|]. by constructor.
Qed.

(** The playlist at position [j] of the import is renamed against the
    names of the collection and the names given to the imports before it. *)
Lemma renameAll_running names ps merged j p :
  renameAll toLowerCase names ps = Some merged ->
  ps !! j = Some p ->
  exists p' names',
    merged !! j = Some p' /\
    renameOne toLowerCase
      (list_to_set (nameKey toLowerCase ∘ PL.name <$> take j merged)
         ∪ names) p
      = Some (p', names').
Proof.
  revert names merged j. induction ps as [|q ps IH]; intros names merged j;
    [by rewrite lookup_nil|].
  simpl. destruct (renameOne_spec names q) as (name & Hq & _). rewrite Hq.
  destruct (renameAll toLowerCase _ ps) as [rest|] eqn:Hrest; [|done].
  intros [= <-] Hj. destruct j as [|j]; simpl in *.
  - simplify_eq.
    rewrite (left_id_L ∅ (∪)). eauto.
  - destruct (IH _ _ _ Hrest Hj) as (p' & names' & Hp' & Hone).
    exists p', names'. split; [done|]. rewrite <- Hone. f_equal.
    cbn [take fmap list_fmap list_to_set foldr].
    rewrite (comm_L (∪) {[ _ ]}), <- (assoc_L (∪)). done.
Qed.

Lemma applyMerge_spec state imported :
  playlists state <> [] ->
  exists merged sel,
    renameAll toLowerCase (namesOf toLowerCase (playlists state))
      (playlists imported) = Some merged /\
    applyMerge toLowerCase state imported =
      Some {| version := 1; selectedPlaylistId := sel;
              playlists := playlists state ++ merged |}.
Proof.
  intros Hne. unfold applyMerge.
  destruct (renameAll_spec (namesOf toLowerCase (playlists state))
              (playlists imported)) as (merged & -> & _).
  unfold withDefaultSelection, Store.pickDefaultPlaylistId. simpl.
  destruct (existsb _ _); [by eauto|].
  destruct (playlists state) as [|first rest]; [done|]. simpl. eauto.
Qed.

(** When the key of a numbered name is the numbered key, which is so for
    a base name that does not end with white space, the name given to an
    imported playlist is not a name of the running set. *)
Lemma renameOne_fresh names p p' names' :
  (forall i, nameKey toLowerCase (numbered (baseName p) i) =
             numbered (nameKey toLowerCase (baseName p)) i) ->
  renameOne toLowerCase names p = Some (p', names') ->
  (nameKey toLowerCase (PL.name p') ∉ names) /\
  names' = {[ nameKey toLowerCase (PL.name p') ]} ∪ names.
Proof.
  intros Hkey Hone.
  destruct (renameOne_spec names p) as (name & Hname & Hfree & Hcoll).
  rewrite Hname in Hone. injection Hone as <- <-. simpl. split; [|done].
  destruct (decide (nameKey toLowerCase (baseName p) ∈ names)) as [Hin|Hout].
  - destruct (Hcoll Hin) as (i & _ & -> & Hi & _). by rewrite Hkey.
  - by rewrite (Hfree Hout).
Qed.

End MergeFacts.

(** Importing "Music", "music" and "Jazz" into a collection that has
    "Music": the first collision gets the counter 2, the second the
    counter 3, and the name without collision is kept. *)
Example merge_music :
  (fun s => PL.name <$> playlists s) <$>
    applyMerge JsString.toLowerCaseAscii Sample.music Sample.music_twice
  = Some ["Music"; "Music (2)"; "music (3)"; "Jazz"].
Proof. vm_compute. reflexivity. Qed.

(** Replacing the collection by the import, and by an import without
    playlists. *)
Example replace_music :
  (fun s => (selectedPlaylistId s, PL.name <$> playlists s)) <$>
    applyReplace Sample.music Sample.music_twice
  = Some ("q1", ["Music"; "music"; "Jazz"]) /\
  (fun s => (selectedPlaylistId s, PL.name <$> playlists s)) <$>
    applyReplace Sample.music (Sample.state [] "none")
  = Some ("p1", ["Music"]).
Proof. split; reflexivity. Qed.

(** C7, at the failing input. The collection has "Music" and the import
    has two playlists named "Music " with a trailing space. The loop tests
    the key "music (2)", built from the trimmed name, while the name it
    assigns, "Music  (2)" with two spaces, has the key "music  (2)", which
    is the one it records. The second import therefore finds "music (2)"
    free again, and both imports get the name "Music  (2)". *)
Theorem C7_spaced_names_get_the_same_name :
  (fun s => PL.name <$> playlists s) <$>
    applyMerge JsString.toLowerCaseAscii Sample.music Sample.music_spaced
  = Some ["Music"; "Music  (2)"; "Music  (2)"].
Proof. vm_compute. reflexivity. Qed.

End MergeFacts.

(** ** JavaScript values *)

Module JsFacts.
Import Js.

Lemma prune_Arr l : prune (Arr l) = Arr (prune_elems prune l).
Proof. done. Qed.

Lemma prune_Str s : prune (Str s) = Str s.
Proof. done. Qed.

Lemma prune_Num n : prune (Num n) = Num n.
Proof. done. Qed.

Lemma or_Arr l b : or (Arr l) b = Arr l.
Proof. done. Qed.

Lemma or_Str s d :
  or (Str s) (Str d) = Str (if JsString.truthy s then s else d).
Proof. unfold or. simpl. by destruct (JsString.truthy s). Qed.

Lemma prune_of_opt o : prune (of_opt o) = of_opt o.
Proof. by destruct o. Qed.

Lemma prune_elems_strs l : prune_elems prune (Str <$> l) = Str <$> l.
Proof. induction l as [|s l IH]; [done|]. simpl. f_equal. exact IH. Qed.

Lemma lookup_field_absent k (fs : list (string * value)) :
  k ∉ fs.*1 -> lookup_field k fs = Undefined.
Proof.
  induction fs as [|[k' x] fs IH]; [done|]. simpl. intros Hk.
  apply not_elem_of_cons in Hk as [Hne Hk]. rewrite decide_False by done.
  by apply IH.
Qed.

Lemma prune_fields_keys k (fs : list (string * value)) :
  k ∈ (prune_fields prune fs).*1 -> k ∈ fs.*1.
Proof.
  induction fs as [|[k' x] fs IH]; [done|]. simpl.
  destruct (prune x); simpl; rewrite ?elem_of_cons; tauto.
Qed.

(** Reading a property of a printed and parsed object gives the printed
    and parsed property, when the keys of the object are distinct. *)
Lemma lookup_prune_fields k (fs : list (string * value)) :
  NoDup fs.*1 ->
  lookup_field k (prune_fields prune fs) = prune (lookup_field k fs).
Proof.
  induction fs as [|[k' x] fs IH]; [done|]. simpl.
  intros [Hk' Hnd]%NoDup_cons. specialize (IH Hnd).
  destruct (decide (k' = k)) as [->|Hne].
  - destruct (prune x) eqn:Hx; simpl; rewrite ?decide_True by done; try done.
    apply lookup_field_absent. intros Hin. by apply prune_fields_keys in Hin.
  - destruct (prune x) eqn:Hx; simpl; rewrite ?decide_False by done; done.
Qed.

Lemma get_prune_Obj k fs :
  NoDup fs.*1 -> get k (prune (Obj fs)) = Some (prune (lookup_field k fs)).
Proof. intros Hnd. simpl. by rewrite lookup_prune_fields. Qed.

Lemma prune_elems_objects {A} (f : A -> value) (l : list A) :
  (forall x, exists fs, f x = Obj fs) ->
  prune_elems prune (f <$> l) = (fun x => prune (f x)) <$> l.
Proof.
  intros Hf. induction l as [|x l IH]; [done|]. simpl.
  destruct (Hf x) as [fs Hx]. rewrite Hx. simpl. f_equal. exact IH.
Qed.

End JsFacts.

(** ** The share codec *)

Module ShareFacts.
Import Share.

Section Decoder.

Variable atob : string -> option (list Byte.byte).
Variable inflateRaw : list Byte.byte -> option (list Byte.byte).
Variable fromUtf8Bytes : list Byte.byte -> string.
Variable JSON_parse : string -> option Js.value.
Variable entropy : nat -> string.
Variable now : Z.

#[local] Abbreviation decodeItem := (decodeItem entropy now).
#[local] Abbreviation decodePlaylist := (decodePlaylist entropy now).
#[local] Abbreviation decodePayload := (decodePayload entropy now).
#[local] Abbreviation decodeShareToState :=
  (decodeShareToState atob inflateRaw fromUtf8Bytes JSON_parse entropy now).

(** *** When the decoder throws *)

Lemma decodeItem_readable it n :
  item_readable it = true -> exists d, decodeItem it n = inr (d, S n).
Proof.
  intros Hr. unfold Share.decodeItem, dbind, lift, newId, try_opt.
  destruct it; try discriminate Hr; simpl; eauto.
Qed.

Lemma decodeItem_unreadable it n :
  item_readable it = false -> decodeItem it n = inl TypeError.
Proof. by destruct it. Qed.

Lemma mapD_decodeItem elems n :
  if forallb item_readable elems
  then exists ds n', mapD decodeItem elems n = inr (ds, n')
  else mapD decodeItem elems n = inl TypeError.
Proof.
  revert n. induction elems as [|it elems IH]; intros n; simpl.
  - by eexists _, _.
  - unfold dbind. destruct (item_readable it) eqn:Hit; simpl.
    + destruct (decodeItem_readable it n Hit) as (d & ->).
      specialize (IH (S n)).
      destruct (forallb item_readable elems).
      * destruct IH as (ds & n' & ->). by eexists _, _.
      * by rewrite IH.
    + by rewrite decodeItem_unreadable.
Qed.

Lemma decodePlaylist_spec pl n :
  if playlist_readable pl
  then exists d n', decodePlaylist pl n = inr (d, n')
  else decodePlaylist pl n = inl TypeError.
Proof.
  unfold playlist_readable, Share.decodePlaylist, dbind, lift, newId, try_opt,
    dret, throw.
  destruct (Js.get "i" pl) as [i|] eqn:Hi; [|done].
  assert (Hget : forall k, exists v, Js.get k pl = Some v).
  { intros k. destruct pl; try discriminate Hi; simpl; eauto. }
  destruct (Hget "n") as (vn & Hn). destruct (Hget "c") as (vc & Hc).
  rewrite Hn, Hc.
  destruct (Js.or i (Js.Arr [])) as [| |b|z|str|elems|fs]; try done.
  pose proof (mapD_decodeItem elems (S n)) as Hmap.
  destruct (forallb item_readable elems).
  - destruct Hmap as (ds & n' & ->). by eexists _, _.
  - by rewrite Hmap.
Qed.

Lemma mapD_decodePlaylist ps n :
  if forallb playlist_readable ps
  then exists ds n', mapD decodePlaylist ps n = inr (ds, n')
  else mapD decodePlaylist ps n = inl TypeError.
Proof.
  revert n. induction ps as [|pl ps IH]; intros n; simpl.
  - by eexists _, _.
  - unfold dbind. pose proof (decodePlaylist_spec pl n) as Hpl.
    destruct (playlist_readable pl); simpl.
    + destruct Hpl as (d & n1 & ->). specialize (IH n1).
      destruct (forallb playlist_readable ps).
      * destruct IH as (ds & n' & ->). by eexists _, _.
      * by rewrite IH.
    + by rewrite Hpl.
Qed.

(** From the parsed payload on, the decoder returns exactly on the accepted
    payloads; it throws "invalid" on a wrong head and a TypeError on an
    unreadable playlist or item. *)
Lemma decodePayload_spec payload n :
  if payload_accepted payload
  then exists d n', decodePayload payload n = inr (d, n')
  else exists e, decodePayload payload n = inl e /\
                 (e = Invalid \/ e = TypeError).
Proof.
  unfold payload_accepted, Share.decodePayload, dbind, throw.
  destruct (Js.truthy payload); simpl; [|by eauto].
  destruct (Js.get "v" payload) as [[| |b|v|str|l|fs]|]; try by eauto.
  destruct (decide (v = 1%Z)) as [->|Hv]; cycle 1.
  { assert (forall A (x y : A),
      match v with 1%Z => x | _ => y end = y) as Hm.
    { intros A x y. destruct v as [|[]|]; congruence. }
    rewrite !Hm. by destruct (Js.get "p" payload); eauto. }
  destruct (Js.get "p" payload) as [[| |b|z|str|ps|fs]|]; try by eauto.
  pose proof (mapD_decodePlaylist ps n) as Hmap.
  destruct (forallb playlist_readable ps).
  - destruct Hmap as (ds & n' & ->). unfold lift, newId, dret.
    destruct ds as [|first rest]; [by eexists _, _|].
    destruct (JsString.truthy _); by eexists _, _.
  - rewrite Hmap. eauto.
Qed.

(** The import dialog offers nothing when the decoder throws or returns no
    playlist, and a click then leaves the state as it is. *)
Lemma previewImport_None encoded n :
  previewImport atob inflateRaw fromUtf8Bytes JSON_parse entropy now encoded n
    = None <->
  (exists e, decodeShareToState encoded n = inl e) \/
  (exists d n', decodeShareToState encoded n = inr (d, n') /\
                d_playlists d = []).
Proof.
  unfold previewImport.
  destruct (decodeShareToState encoded n) as [e|[d n']].
  - split; [by eauto|done].
  - destruct (d_playlists d) eqn:Hd.
    + split; [|done]. intros _. right. by eexists _, _.
    + split; [done|]. intros [[e He]|(d' & n'' & Heq & Hnil)]; [done|].
      simplify_eq. congruence.
Qed.

(** C5, as amended. [decodeShareToState] returns exactly when the trimmed
    token matches [v1.] followed by a body without line terminator, the
    body is base64url, inflates and parses, and the payload is accepted: a
    truthy value with [v] the number 1 and [p] an array in which no
    playlist and no item is [null] and every [i] is an array or falsy. It
    throws in every other case: "unsupported" on the prefix, the error of
    [atob], of [inflateRaw] or of [JSON.parse] on the body, "invalid" or a
    TypeError on the payload. An empty playlist list is accepted; the
    import dialog rejects it, as it rejects a thrown error, and a state that
    is not offered cannot be applied. *)
Theorem C5_decoder_throws_exactly_when_token_not_accepted encoded n :
  ((exists d n', decodeShareToState encoded n = inr (d, n')) <->
   (exists data bytes inflated payload,
      match_v1 (JsString.trim encoded) = Some data /\
      base64UrlDecode atob data = Some bytes /\
      inflateRaw bytes = Some inflated /\
      JSON_parse (fromUtf8Bytes inflated) = Some payload /\
      payload_accepted payload = true)) /\
  ((exists e, decodeShareToState encoded n = inl e) <->
   ~ (exists data bytes inflated payload,
        match_v1 (JsString.trim encoded) = Some data /\
        base64UrlDecode atob data = Some bytes /\
        inflateRaw bytes = Some inflated /\
        JSON_parse (fromUtf8Bytes inflated) = Some payload /\
        payload_accepted payload = true)) /\
  (match_v1 (JsString.trim encoded) = None ->
   decodeShareToState encoded n = inl Unsupported) /\
  (forall data,
     match_v1 (JsString.trim encoded) = Some data ->
     (base64UrlDecode atob data = None ->
      decodeShareToState encoded n = inl InvalidCharacter) /\
     (forall bytes,
        base64UrlDecode atob data = Some bytes ->
        (inflateRaw bytes = None ->
         decodeShareToState encoded n = inl InflateError) /\
        (forall inflated,
           inflateRaw bytes = Some inflated ->
           (JSON_parse (fromUtf8Bytes inflated) = None ->
            decodeShareToState encoded n = inl SyntaxError) /\
           (forall payload,
              JSON_parse (fromUtf8Bytes inflated) = Some payload ->
              (payload_accepted payload = false ->
               exists e, decodeShareToState encoded n = inl e /\
                         (e = Invalid \/ e = TypeError)) /\
              (Js.truthy payload = true ->
               Js.get "v" payload = Some (Js.Num 1) ->
               Js.get "p" payload = Some (Js.Arr []) ->
               exists d n', decodeShareToState encoded n = inr (d, n') /\
                            d_playlists d = []))))) /\
  (forall (S : Type) (onApply : Decoded -> S -> S) (state : S),
     (exists e, decodeShareToState encoded n = inl e) \/
     (exists d n', decodeShareToState encoded n = inr (d, n') /\
                   d_playlists d = []) ->
     clickApply
       (previewImport atob inflateRaw fromUtf8Bytes JSON_parse entropy now
          encoded n) onApply state = state).
Proof.
  assert (Hrun : forall data bytes inflated payload,
    match_v1 (JsString.trim encoded) = Some data ->
    base64UrlDecode atob data = Some bytes ->
    inflateRaw bytes = Some inflated ->
    JSON_parse (fromUtf8Bytes inflated) = Some payload ->
    decodeShareToState encoded n = decodePayload payload n).
  { intros data bytes inflated payload Hm Hb Hi Hp.
    unfold Share.decodeShareToState, dbind, try_opt, dret.
    by rewrite Hm, Hb, Hi, Hp. }
  assert (Hiff :
    (exists d n', decodeShareToState encoded n = inr (d, n')) <->
    (exists data bytes inflated payload,
       match_v1 (JsString.trim encoded) = Some data /\
       base64UrlDecode atob data = Some bytes /\
       inflateRaw bytes = Some inflated /\
       JSON_parse (fromUtf8Bytes inflated) = Some payload /\
       payload_accepted payload = true)).
  { split.
    - intros (d & n' & Hd). revert Hd.
      unfold Share.decodeShareToState, dbind, try_opt, dret, throw.
      destruct (match_v1 _) as [data|] eqn:Hm; [|done].
      destruct (base64UrlDecode atob data) as [bytes|] eqn:Hb; [|done].
      destruct (inflateRaw bytes) as [inflated|] eqn:Hi; [|done].
      destruct (JSON_parse _) as [payload|] eqn:Hp; [|done].
      intros Hd. exists data, bytes, inflated, payload. split_and!; try done.
      pose proof (decodePayload_spec payload n) as Hspec.
      destruct (payload_accepted payload); [done|].
      destruct Hspec as (e & He & _). congruence.
    - intros (data & bytes & inflated & payload & Hm & Hb & Hi & Hp & Hacc).
      rewrite (Hrun _ _ _ _ Hm Hb Hi Hp).
      pose proof (decodePayload_spec payload n) as Hspec.
      by rewrite Hacc in Hspec. }
  split_and!.
  - exact Hiff.
  - rewrite <- Hiff. destruct (decodeShareToState encoded n) as [e|[d n']].
    + split; [|by eauto]. intros _ (d & n' & ?). done.
    + split; [by intros [e ?]|]. intros Hn. destruct Hn. by eexists _, _.
  - intros Hm. unfold Share.decodeShareToState, dbind, try_opt, throw.
    by rewrite Hm.
  - intros data Hm. split.
    { intros Hb. unfold Share.decodeShareToState, dbind, try_opt, throw, dret.
      by rewrite Hm, Hb. }
    intros bytes Hb. split.
    { intros Hi. unfold Share.decodeShareToState, dbind, try_opt, throw, dret.
      by rewrite Hm, Hb, Hi. }
    intros inflated Hi. split.
    { intros Hp. unfold Share.decodeShareToState, dbind, try_opt, throw, dret.
      by rewrite Hm, Hb, Hi, Hp. }
    intros payload Hp. rewrite (Hrun _ _ _ _ Hm Hb Hi Hp). split.
    + intros Hacc. pose proof (decodePayload_spec payload n) as Hspec.
      by rewrite Hacc in Hspec.
    + intros Ht Hv Hps. unfold Share.decodePayload.
      rewrite Ht, Hv, Hps. simpl. by eexists _, _.
  - intros S onApply state Hcase. apply previewImport_None in Hcase.
    by rewrite Hcase.
Qed.

(** C10. A token that passes the prefix, base64url, inflate and parse
    stages and whose payload has the version 1 and an empty playlist list
    is decoded without error. The result has no playlist and a selected
    identifier that is minted for the occasion; it does not satisfy the
    collection invariant, and neither does a typed state that it is the
    untyped form of. *)
Theorem C10_empty_list_decodes_to_state_without_playlists
    encoded n data bytes inflated payload :
  match_v1 (JsString.trim encoded) = Some data ->
  base64UrlDecode atob data = Some bytes ->
  inflateRaw bytes = Some inflated ->
  JSON_parse (fromUtf8Bytes inflated) = Some payload ->
  Js.truthy payload = true ->
  Js.get "v" payload = Some (Js.Num 1) ->
  Js.get "p" payload = Some (Js.Arr []) ->
  let d := {| d_version := 1; d_playlists := [];
              d_selectedPlaylistId := "pl_" +:+ entropy n |} in
  decodeShareToState encoded n = inr (d, S n) /\
  (forall p, p ∈ d_playlists d -> DPlaylist.id p <> d_selectedPlaylistId d) /\
  ~ Share.invariant d /\
  (forall s, state_as_decoded s = d -> ~ Store.invariant s).
Proof.
  intros Hm Hb Hi Hp Ht Hv Hps d. split_and!.
  - unfold Share.decodeShareToState, dbind, try_opt, dret.
    rewrite Hm, Hb, Hi, Hp. unfold Share.decodePayload. by rewrite Ht, Hv, Hps.
  - intros p Hin. by apply elem_of_nil in Hin.
  - intros [Hne _]. by apply Hne.
  - intros s Hs [Hne _]. apply Hne.
    apply (f_equal d_playlists) in Hs. simpl in Hs.
    by apply fmap_nil_inv in Hs.
Qed.

End Decoder.

Lemma C10_witness :
  let d := {| d_version := 1; d_playlists := [];
              d_selectedPlaylistId := "pl_" +:+ Sample.entropy 0 |} in
  Reference.decode Sample.entropy 42 Sample.empty_token 0 = inr (d, 1%nat) /\
  (forall p, p ∈ d_playlists d -> DPlaylist.id p <> d_selectedPlaylistId d) /\
  ~ Share.invariant d /\
  (forall s, state_as_decoded s = d -> ~ Store.invariant s).
Proof.
  apply (C10_empty_list_decodes_to_state_without_playlists
           Reference.atob Reference.inflateRaw Reference.fromUtf8Bytes
           Reference.JSON_parse Sample.entropy 42 Sample.empty_token 0%nat
           "eyJ2IjoxLCJwIjpbXX0"
           (Reference.toUtf8Bytes (Reference.JSON_stringify Sample.empty_payload))
           (Reference.toUtf8Bytes (Reference.JSON_stringify Sample.empty_payload))
           Sample.empty_payload);
    reflexivity.
Defined.

(** C5 as stated fails in both directions. The token of the payload with
    the version 1 and an empty playlist list is decoded without error. The
    token of the payload with the version 1 and the playlist list [[null]]
    has the prefix, a body that decodes, inflates and parses, the version 1
    and a non-empty array, and the decoder throws a TypeError on it. *)
Lemma C5_counterexample :
  Reference.decode Sample.entropy 42 Sample.empty_token 0 =
    inr ({| d_version := 1; d_playlists := [];
            d_selectedPlaylistId := "pl_seed0" |}, 1%nat) /\
  (Share.base64UrlDecode Reference.atob "eyJ2IjoxLCJwIjpbbnVsbF19" =
     Some (Reference.toUtf8Bytes (Reference.JSON_stringify Sample.null_payload)) /\
   Reference.JSON_parse (Reference.JSON_stringify Sample.null_payload) =
     Some Sample.null_payload /\
   Reference.decode Sample.entropy 42 Sample.null_token 0 = inl TypeError).
Proof. split_and!; vm_compute; reflexivity. Qed.

(** A body that is not base64 is refused by [atob]. *)
Example decode_garbage :
  Reference.decode Sample.entropy 42 Sample.garbage_token 0
  = inl InvalidCharacter.
Proof. vm_compute. reflexivity. Qed.

(** *** The base64url layer *)

Lemma to_url_char c :
  base64_char c = true ->
  let c1 := if decide (c = "+"%char) then "-"%char else c in
  let c2 := if decide (c1 = "/"%char) then "_"%char else c1 in
  let c3 := if decide (c2 = "-"%char) then "+"%char else c2 in
  let c4 := if decide (c3 = "_"%char) then "/"%char else c3 in
  base64url_char c2 = true /\ c2 <> "="%char /\ c4 = c.
Proof.
  destruct c as [[] [] [] [] [] [] [] []]; try discriminate; intros _;
    vm_compute; split_and!; congruence.
Qed.

Lemma url_char_no_space c r :
  base64url_char c = true ->
  JsString.strip_any (map (@rev ascii) JsString.white_space) (c :: r) = None /\
  JsString.strip_any JsString.line_terminators (c :: r) = None.
Proof.
  destruct c as [[] [] [] [] [] [] [] []]; try discriminate; intros _;
    split; reflexivity.
Qed.

Lemma length_append (s t : string) :
  String.length (s +:+ t) = (String.length s + String.length t)%nat.
Proof. induction s as [|c s IH]; [done|]. simpl. by rewrite IH. Qed.

Lemma replace_char_app a b s t :
  replace_char a b (s +:+ t) = replace_char a b s +:+ replace_char a b t.
Proof. induction s as [|c s IH]; [done|]. simpl. by rewrite IH. Qed.

Lemma length_replace_char a b s :
  String.length (replace_char a b s) = String.length s.
Proof. induction s as [|c s IH]; [done|]. simpl. by rewrite IH. Qed.

(** What the two encoder replacements make of a run of base64
    characters, and the two decoder replacements of the result. *)
Lemma replace_core core :
  all_chars base64_char core = true ->
  let core' := replace_char "/" "_" (replace_char "+" "-" core) in
  all_chars base64url_char core' = true /\
  all_chars (fun c => negb (bool_decide (c = "="%char))) core' = true /\
  replace_char "_" "/" (replace_char "-" "+" core') = core /\
  String.length core' = String.length core.
Proof.
  induction core as [|c core IH]; [done|]. simpl.
  intros [Hc Hcore]%andb_prop. destruct (IH Hcore) as (H1 & H2 & H3 & H4).
  destruct (to_url_char c Hc) as (Hu & Hne & Hback). cbv zeta in *.
  rewrite Hu, H1, H2, H3, H4, Hback. split_and!; try done.
  by rewrite bool_decide_eq_false_2.
Qed.

Lemma replace_pad a b pad :
  a <> "="%char -> pad = "" \/ pad = "=" \/ pad = "==" ->
  replace_char a b pad = pad.
Proof.
  intros Ha [-> | [-> | ->]]; simpl; rewrite ?decide_False by congruence; done.
Qed.

Lemma strip_trailing_eq_pad s pad :
  s <> "" ->
  all_chars (fun c => negb (bool_decide (c = "="%char))) s = true ->
  pad = "" \/ pad = "=" \/ pad = "==" ->
  strip_trailing_eq (s +:+ pad) = s.
Proof.
  intros Hne Hall Hpad.
  assert (Hp : strip_trailing_eq pad = "") by by destruct Hpad as [-> | [-> | ->]].
  induction s as [|c s IH]; [done|]. simpl in Hall.
  apply andb_prop in Hall as [Hc Hall].
  apply negb_true_iff, bool_decide_eq_false in Hc.
  change (String c s +:+ pad) with (String c (s +:+ pad)).
  cbn [strip_trailing_eq]. destruct s as [|c' s].
  - change ("" +:+ pad) with pad. rewrite Hp. by rewrite decide_False.
  - rewrite IH by done. done.
Qed.

Lemma padding_spec core pad :
  pad = "" \/ pad = "=" \/ pad = "==" ->
  (String.length (core +:+ pad) mod 4 = 0)%nat ->
  padding core = pad.
Proof.
  intros Hpad. rewrite length_append. unfold padding.
  rewrite <- (Nat.Div0.add_mod_idemp_l (String.length core) 3 4).
  rewrite <- (Nat.Div0.add_mod_idemp_l (String.length core) _ 4).
  pose proof (Nat.mod_upper_bound (String.length core) 4 ltac:(lia)) as Hlt.
  destruct (String.length core mod 4)%nat as [|[|[|[|r]]]]; [..|lia];
    destruct Hpad as [-> | [-> | ->]]; simpl; intros Hmod;
    first [done|discriminate Hmod].
Qed.

(** [base64UrlDecode] undoes [base64UrlEncode] on bytes on which [atob]
    undoes [btoa] and on which [btoa] returns base64. *)
Lemma base64Url_roundtrip btoa atob bytes :
  atob (btoa bytes) = Some bytes ->
  base64_shaped (btoa bytes) ->
  let data := base64UrlEncode btoa bytes in
  base64UrlDecode atob data = Some bytes /\
  data <> "" /\ all_chars base64url_char data = true.
Proof.
  intros Hatob (core & pad & He & Hne & Hcore & Hpad & Hlen).
  unfold base64UrlEncode, base64UrlDecode, toBase64, fromBase64. cbv zeta.
  rewrite He. rewrite !replace_char_app.
  rewrite !(replace_pad _ _ pad) by (done || discriminate).
  destruct (replace_core core Hcore) as (Hurl & Hnoeq & Hback & Hlen').
  cbv zeta in *.
  set (core' := replace_char "/" "_" (replace_char "+" "-" core)) in *.
  assert (Hne' : core' <> "").
  { intros Hc. rewrite Hc in Hlen'. destruct core; [done|discriminate]. }
  rewrite strip_trailing_eq_pad by done.
  split_and!; [|done|done].
  rewrite Hback.
  rewrite (padding_spec core' pad Hpad).
  - by rewrite <- He.
  - rewrite length_append, Hlen', <- length_append, <- He. done.
Qed.

(** The token that the encoder builds from base64url data passes the
    prefix test of the decoder, which captures the data. *)
Lemma match_v1_token data :
  data <> "" -> all_chars base64url_char data = true ->
  match_v1 (JsString.trim ("v1." +:+ data)) = Some data.
Proof.
  intros Hne Hall. apply JsStringFacts.all_chars_Forall in Hall.
  assert (Hl : list_ascii_of_string data <> []).
  { intros Hnil. apply Hne. apply JsStringFacts.list_ascii_of_string_inj.
    by rewrite Hnil. }
  rewrite JsStringFacts.trim_stable.
  - change ("v1." +:+ data) with (String "v" (String "1" (String "." data))).
    cbn [match_v1].
    replace (JsString.truthy data) with true by by destruct data.
    assert (Hocc : occurs JsString.line_terminators
                     (list_ascii_of_string data) = false).
    { clear Hl. induction Hall as [|c l Hc _ IH]; [done|].
      cbn [occurs]. by rewrite (proj2 (url_char_no_space c l Hc)). }
    by rewrite Hocc.
  - reflexivity.
  - change ("v1." +:+ data) with (String "v" (String "1" (String "." data))).
    cbn [list_ascii_of_string rev].
    destruct (JsStringFacts.rev_head _ _ Hall Hl) as (c & rest & Hrev & Hc).
    rewrite Hrev. cbn [app].
    apply (url_char_no_space c _ Hc).
Qed.

(** *** The round trip *)

Section Roundtrip.

Variable btoa : list Byte.byte -> string.
Variable atob : string -> option (list Byte.byte).
Variable deflateRaw : list Byte.byte -> list Byte.byte.
Variable inflateRaw : list Byte.byte -> option (list Byte.byte).
Variable toUtf8Bytes : string -> list Byte.byte.
Variable fromUtf8Bytes : list Byte.byte -> string.
Variable JSON_stringify : Js.value -> string.
Variable JSON_parse : string -> option Js.value.
Variable entropy : nat -> string.
Variable now : Z.

Lemma or_stamp t : Js.or (Js.Num t) (Js.Num now) = Js.Num (stamp now t).
Proof. unfold Js.or, stamp. simpl. by destruct (t =? 0)%Z. Qed.

Lemma decodeItem_encoded opts it n :
  decodeItem entropy now (Js.prune (encodeItem opts it)) n =
    inr (expectedItem entropy now opts it n).
Proof.
  unfold Share.decodeItem, encodeItem, expectedItem, dbind, bind, lift,
    try_opt, dret, ret, newId.
  rewrite !JsFacts.get_prune_Obj by compute_done.
  simpl Js.lookup_field. rewrite !JsFacts.prune_of_opt. simpl Js.prune.
  rewrite or_stamp. do 3 f_equal.
  - by destruct (includeThumbnails opts); rewrite ?JsFacts.prune_of_opt.
  - destruct (Item.tags it) as [|t ts]; [done|]. simpl.
    by rewrite JsFacts.prune_elems_strs.
Qed.

Lemma mapD_decodeItem_encoded opts items n :
  mapD (decodeItem entropy now)
    ((fun it => Js.prune (encodeItem opts it)) <$> items) n =
    inr (mapGen (expectedItem entropy now opts) items n).
Proof.
  revert n. induction items as [|it items IH]; intros n; [done|].
  cbn [fmap list_fmap mapD mapGen]. unfold dbind, bind.
  rewrite decodeItem_encoded.
  destruct (expectedItem entropy now opts it n) as [d n1].
  rewrite IH. by destruct (mapGen _ items n1).
Qed.

Lemma decodePlaylist_encoded opts pl n :
  decodePlaylist entropy now (Js.prune (encodePlaylist opts pl)) n =
    inr (expectedPlaylist entropy now opts pl n).
Proof.
  unfold Share.decodePlaylist, encodePlaylist, expectedPlaylist, dbind, bind,
    lift, try_opt, dret, ret, newId.
  rewrite !JsFacts.get_prune_Obj by compute_done.
  change (Js.lookup_field "i" _) with (Js.Arr (encodeItem opts <$> PL.items pl)).
  change (Js.lookup_field "n" _) with (Js.Str (PL.name pl)).
  change (Js.lookup_field "c" _) with (Js.Num (PL.createdAt pl)).
  rewrite JsFacts.prune_Arr, JsFacts.prune_Str, JsFacts.prune_Num.
  rewrite (JsFacts.prune_elems_objects (encodeItem opts))
    by (intros it; by eexists).
  rewrite JsFacts.or_Arr, JsFacts.or_Str, or_stamp.
  rewrite mapD_decodeItem_encoded.
  by destruct (mapGen _ (PL.items pl) (S n)) as [items n1].
Qed.

Lemma mapD_decodePlaylist_encoded opts pls n :
  mapD (decodePlaylist entropy now)
    ((fun pl => Js.prune (encodePlaylist opts pl)) <$> pls) n =
    inr (mapGen (expectedPlaylist entropy now opts) pls n).
Proof.
  revert n. induction pls as [|pl pls IH]; intros n; [done|].
  cbn [fmap list_fmap mapD mapGen]. unfold dbind, bind.
  rewrite decodePlaylist_encoded.
  destruct (expectedPlaylist entropy now opts pl n) as [d n1].
  rewrite IH. by destruct (mapGen _ pls n1).
Qed.

Lemma expectedPlaylist_id opts pl n :
  DPlaylist.id (fst (expectedPlaylist entropy now opts pl n)) =
    "pl_" +:+ entropy n.
Proof.
  unfold expectedPlaylist, bind, newId, ret.
  by destruct (mapGen _ (PL.items pl) (S n)).
Qed.

(** From the parsed payload on: what the decoder makes of what
    [JSON.stringify] and [JSON.parse] leave of the payload of a whole
    collection. *)
Lemma decodePayload_encoded opts state n :
  scope_selected opts = false ->
  decodePayload entropy now (Js.prune (sharePayload state opts)) n =
    inr (expectedDecoded entropy now opts state n).
Proof.
  intros Hscope. unfold Share.decodePayload, sharePayload, expectedDecoded.
  rewrite Hscope. rewrite !JsFacts.get_prune_Obj by compute_done.
  change (Js.lookup_field "v" _) with (Js.Num 1).
  change (Js.lookup_field "p" _)
    with (Js.Arr (encodePlaylist opts <$> playlists state)).
  rewrite JsFacts.prune_Arr, JsFacts.prune_Num.
  change (Js.truthy (Js.prune (Js.Obj _))) with true. cbv iota.
  change (negb true) with false. cbv iota.
  rewrite (JsFacts.prune_elems_objects (encodePlaylist opts))
    by (intros pl; by eexists).
  unfold dbind, bind. rewrite mapD_decodePlaylist_encoded.
  destruct (playlists state) as [|pl pls]; [done|].
  cbn [mapGen]. unfold bind.
  pose proof (expectedPlaylist_id opts pl n) as Hid.
  destruct (expectedPlaylist entropy now opts pl n) as [d n1].
  destruct (mapGen _ pls n1) as [ds n2]. simpl in Hid. simpl.
  rewrite Hid. done.
Qed.

Lemma mapGen_Forall2 {A B} (f : A -> Gen B) (l : list A) n :
  Forall2 (fun x y => exists m, y = fst (f x m)) l (fst (mapGen f l n)).
Proof.
  revert n. induction l as [|x l IH]; intros n; [constructor|].
  cbn [mapGen]. unfold bind. destruct (f x n) as [y n1] eqn:Hy.
  specialize (IH n1). destruct (mapGen f l n1) as [ys n2]. simpl in *.
  constructor; [|done]. exists n. by rewrite Hy.
Qed.

(** C4, as amended. On a platform where [atob] undoes [btoa] and inflating
    undoes deflating on the bytes at hand, and where parsing what
    [JSON.stringify] printed gives the payload without its [undefined]
    properties, decoding the token of a whole collection returns the
    playlists in order, each item with its url, its tags, and its time
    stamp unless that is zero; the videoId unless it is empty; as title the
    title or, when that is empty or absent, the source title; the name of
    the playlist unless it is empty, in which case it is the import label;
    the thumbnail only if thumbnails were asked for; and fresh identifiers
    throughout. *)
Theorem C4_decode_of_encode opts state n :
  scope_selected opts = false ->
  let json := JSON_stringify (sharePayload state opts) in
  let raw := toUtf8Bytes json in
  let deflated := deflateRaw raw in
  atob (btoa deflated) = Some deflated ->
  base64_shaped (btoa deflated) ->
  inflateRaw deflated = Some raw ->
  fromUtf8Bytes raw = json ->
  JSON_parse json = Some (Js.prune (sharePayload state opts)) ->
  exists decoded n',
    decodeShareToState atob inflateRaw fromUtf8Bytes JSON_parse entropy now
      (encodeShareFromState btoa deflateRaw toUtf8Bytes JSON_stringify
         state opts) n = inr (decoded, n') /\
    (decoded, n') = expectedDecoded entropy now opts state n /\
    Forall2
      (fun pl d =>
         DPlaylist.name d =
           Js.Str (if JsString.truthy (PL.name pl) then PL.name pl
                   else imported_label) /\
         DPlaylist.createdAt d = Js.Num (stamp now (PL.createdAt pl)) /\
         Forall2
           (fun it di =>
              DItem.url di = Js.Str (Item.url it) /\
              DItem.videoId di =
                Js.of_opt (JsString.or_undefined (Item.videoId it)) /\
              DItem.title di =
                Js.of_opt (JsString.or_opt (Item.title it)
                             (JsString.or_undefined (Item.sourceTitle it))) /\
              DItem.tags di = Js.Arr (Js.Str <$> Item.tags it) /\
              DItem.addedAt di = Js.Num (stamp now (Item.addedAt it)) /\
              DItem.thumbnailUrl di =
                (if includeThumbnails opts
                 then Js.of_opt (Item.thumbnailUrl it) else Js.Undefined) /\
              DItem.sourceTitle di = Js.Undefined)
           (PL.items pl) (DPlaylist.items d))
      (playlists state) (d_playlists decoded).
Proof.
  intros Hscope json raw deflated Hatob Hshape Hinflate Hutf8 Hparse.
  destruct (base64Url_roundtrip btoa atob deflated Hatob Hshape)
    as (Hdecode & Hne & Hurl). cbv zeta in *.
  assert (Hrun :
    decodeShareToState atob inflateRaw fromUtf8Bytes JSON_parse entropy now
      (encodeShareFromState btoa deflateRaw toUtf8Bytes JSON_stringify
         state opts) n
    = inr (expectedDecoded entropy now opts state n)).
  { unfold Share.decodeShareToState, encodeShareFromState. cbv zeta.
    fold json. fold raw. fold deflated.
    rewrite (match_v1_token _ Hne Hurl). unfold dbind, try_opt, dret.
    rewrite Hdecode, Hinflate, Hutf8, Hparse.
    by apply decodePayload_encoded. }
  destruct (expectedDecoded entropy now opts state n) as [decoded n'] eqn:Hexp.
  exists decoded, n'. split_and!; [done|done|].
  unfold expectedDecoded, bind, ret in Hexp.
  pose proof (mapGen_Forall2 (expectedPlaylist entropy now opts)
                (playlists state) n) as Hpls.
  destruct (mapGen (expectedPlaylist entropy now opts) (playlists state) n)
    as [pls n1].
  assert (d_playlists decoded = pls) as ->.
  { destruct pls; simpl in Hexp; by simplify_eq. }
  simpl in Hpls. eapply Forall2_impl; [exact Hpls|].
  intros pl d (m & ->). unfold expectedPlaylist, bind, ret, newId.
  pose proof (mapGen_Forall2 (expectedItem entropy now opts)
                (PL.items pl) (S m)) as Hits.
  destruct (mapGen (expectedItem entropy now opts) (PL.items pl) (S m))
    as [its m1].
  simpl in *. split_and!; [done|done|].
  eapply Forall2_impl; [exact Hits|].
  intros it di (k & ->). done.
Qed.

End Roundtrip.

Lemma C4_witness :
  let opts := mkOptions true false in
  let state := Sample.titled in
  let n := 0%nat in
  let now := 42%Z in
  let entropy := Sample.entropy in
  let btoa := Reference.btoa in
  let atob := Reference.atob in
  let deflateRaw := Reference.deflateRaw in
  let inflateRaw := Reference.inflateRaw in
  let toUtf8Bytes := Reference.toUtf8Bytes in
  let fromUtf8Bytes := Reference.fromUtf8Bytes in
  let JSON_stringify := Reference.JSON_stringify in
  let JSON_parse := Reference.JSON_parse in
  exists decoded n',
    decodeShareToState atob inflateRaw fromUtf8Bytes JSON_parse entropy now
      (encodeShareFromState btoa deflateRaw toUtf8Bytes JSON_stringify
         state opts) n = inr (decoded, n') /\
    (decoded, n') = expectedDecoded entropy now opts state n /\
    Forall2
      (fun pl d =>
         DPlaylist.name d =
           Js.Str (if JsString.truthy (PL.name pl) then PL.name pl
                   else imported_label) /\
         DPlaylist.createdAt d = Js.Num (stamp now (PL.createdAt pl)) /\
         Forall2
           (fun it di =>
              DItem.url di = Js.Str (Item.url it) /\
              DItem.videoId di =
                Js.of_opt (JsString.or_undefined (Item.videoId it)) /\
              DItem.title di =
                Js.of_opt (JsString.or_opt (Item.title it)
                             (JsString.or_undefined (Item.sourceTitle it))) /\
              DItem.tags di = Js.Arr (Js.Str <$> Item.tags it) /\
              DItem.addedAt di = Js.Num (stamp now (Item.addedAt it)) /\
              DItem.thumbnailUrl di =
                (if includeThumbnails opts
                 then Js.of_opt (Item.thumbnailUrl it) else Js.Undefined) /\
              DItem.sourceTitle di = Js.Undefined)
           (PL.items pl) (DPlaylist.items d))
      (playlists state) (d_playlists decoded).
Proof.
  intros opts state n now entropy btoa atob deflateRaw inflateRaw toUtf8Bytes
    fromUtf8Bytes JSON_stringify JSON_parse.
  apply (C4_decode_of_encode btoa atob deflateRaw inflateRaw toUtf8Bytes
           fromUtf8Bytes JSON_stringify JSON_parse entropy now opts state n).
  - reflexivity.
  - vm_compute. reflexivity.
  - set (e := btoa (deflateRaw (toUtf8Bytes
                 (JSON_stringify (sharePayload state opts))))).
    exists (strip_trailing_eq e),
      (String.substring (String.length (strip_trailing_eq e)) 2 e).
    vm_compute. split_and!; first [reflexivity | discriminate | by left
                                  | by right; left | by right; right].
  - reflexivity.
  - vm_compute. reflexivity.
  - vm_compute. reflexivity.
Defined.

(** C4 as stated fails on [Sample.shared]. Its item has a source title
    and no title, and comes back with the source title as its title; its
    second playlist has the empty name and comes back named with the import
    label. *)
Lemma C4_counterexample :
  (Item.title <$> concat (PL.items <$> playlists Sample.shared) = [None] /\
   PL.name <$> playlists Sample.shared = ["First"; ""]) /\
  match Reference.decode Sample.entropy 42
          (Reference.encode Sample.shared (mkOptions false false)) 0 with
  | inr (decoded, _) =>
      DItem.title <$> concat (DPlaylist.items <$> d_playlists decoded)
        = [Js.Str "Shared title"] /\
      DPlaylist.name <$> d_playlists decoded
        = [Js.Str "First"; Js.Str imported_label]
  | inl _ => False
  end.
Proof. vm_compute. split_and!; reflexivity. Qed.

End ShareFacts.

(** ** The small URL class *)

Module SimpleUrlFacts.
Import SimpleUrl.

Lemma all_chars_impl (P Q : ascii -> bool) s :
  (forall c, P c = true -> Q c = true) ->
  Share.all_chars P s = true -> Share.all_chars Q s = true.
Proof.
  intros HPQ. induction s as [|c s IH]; [done|]. simpl.
  intros [Hc Hs]%andb_prop. by rewrite (HPQ c Hc), IH.
Qed.

Lemma all_chars_app P s t :
  Share.all_chars P s = true -> Share.all_chars P t = true ->
  Share.all_chars P (s +:+ t) = true.
Proof.
  intros Hs Ht. induction s as [|c s IH]; [done|]. simpl in *.
  apply andb_prop in Hs as [Hc Hs]. by rewrite Hc, IH.
Qed.

Lemma cut_none c s :
  Share.all_chars (other_than c) s = true -> cut c s = (s, None).
Proof.
  induction s as [|a s IH]; [done|]. simpl.
  intros [Ha Hs]%andb_prop. unfold other_than in Ha.
  apply negb_true_iff, bool_decide_eq_false in Ha.
  rewrite decide_False by done. by rewrite IH.
Qed.

Lemma cut_at c s t :
  Share.all_chars (other_than c) s = true ->
  cut c (s +:+ String c t) = (s, Some t).
Proof.
  induction s as [|a s IH]; simpl.
  - intros _. by rewrite decide_True.
  - intros [Ha Hs]%andb_prop. unfold other_than in Ha.
    apply negb_true_iff, bool_decide_eq_false in Ha.
    rewrite decide_False by done. by rewrite IH.
Qed.

Lemma split_none c s :
  Share.all_chars (other_than c) s = true -> Youtube.split c s = [s].
Proof.
  induction s as [|a s IH]; [done|]. simpl.
  intros [Ha Hs]%andb_prop. unfold other_than in Ha.
  apply negb_true_iff, bool_decide_eq_false in Ha.
  rewrite decide_False by done. by rewrite IH.
Qed.

Lemma split_at c s t :
  Share.all_chars (other_than c) s = true ->
  Youtube.split c (s +:+ String c t) = s :: Youtube.split c t.
Proof.
  induction s as [|a s IH]; simpl.
  - intros _. by rewrite decide_True.
  - intros [Ha Hs]%andb_prop. unfold other_than in Ha.
    apply negb_true_iff, bool_decide_eq_false in Ha.
    rewrite decide_False by done. by rewrite IH.
Qed.

Lemma split_join c l :
  l <> [] -> Forall (fun s => Share.all_chars (other_than c) s = true) l ->
  Youtube.split c (join c l) = l.
Proof.
  intros Hne Hall. induction Hall as [|s l Hs Hl IH]; [done|].
  cbn [join]. destruct l as [|s' l].
  - by apply split_none.
  - rewrite split_at by done. by rewrite IH.
Qed.

Lemma all_chars_join P c l :
  P c = true -> Forall (fun s => Share.all_chars P s = true) l ->
  Share.all_chars P (join c l) = true.
Proof.
  intros Hc. induction 1 as [|s l Hs Hl IH]; [done|].
  cbn [join]. destruct l as [|s' l]; [done|].
  apply all_chars_app; [done|]. cbn [Share.all_chars]. by rewrite Hc, IH.
Qed.

Lemma forallb_Forall {A} (f : A -> bool) l :
  forallb f l = true -> Forall (fun x => f x = true) l.
Proof.
  induction l as [|x l IH]; simpl; [by constructor|].
  intros [Hx Hl]%andb_prop. constructor; auto.
Qed.

Lemma forallb_filter {A} (f : A -> bool) (P : A -> Prop)
    `{!forall x, Decision (P x)} l :
  forallb f l = true -> forallb f (filter P l) = true.
Proof.
  induction l as [|x l IH]; [done|]. simpl.
  intros [Hx Hl]%andb_prop. destruct (decide (P x)).
  - rewrite filter_cons_True by done. simpl. by rewrite Hx, IH.
  - rewrite filter_cons_False by done. auto.
Qed.

Lemma parse_pair_text p : wf_pair p = true -> parse_pair (pair_text p) = p.
Proof.
  destruct p as [k v]. unfold wf_pair, parse_pair, pair_text. simpl.
  intros [Hk _]%andb_prop. rewrite cut_at; [done|].
  revert Hk. apply all_chars_impl. unfold name_char.
  by intros c [_ ?]%andb_prop.
Qed.

Lemma pair_text_chars P p :
  (forall c, value_char c = true -> P c = true) -> P "="%char = true ->
  wf_pair p = true -> Share.all_chars P (pair_text p) = true.
Proof.
  intros HP Heq [Hk Hv]%andb_prop. unfold pair_text.
  apply all_chars_app.
  - revert Hk. apply all_chars_impl. unfold name_char.
    intros c [? _]%andb_prop. by apply HP.
  - simpl. rewrite Heq. simpl. revert Hv. by apply all_chars_impl.
Qed.

Lemma parse_query_text q :
  forallb wf_pair q = true -> parse_query (query_text q) = q.
Proof.
  intros Hq%forallb_Forall. unfold parse_query, query_text.
  destruct q as [|p q]; [done|].
  rewrite decide_False.
  - rewrite split_join; [| done |].
    + rewrite map_map. clear -Hq.
      induction Hq as [|p' q' Hp _ IH]; [done|]. simpl.
      by rewrite parse_pair_text, IH.
    + apply Forall_fmap. eapply Forall_impl; [exact Hq|]. intros p' Hp.
      apply pair_text_chars; [|done|done].
      unfold value_char. by intros c [_ ?]%andb_prop.
  - cbn [map join]. destruct p as [[|a k] v]; by destruct (map pair_text q).
Qed.

Lemma parse_raw_href r : wf r = true -> parse_raw (href_raw r) = r.
Proof.
  destruct r as [o q]. unfold wf, href_raw, parse_raw. simpl.
  intros [[_ Ho]%andb_prop Hq]%andb_prop.
  assert (Hcut : Share.all_chars (other_than "?") o = true).
  { revert Ho. apply all_chars_impl. unfold origin_char.
    by intros c [_ ?]%andb_prop. }
  destruct q as [|p q].
  - by rewrite cut_none.
  - rewrite cut_at by done. simpl. by rewrite parse_query_text.
Qed.

Lemma printable_no_space c r :
  printable c = true ->
  JsString.strip_any JsString.white_space (c :: r) = None /\
  JsString.strip_any (map (@rev ascii) JsString.white_space) (c :: r) = None.
Proof.
  destruct c as [[] [] [] [] [] [] [] []]; try discriminate; intros _;
    split; reflexivity.
Qed.

Lemma printable_trim s :
  Share.all_chars printable s = true -> JsString.trim s = s.
Proof.
  intros Hall%JsStringFacts.all_chars_Forall.
  destruct (list_ascii_of_string s) as [|c l] eqn:Hs.
  { apply (f_equal string_of_list_ascii) in Hs.
    rewrite string_of_list_ascii_of_string in Hs. by subst. }
  apply JsStringFacts.trim_stable; rewrite Hs.
  - assert (Hc : printable c = true) by by inversion Hall.
    exact (proj1 (printable_no_space c l Hc)).
  - destruct (JsStringFacts.rev_head _ (c :: l) Hall) as (c' & l' & -> & Hc');
      [done|].
    exact (proj2 (printable_no_space c' l' Hc')).
Qed.

Lemma href_raw_printable r :
  wf r = true -> Share.all_chars printable (href_raw r) = true.
Proof.
  destruct r as [o q]. unfold wf, href_raw. simpl.
  intros [[_ Ho]%andb_prop Hq%forallb_Forall]%andb_prop.
  assert (Hop : Share.all_chars printable o = true).
  { revert Ho. apply all_chars_impl. unfold origin_char.
    by intros c [? _]%andb_prop. }
  destruct q as [|p q]; [done|].
  apply all_chars_app; [done|]. cbn [Share.all_chars]. apply andb_true_intro.
  split; [done|]. apply all_chars_join; [done|].
  apply Forall_fmap. eapply Forall_impl; [exact Hq|]. intros p' Hp.
  apply pair_text_chars; [|done|done].
  unfold value_char. by intros c [? _]%andb_prop.
Qed.

Lemma wf_delete k r :
  wf r = true ->
  wf (mkRaw (origin r) (filter (fun p => p.1 <> k) (query r))) = true.
Proof.
  unfold wf. simpl. intros [-> Hq]%andb_prop. simpl.
  by apply forallb_filter.
Qed.

Lemma deleteParam_raw k (u : t) :
  proj1_sig (deleteParam k u) =
    mkRaw (origin (proj1_sig u))
      (filter (fun p => p.1 <> k) (query (proj1_sig u))).
Proof.
  destruct u as [r ok]. unfold deleteParam. simpl.
  destruct (decide _) as [ok'|no]; [done|].
  destruct no. by apply wf_delete.
Qed.

(** The small URL class has the properties asked of the platform. *)
Lemma laws : @UrlLaws api.
Proof.
  split.
  - intros [r ok]. simpl. unfold parse, href. simpl.
    rewrite parse_raw_href by done.
    destruct (decide (wf r = true)) as [ok'|no]; [|done].
    f_equal. by apply (sig_eq_pi _).
  - intros [r ok]. simpl. unfold href. simpl.
    by apply printable_trim, href_raw_printable.
  - intros k u. simpl. unfold searchParams. by rewrite deleteParam_raw.
  - intros k u. simpl. unfold hostname, rest. by rewrite deleteParam_raw.
  - intros k u _. simpl. unfold pathname, hostname, rest.
    by rewrite deleteParam_raw.
Qed.

End SimpleUrlFacts.

(** ** The URL normalizer *)

Module YoutubeFacts.
Import Youtube.

Section Normalizer.

Context `{UrlLaws}.

Lemma get_filter k (P : string * string -> Prop) `{!forall p, Decision (P p)}
    (params : list (string * string)) :
  (forall v, P (k, v)) -> get k (filter P params) = get k params.
Proof.
  intros Hk. induction params as [|[k' v] params IH]; [done|].
  destruct (decide (P (k', v))) as [Hp|Hp].
  - rewrite filter_cons_True by done. simpl. by rewrite IH.
  - rewrite filter_cons_False by done. simpl. rewrite IH.
    rewrite decide_False; [done|]. intros ->. by apply Hp.
Qed.

(** Cleaning, step by step: after the keys [ks] have been visited, the
    pairs left are those whose name is kept or is not among [ks]. *)
Lemma clean_fold ks u :
  let c := fold_left (fun cleaned k =>
                        if decide (k ∈ keep) then cleaned
                        else deleteParam k cleaned) ks u in
  searchParams c =
    filter (fun p => p.1 ∈ keep \/ p.1 ∉ ks) (searchParams u) /\
  hostname c = hostname u /\
  (hostname u <> "" -> pathname c = pathname u).
Proof.
  revert u. induction ks as [|k ks IH]; intros u; cbn [fold_left].
  - split_and!; [|done|done]. symmetry. apply StoreFacts.filter_keeps_all.
    apply Forall_forall. intros p _. right. apply not_elem_of_nil.
  - destruct (decide (k ∈ keep)) as [Hk|Hk].
    + destruct (IH u) as (Hp & Hh & Hpath). cbv zeta in *.
      split_and!; [|done|done]. rewrite Hp. apply list_filter_iff.
      intros p. rewrite not_elem_of_cons. split; [|tauto].
      intros [?|?]; [tauto|]. destruct (decide (p.1 = k)) as [->|]; tauto.
    + destruct (IH (deleteParam k u)) as (Hp & Hh & Hpath). cbv zeta in *.
      rewrite Hp, Hh, searchParams_delete, hostname_delete.
      split_and!; [|done|].
      * rewrite list_filter_filter. apply list_filter_iff.
        intros p. rewrite not_elem_of_cons. split; [tauto|].
        intros [Hin|[Hne Hn]]; [|tauto].
        split; [tauto|]. intros Heq. apply Hk. by rewrite <- Heq.
      * intros Hhost. rewrite Hpath by by rewrite hostname_delete.
        by apply pathname_delete.
Qed.

Lemma filter_agree {A} (P Q : A -> Prop)
    `{!forall x, Decision (P x)} `{!forall x, Decision (Q x)} (l : list A) :
  Forall (fun x => P x <-> Q x) l -> filter P l = filter Q l.
Proof.
  induction 1 as [|x l Hx _ IH]; [done|].
  destruct (decide (P x)) as [Hp|Hp].
  - rewrite !filter_cons_True by tauto. by rewrite IH.
  - rewrite !filter_cons_False by tauto. done.
Qed.

Lemma clean_spec u :
  searchParams (clean u) =
    filter (fun p => p.1 ∈ keep) (searchParams u) /\
  hostname (clean u) = hostname u /\
  (hostname u <> "" -> pathname (clean u) = pathname u).
Proof.
  destruct (clean_fold (map fst (searchParams u)) u) as (Hp & Hh & Hpath).
  cbv zeta in *. fold (clean u) in Hp, Hh, Hpath.
  split_and!; [|done|done]. rewrite Hp.
  apply filter_agree, Forall_forall. intros p Hin. split; [|tauto].
  intros [?|Hn]; [done|]. destruct Hn.
  apply list_elem_of_fmap. by exists p.
Qed.

(** A URL whose parameters are all kept is left as it is. *)
Lemma clean_kept u :
  Forall (fun p => p.1 ∈ keep) (searchParams u) -> clean u = u.
Proof.
  unfold clean. intros Hall.
  assert (Hks : Forall (fun k => k ∈ keep) (map fst (searchParams u))).
  { by apply Forall_fmap. }
  revert Hks. generalize (map fst (searchParams u)). intros ks.
  induction 1 as [|k ks Hk _ IH]; [done|]. cbn [fold_left].
  by rewrite decide_True.
Qed.

Lemma clean_idempotent u : clean (clean u) = clean u.
Proof.
  apply clean_kept. destruct (clean_spec u) as (-> & _).
  apply Forall_forall. intros p Hin.
  by apply list_elem_of_filter in Hin as [? _].
Qed.

(** The identifier read from a cleaned URL is the one read from the URL. *)
Lemma videoIdOf_clean u :
  videoIdOf (hostname (clean u)) (pathname (clean u)) (searchParams (clean u))
  = videoIdOf (hostname u) (pathname u) (searchParams u).
Proof.
  destruct (clean_spec u) as (Hp & Hh & Hpath). rewrite Hp, Hh.
  destruct (decide (hostname u = "")) as [Hhost|Hhost].
  { rewrite Hhost. done. }
  rewrite (Hpath Hhost). unfold videoIdOf.
  rewrite get_filter; [done|]. intros v. simpl. unfold keep. left.
Qed.

(** What the normalizer returns for a URL. *)
Lemma normalizeYouTubeUrl_parsed input u :
  parse (JsString.trim input) = Some u ->
  normalizeYouTubeUrl input =
    Some {| url := href (clean u);
            videoId := videoIdOf (hostname u) (pathname u) (searchParams u) |}.
Proof.
  intros Hu. unfold normalizeYouTubeUrl. cbv zeta. by rewrite Hu, parse_href.
Qed.

(** C9. The normalizer returns for every input, and is idempotent: the
    [url] of its result is normalized to the same [url] and the same
    [videoId]. *)
Theorem C9_normalizeYouTubeUrl_idempotent (input : string) :
  exists r,
    normalizeYouTubeUrl input = Some r /\
    normalizeYouTubeUrl (url r) = Some r.
Proof.
  destruct (parse (JsString.trim input)) as [u|] eqn:Hu.
  - eexists. split; [by apply normalizeYouTubeUrl_parsed|]. cbn [url].
    rewrite (normalizeYouTubeUrl_parsed _ (clean u)).
    + by rewrite clean_idempotent, videoIdOf_clean.
    + by rewrite href_trimmed, parse_href.
  - exists {| url := JsString.trim input; videoId := None |}.
    unfold normalizeYouTubeUrl. cbv zeta. cbn [url].
    by rewrite JsStringFacts.trim_idempotent, Hu.
Qed.

End Normalizer.

Example normalize_watch_link :
  normalizeYouTubeUrl (H := SimpleUrl.api)
    "  https://www.youtube.com/watch?feature=share&v=abc&t=10&utm=x " =
    Some {| url := "https://www.youtube.com/watch?v=abc&t=10";
            videoId := Some "abc" |}.
Proof. vm_compute. reflexivity. Qed.

Example normalize_short_link :
  normalizeYouTubeUrl (H := SimpleUrl.api) "https://youtu.be/abc/?si=1&x=2" =
    Some {| url := "https://youtu.be/abc/?si=1"; videoId := Some "abc" |}.
Proof. vm_compute. reflexivity. Qed.

Example normalize_text :
  normalizeYouTubeUrl (H := SimpleUrl.api) " not a link " =
    Some {| url := "not a link"; videoId := None |}.
Proof. vm_compute. reflexivity. Qed.

Lemma C9_witness :
  let input := "  https://www.youtube.com/watch?feature=share&v=abc&t=10&utm=x " in
  exists r,
    normalizeYouTubeUrl (H := SimpleUrl.api) input = Some r /\
    normalizeYouTubeUrl (H := SimpleUrl.api) (url r) = Some r.
Proof.
  exact (@C9_normalizeYouTubeUrl_idempotent SimpleUrl.api SimpleUrlFacts.laws
           "  https://www.youtube.com/watch?feature=share&v=abc&t=10&utm=x ").
Defined.

End YoutubeFacts.

(** ** More on the state store *)

Module StoreMore.
Import Store.

Lemma findPlaylist_cons p ps pid :
  findPlaylist (p :: ps) pid =
    if decide (PL.id p = pid) then Some (0%nat, p)
    else prod_map S id <$> findPlaylist ps pid.
Proof. unfold findPlaylist. simpl. by case_decide. Qed.

(** Looking up an identifier after a playlist with another identifier has
    been replaced or put in front. *)
Lemma findPlaylist_upsert_other state playlist other :
  other <> PL.id playlist ->
  snd <$> findPlaylist (playlists (upsertPlaylist state playlist)) other =
  snd <$> findPlaylist (playlists state) other.
Proof.
  intros Hne. unfold upsertPlaylist.
  destruct (findPlaylist (playlists state) (PL.id playlist))
    as [[i old]|] eqn:Hf; cbn [playlists].
  - by erewrite StoreFacts.findPlaylist_insert_other.
  - rewrite findPlaylist_cons, decide_False by done.
    rewrite <- option_fmap_compose. by apply option_fmap_ext; intros [].
Qed.

Lemma findPlaylist_upsert_same state playlist :
  exists i,
    findPlaylist (playlists (upsertPlaylist state playlist)) (PL.id playlist)
    = Some (i, playlist).
Proof.
  unfold upsertPlaylist.
  destruct (findPlaylist (playlists state) (PL.id playlist))
    as [[i old]|] eqn:Hf; cbn [playlists].
  - exists i. by eapply StoreFacts.findPlaylist_insert_same.
  - exists 0%nat. by rewrite findPlaylist_cons, decide_True.
Qed.

(** X1. After [upsertPlaylist], looking up the identifier of the playlist
    finds that playlist, and looking up any other identifier finds what it
    found before; the version and the selection are kept; and upserting
    the same playlist again changes nothing. *)
Theorem X1_upsertPlaylist_lookup state playlist :
  let state' := upsertPlaylist state playlist in
  (exists i, findPlaylist (playlists state') (PL.id playlist)
             = Some (i, playlist)) /\
  (forall other, other <> PL.id playlist ->
     snd <$> findPlaylist (playlists state') other =
     snd <$> findPlaylist (playlists state) other) /\
  version state' = version state /\
  selectedPlaylistId state' = selectedPlaylistId state /\
  upsertPlaylist state' playlist = state'.
Proof.
  intros state'. destruct (findPlaylist_upsert_same state playlist) as [i Hi].
  split_and!; [by eauto| |done|done|].
  - intros other Hne. by apply findPlaylist_upsert_other.
  - by eapply StoreFacts.upsertPlaylist_same.
Qed.

Lemma with_items_same pl : PL.with_items pl (PL.items pl) = pl.
Proof. by destruct pl. Qed.

Lemma state_insert_same state i pl :
  playlists state !! i = Some pl ->
  {| version := version state;
     selectedPlaylistId := selectedPlaylistId state;
     playlists := <[i := pl]> (playlists state) |} = state.
Proof. intros Hi. rewrite list_insert_id by done. by destruct state. Qed.

(** X2. Adding an item to a playlist and then removing the item with its
    identifier gives back the state, when no item of that playlist had the
    identifier before: whether the item was stored or discarded as a
    duplicate, and also when the playlist does not exist. *)
Theorem X2_remove_after_add state pid item :
  (forall i pl, findPlaylist (playlists state) pid = Some (i, pl) ->
     Forall (fun v => Item.id v <> Item.id item) (PL.items pl)) ->
  removeVideoFromPlaylist (addVideoToPlaylist state pid item) pid (Item.id item)
  = state.
Proof.
  intros Hids.
  destruct (findPlaylist (playlists state) pid) as [[i pl]|] eqn:Hf.
  - specialize (Hids i pl eq_refl).
    pose proof (StoreFacts.findPlaylist_Some _ _ _ _ Hf) as (Hi & Hid & _).
    destruct (exists_key (PL.items pl) (videoKey item)) eqn:Hex.
    + rewrite (StoreFacts.addVideoToPlaylist_dup _ _ _ _ _ Hf Hex).
      rewrite (StoreFacts.removeVideoFromPlaylist_found _ _ _ _ _ Hf).
      rewrite StoreFacts.filter_keeps_all by done.
      rewrite with_items_same. by apply state_insert_same.
    + rewrite (StoreFacts.addVideoToPlaylist_fresh _ _ _ _ _ Hf Hex).
      set (pl' := PL.with_items pl (item :: PL.items pl)).
      erewrite StoreFacts.removeVideoFromPlaylist_found; last first.
      { simpl. by eapply StoreFacts.findPlaylist_insert_same. }
      simpl. rewrite list_insert_insert_eq.
      rewrite filter_cons_False by (intros Hn; by apply Hn).
      rewrite StoreFacts.filter_keeps_all by done.
      change (PL.with_items pl' (PL.items pl)) with (PL.with_items pl (PL.items pl)).
      rewrite with_items_same. by apply state_insert_same.
  - unfold addVideoToPlaylist. rewrite Hf.
    unfold removeVideoFromPlaylist. by rewrite Hf.
Qed.

Lemma X2_witness :
  removeVideoFromPlaylist
    (addVideoToPlaylist Sample.plain "B" (Sample.bare "v9" "https://x.test/z"))
    "B" "v9"
  = Sample.plain.
Proof.
  apply (X2_remove_after_add Sample.plain "B"
           (Sample.bare "v9" "https://x.test/z")).
  intros i pl Hf. vm_compute in Hf. injection Hf as <- <-.
  repeat constructor; discriminate.
Defined.

Lemma findPlaylist_filter_other (ps : list Playlist) pid other :
  other <> pid ->
  snd <$> findPlaylist (filter (fun p => PL.id p <> pid) ps) other =
  snd <$> findPlaylist ps other.
Proof.
  intros Hne. induction ps as [|p ps IH]; [done|].
  destruct (decide (PL.id p = pid)) as [Hp|Hp].
  - rewrite filter_cons_False by (intros Hn; by apply Hn).
    rewrite IH, findPlaylist_cons, decide_False by congruence.
    rewrite <- option_fmap_compose. by apply option_fmap_ext; intros [].
  - rewrite filter_cons_True by done. rewrite !findPlaylist_cons.
    case_decide; [done|].
    rewrite <- !option_fmap_compose.
    etrans; [|etrans; [exact IH|]]; by apply option_fmap_ext; intros [].
Qed.

Lemma findPlaylist_filter_gone (ps : list Playlist) pid :
  findPlaylist (filter (fun p => PL.id p <> pid) ps) pid = None.
Proof.
  apply StoreFacts.findPlaylist_None, Forall_forall.
  intros p Hp. by apply list_elem_of_filter in Hp as [? _].
Qed.

(** X4. When a playlist with another identifier remains, [deletePlaylist]
    draws no identifier, leaves no playlist with the deleted identifier,
    keeps the other playlists in their order, so that every other
    identifier is looked up as before, keeps the version, and keeps the
    selection unless the selected playlist is the deleted one. *)
Theorem X4_deletePlaylist_lookup entropy now state pid n :
  filter (fun p => PL.id p <> pid) (playlists state) <> [] ->
  let state' := fst (deletePlaylist entropy now state pid n) in
  snd (deletePlaylist entropy now state pid n) = n /\
  findPlaylist (playlists state') pid = None /\
  (forall other, other <> pid ->
     snd <$> findPlaylist (playlists state') other =
     snd <$> findPlaylist (playlists state) other) /\
  playlists state' = filter (fun p => PL.id p <> pid) (playlists state) /\
  version state' = version state /\
  (selectedPlaylistId state <> pid ->
   selectedPlaylistId state' = selectedPlaylistId state).
Proof.
  intros Hne. unfold deletePlaylist.
  destruct (filter _ (playlists state)) as [|first rest] eqn:Hflt; [done|].
  cbn [fst snd ret playlists version selectedPlaylistId].
  rewrite <- Hflt. split_and!; try done.
  - apply findPlaylist_filter_gone.
  - intros other Hother. by apply findPlaylist_filter_other.
  - intros Hsel. by rewrite decide_False.
Qed.

Lemma X4_witness :
  let state' := fst (deletePlaylist Sample.entropy 0 Sample.plain "A" 0) in
  snd (deletePlaylist Sample.entropy 0 Sample.plain "A" 0) = 0%nat /\
  findPlaylist (playlists state') "A" = None /\
  (forall other, other <> "A" ->
     snd <$> findPlaylist (playlists state') other =
     snd <$> findPlaylist (playlists Sample.plain) other) /\
  playlists state' =
    filter (fun p => PL.id p <> "A") (playlists Sample.plain) /\
  version state' = version Sample.plain /\
  (selectedPlaylistId Sample.plain <> "A" ->
   selectedPlaylistId state' = selectedPlaylistId Sample.plain).
Proof.
  apply (X4_deletePlaylist_lookup Sample.entropy 0 Sample.plain "A" 0).
  vm_compute. discriminate.
Defined.

(** Replacing the items of a playlist that is in the collection. *)
Lemma upsert_with_items state pid i pl its :
  findPlaylist (playlists state) pid = Some (i, pl) ->
  let state' := upsertPlaylist state (PL.with_items pl its) in
  version state' = version state /\
  selectedPlaylistId state' = selectedPlaylistId state /\
  (fun p => (PL.id p, PL.name p, PL.createdAt p)) <$> playlists state' =
  (fun p => (PL.id p, PL.name p, PL.createdAt p)) <$> playlists state.
Proof.
  intros Hf state'.
  pose proof (StoreFacts.findPlaylist_Some _ _ _ _ Hf) as (Hi & Hid & _).
  subst state'. erewrite StoreFacts.upsertPlaylist_found;
    [|simpl; rewrite Hid; exact Hf].
  split_and!; [done|done|]. simpl.
  rewrite list_fmap_insert. apply list_insert_id.
  rewrite list_lookup_fmap, Hi. done.
Qed.

(** X5. The operations on items never add, remove, reorder or rename a
    playlist: after [addVideoToPlaylist], [removeVideoFromPlaylist],
    [updateVideoInPlaylist] and [moveVideo] the collection has the same
    version, the same selection and, position by position, playlists with
    the same identifier, name and creation time. *)
Theorem X5_item_operations_keep_playlists state :
  let same state' :=
    version state' = version state /\
    selectedPlaylistId state' = selectedPlaylistId state /\
    (fun p => (PL.id p, PL.name p, PL.createdAt p)) <$> playlists state' =
    (fun p => (PL.id p, PL.name p, PL.createdAt p)) <$> playlists state in
  (forall pid item, same (addVideoToPlaylist state pid item)) /\
  (forall pid vid, same (removeVideoFromPlaylist state pid vid)) /\
  (forall pid vid patch, same (updateVideoInPlaylist state pid vid patch)) /\
  (forall a b vid, same (moveVideo state a b vid)).
Proof.
  intros same.
  assert (Hadd : forall s pid item,
    version (addVideoToPlaylist s pid item) = version s /\
    selectedPlaylistId (addVideoToPlaylist s pid item) = selectedPlaylistId s /\
    (fun p => (PL.id p, PL.name p, PL.createdAt p)) <$>
      playlists (addVideoToPlaylist s pid item) =
    (fun p => (PL.id p, PL.name p, PL.createdAt p)) <$> playlists s).
  { intros s pid item. unfold addVideoToPlaylist.
    destruct (findPlaylist (playlists s) pid) as [[i pl]|] eqn:Hf; [|done].
    destruct (exists_key _ _); [done|]. by eapply upsert_with_items. }
  assert (Hrem : forall s pid vid,
    version (removeVideoFromPlaylist s pid vid) = version s /\
    selectedPlaylistId (removeVideoFromPlaylist s pid vid)
      = selectedPlaylistId s /\
    (fun p => (PL.id p, PL.name p, PL.createdAt p)) <$>
      playlists (removeVideoFromPlaylist s pid vid) =
    (fun p => (PL.id p, PL.name p, PL.createdAt p)) <$> playlists s).
  { intros s pid vid. unfold removeVideoFromPlaylist.
    destruct (findPlaylist (playlists s) pid) as [[i pl]|] eqn:Hf; [|done].
    by eapply upsert_with_items. }
  subst same. split_and!.
  - intros. apply Hadd.
  - intros. apply Hrem.
  - intros pid vid patch. unfold updateVideoInPlaylist.
    destruct (findPlaylist (playlists state) pid) as [[i pl]|] eqn:Hf; [|done].
    by eapply upsert_with_items.
  - intros a b vid. unfold moveVideo. case_decide; [done|].
    destruct (findPlaylist (playlists state) a) as [[ia from]|]; [|done].
    destruct (findPlaylist (playlists state) b) as [[ib to]|]; [|done].
    destruct (findItem _ _) as [item|]; [|done].
    destruct (Hadd (removeVideoFromPlaylist state a vid) b item)
      as (-> & -> & ->).
    apply Hrem.
Qed.



End StoreMore.

(** ** Handlers of the application *)

Module AppFacts.
Import Store App.

(** An item whose key is not changed by trimming keeps the stored keys of
    every playlist distinct when it is added. *)
Lemma addVideoToPlaylist_keys state pid item :
  videoKey item = storedKey item ->
  keys_distinct state -> keys_distinct (addVideoToPlaylist state pid item).
Proof.
  intros Hkey Hall. unfold addVideoToPlaylist.
  destruct (findPlaylist (playlists state) pid) as [[i pl]|] eqn:Hf; [|done].
  destruct (exists_key (PL.items pl) (videoKey item)) eqn:Hex; [done|].
  pose proof (StoreFacts.findPlaylist_Some _ _ _ _ Hf) as (Hi & Hid & _).
  erewrite StoreFacts.upsertPlaylist_found; [|simpl; rewrite Hid; exact Hf].
  unfold keys_distinct in *. simpl. apply Forall_insert; [done|]. simpl.
  apply NoDup_cons. split.
  - intros (v & Hv & Hin)%list_elem_of_fmap.
    assert (exists_key (PL.items pl) (videoKey item) = true); [|congruence].
    apply StoreFacts.exists_key_true. exists v. split; [done|congruence].
  - rewrite Forall_forall in Hall. apply Hall.
    apply list_elem_of_lookup. eauto.
Qed.

Section Handlers.

Context `{UrlLaws}.
Variable entropy : nat -> string.
Variable now : Z.
Variable fetchYouTubeOEmbed : string -> option (option string * option string).

(** The url that the normalizer returns has no white space around it. *)
Lemma normalizeYouTubeUrl_trimmed input r :
  Youtube.normalizeYouTubeUrl input = Some r ->
  JsString.trim (Youtube.url r) = Youtube.url r.
Proof.
  unfold Youtube.normalizeYouTubeUrl. cbv zeta.
  destruct (parse (JsString.trim input)) as [u|].
  - destruct (parse (href u)) as [cleaned|]; [|done].
    intros [= <-]. simpl. apply href_trimmed.
  - intros [= <-]. simpl. apply JsStringFacts.trim_idempotent.
Qed.

(** X3. [onAddVideo] keeps the stored keys of every playlist distinct:
    the item it builds carries the url and the videoId of the normalizer,
    whose url has no surrounding white space, so that the key it is tested
    with is the key it is stored with. *)
Theorem X3_onAddVideo_keeps_keys_distinct
    playlistId url tags sourceTitle state n :
  keys_distinct state ->
  keys_distinct
    (fst (onAddVideo entropy now fetchYouTubeOEmbed playlistId url tags
            sourceTitle state n)).
Proof.
  intros Hall. unfold onAddVideo.
  destruct (Youtube.normalizeYouTubeUrl url) as [r|] eqn:Hr; [|done].
  destruct (fetchYouTubeOEmbed (Youtube.url r)) as [[title thumb]|]; [|done].
  unfold bind, newId, ret. cbn [fst].
  apply addVideoToPlaylist_keys; [|done].
  apply StoreFacts.videoKey_storedKey. simpl. intros _.
  by eapply normalizeYouTubeUrl_trimmed.
Qed.

End Handlers.

Lemma X3_witness :
  keys_distinct
    (fst (onAddVideo (H := SimpleUrl.api) Sample.entropy 42
            (fun _ => Some (Some "A title", None))
            "B" " https://youtu.be/abc?feature=share " ["dev"] None
            Sample.plain 0)).
Proof.
  apply (@X3_onAddVideo_keeps_keys_distinct SimpleUrl.api SimpleUrlFacts.laws).
  unfold keys_distinct. compute_done.
Defined.

(** *** The selection *)

Lemma existsb_selected (ps : list Playlist) sel :
  existsb (fun p => bool_decide (PL.id p = sel)) ps = true <->
  exists p, p ∈ ps /\ PL.id p = sel.
Proof.
  rewrite existsb_exists. split.
  - intros (p & Hin & Hp). apply bool_decide_eq_true in Hp.
    exists p. by rewrite list_elem_of_In.
  - intros (p & Hin & Hp). exists p. rewrite <- list_elem_of_In.
    split; [done|]. by apply bool_decide_eq_true.
Qed.

(** X7. [pickDefaultPlaylistId] returns the selected identifier when a
    playlist has it and the identifier of the first playlist otherwise, so
    that its result always names a playlist of the collection; on a
    collection without playlists it throws. *)
Theorem X7_pickDefaultPlaylistId state :
  (playlists state = [] -> pickDefaultPlaylistId state = None) /\
  (forall first rest, playlists state = first :: rest ->
     exists sel,
       pickDefaultPlaylistId state = Some sel /\
       (exists p, p ∈ playlists state /\ PL.id p = sel) /\
       ((exists p, p ∈ playlists state /\ PL.id p = selectedPlaylistId state)
        -> sel = selectedPlaylistId state) /\
       (~ (exists p, p ∈ playlists state /\
                     PL.id p = selectedPlaylistId state)
        -> sel = PL.id first)).
Proof.
  unfold pickDefaultPlaylistId. split.
  - intros ->. done.
  - intros first rest Hps.
    destruct (existsb _ (playlists state)) eqn:Hex.
    + exists (selectedPlaylistId state).
      apply existsb_selected in Hex. split_and!; [done|done|done|].
      intros Hn. by destruct Hn.
    + exists (PL.id first). rewrite Hps. split_and!; [done| | |done].
      * exists first. split; [left|done].
      * intros Hsel. rewrite <- Hps in Hsel.
        apply existsb_selected in Hsel. congruence.
Qed.

(** What [withDefaultSelection] makes of a collection with a playlist. *)
Lemma withDefaultSelection_spec s :
  playlists s <> [] ->
  exists s',
    Merge.withDefaultSelection s = Some s' /\
    playlists s' = playlists s /\ version s' = version s /\
    invariant s' /\
    ((exists p, p ∈ playlists s /\ PL.id p = selectedPlaylistId s) ->
     selectedPlaylistId s' = selectedPlaylistId s) /\
    (~ (exists p, p ∈ playlists s /\ PL.id p = selectedPlaylistId s) ->
     PL.id <$> head (playlists s) = Some (selectedPlaylistId s')).
Proof.
  intros Hne. unfold Merge.withDefaultSelection, pickDefaultPlaylistId.
  destruct (existsb _ (playlists s)) eqn:Hex.
  - apply existsb_selected in Hex. eexists. split; [done|]. simpl.
    split_and!; try done; intros Hn; by destruct Hn.
  - destruct (head (playlists s)) as [first|] eqn:Hh.
    + simpl. eexists. split; [done|]. simpl. split_and!; try done.
      * split; [done|]. exists first. split; [|done].
        destruct (playlists s) as [|f r]; [done|].
        simpl in Hh. injection Hh as ->. left.
      * intros Hsel. apply existsb_selected in Hsel. congruence.
    + by destruct (playlists s).
Qed.

(** X8. Importing with replacement: when the import has playlists, the
    collection becomes these playlists, with the first of them selected
    (its identifier being non-empty); when it has none, the playlists of
    the collection are kept. In both cases the result satisfies the
    invariant. Only when neither has a playlist does the handler throw. *)
Theorem X8_applyReplace state imported :
  (forall first rest, playlists imported = first :: rest ->
     exists s',
       Merge.applyReplace state imported = Some s' /\
       playlists s' = playlists imported /\ version s' = 1%Z /\
       invariant s' /\
       (JsString.truthy (PL.id first) = true ->
        selectedPlaylistId s' = PL.id first)) /\
  (playlists imported = [] -> playlists state <> [] ->
     exists s',
       Merge.applyReplace state imported = Some s' /\
       playlists s' = playlists state /\ version s' = 1%Z /\
       invariant s' /\
       (invariant state ->
        selectedPlaylistId s' = selectedPlaylistId state)) /\
  (playlists imported = [] -> playlists state = [] ->
     Merge.applyReplace state imported = None).
Proof.
  unfold Merge.applyReplace. split_and!.
  - intros first rest Hps. rewrite Hps. cbn [head fmap option_fmap option_map].
    match goal with |- context [Merge.withDefaultSelection ?s] =>
      destruct (withDefaultSelection_spec s) as (s' & Hs' & Hpl & Hv & Hinv & Hsel & _);
        [done|] end.
    exists s'. split_and!; try done. intros Ht. simpl in Hsel.
    rewrite Hsel.
    + unfold JsString.or_else. by rewrite Ht.
    + exists first. split; [left|]. unfold JsString.or_else. by rewrite Ht.
  - intros Himp Hne. rewrite Himp. cbn [head fmap option_fmap option_map].
    match goal with |- context [Merge.withDefaultSelection ?s] =>
      destruct (withDefaultSelection_spec s) as (s' & Hs' & Hpl & Hv & Hinv & Hsel & _);
        [done|] end.
    exists s'. split_and!; try done. intros [_ Hin]. by apply Hsel.
  - intros -> ->. done.
Qed.

(** *** Creating and renaming a playlist *)

Section Playlists.

Variable entropy : nat -> string.
Variable now : Z.

(** X11. [onCreatePlaylist] draws one identifier and yields a state that
    satisfies the invariant whatever the state before: the new playlist is
    in the collection, empty, selected, and named with the trimmed input,
    or with the default label when the input is blank, so never with the
    empty name. It is the first playlist when its identifier is new. *)
Theorem X11_onCreatePlaylist name state n :
  let state' := fst (onCreatePlaylist entropy now name state n) in
  let pl := {| PL.id := "pl_" +:+ entropy n;
               PL.name := if JsString.truthy (JsString.trim name)
                          then JsString.trim name else new_list_label;
               PL.createdAt := now; PL.items := [] |} in
  snd (onCreatePlaylist entropy now name state n) = S n /\
  invariant state' /\
  selectedPlaylistId state' = PL.id pl /\
  (exists i, findPlaylist (playlists state') (PL.id pl) = Some (i, pl)) /\
  PL.name pl <> "" /\
  (Forall (fun p => PL.id p <> PL.id pl) (playlists state) ->
   playlists state' = pl :: playlists state).
Proof.
  intros state' pl.
  assert (Hst : state' =
    {| version := version (upsertPlaylist state pl);
       selectedPlaylistId := PL.id pl;
       playlists := playlists (upsertPlaylist state pl) |}) by done.
  destruct (StoreMore.findPlaylist_upsert_same state pl) as [i Hi].
  split_and!.
  - done.
  - rewrite Hst. split; cbn [playlists selectedPlaylistId].
    + intros Hnil. by rewrite Hnil in Hi.
    + exists pl. split; [|done].
      apply StoreFacts.findPlaylist_Some in Hi as (Hi & _).
      apply list_elem_of_lookup. eauto.
  - by rewrite Hst.
  - rewrite Hst. simpl. eauto.
  - simpl. destruct (JsString.truthy (JsString.trim name)) eqn:Ht.
    + intros Hnil. by rewrite Hnil in Ht.
    + done.
  - intros Hnew. apply StoreFacts.findPlaylist_None in Hnew.
    rewrite Hst. cbn [playlists]. unfold upsertPlaylist. by rewrite Hnew.
Qed.

End Playlists.

(** X12. [onRenamePlaylist] with a blank name, or for an identifier that
    no playlist has, leaves the state as it is. Otherwise the playlist
    with the identifier gets the trimmed name and keeps its place, its
    identifier, its creation time and its items; every other identifier
    is looked up as before, and the version and the selection are kept. *)
Theorem X12_onRenamePlaylist playlistId name state :
  let state' := onRenamePlaylist playlistId name state in
  (findPlaylist (playlists state) playlistId = None -> state' = state) /\
  (JsString.truthy (JsString.trim name) = false -> state' = state) /\
  (forall i pl,
     findPlaylist (playlists state) playlistId = Some (i, pl) ->
     JsString.truthy (JsString.trim name) = true ->
     findPlaylist (playlists state') playlistId
       = Some (i, PL.with_name pl (JsString.trim name)) /\
     (forall other, other <> playlistId ->
        findPlaylist (playlists state') other
        = findPlaylist (playlists state) other)) /\
  version state' = version state /\
  selectedPlaylistId state' = selectedPlaylistId state /\
  length (playlists state') = length (playlists state).
Proof.
  intros state'. subst state'. unfold onRenamePlaylist.
  destruct (findPlaylist (playlists state) playlistId) as [[i pl]|] eqn:Hf.
  - pose proof (StoreFacts.findPlaylist_Some _ _ _ _ Hf) as (Hi & Hid & _).
    set (pl' := PL.with_name pl _).
    assert (Hup : upsertPlaylist state pl' =
      {| version := version state;
         selectedPlaylistId := selectedPlaylistId state;
         playlists := <[i := pl']> (playlists state) |}).
    { apply StoreFacts.upsertPlaylist_found with pl. simpl. by rewrite Hid. }
    rewrite Hup. split_and!; try done.
    + intros Ht. subst pl'. unfold JsString.or_else. rewrite Ht.
      replace (PL.with_name pl (PL.name pl)) with pl by by destruct pl.
      by apply StoreMore.state_insert_same.
    + intros i' pl0 [= <- <-] Ht. subst pl'. unfold JsString.or_else.
      rewrite Ht. simpl. split.
      * by eapply StoreFacts.findPlaylist_insert_same.
      * intros other Hother.
        by erewrite StoreFacts.findPlaylist_insert_other.
    + simpl. by rewrite length_insert.
  - split_and!; done.
Qed.

End AppFacts.

(** ** More on the import handlers *)

Module MergeMore.
Import Store Merge.

Section MergeMore.

Variable toLowerCase : string -> string.

(** Every imported playlist is renamed, and keeps everything but its name,
    which is its base name or its base name with a counter from 2. *)
Lemma renameAll_names names ps :
  exists merged,
    renameAll toLowerCase names ps = Some merged /\
    Forall2 (fun p p' =>
               p' = PL.with_name p (PL.name p') /\
               (PL.name p' = baseName p \/
                exists i, (2 <= i)%nat /\ PL.name p' = numbered (baseName p) i))
      ps merged.
Proof.
  revert names. induction ps as [|p ps IH]; intros names.
  - exists []. split; [done|constructor].
  - simpl.
    destruct (MergeFacts.renameOne_spec toLowerCase names p)
      as (name & -> & Hfree & Hcoll).
    destruct (IH ({[nameKey toLowerCase name]} ∪ names)) as (rest & -> & Hall).
    eexists. split; [done|]. constructor; [|done]. split; [done|]. simpl.
    cbv zeta in Hfree, Hcoll.
    destruct (decide (nameKey toLowerCase (baseName p) ∈ names)) as [Hin|Hout].
    + destruct (Hcoll Hin) as (i & Hi & -> & _). right. eauto.
    + left. by apply Hfree.
Qed.

(** Under the condition of [renameOne_fresh] on every imported playlist,
    the keys of the names given are distinct from one another and from
    the names of the set. *)
Lemma renameAll_fresh names ps merged :
  (forall p i, p ∈ ps ->
     nameKey toLowerCase (numbered (baseName p) i) =
     numbered (nameKey toLowerCase (baseName p)) i) ->
  renameAll toLowerCase names ps = Some merged ->
  NoDup (nameKey toLowerCase ∘ PL.name <$> merged) /\
  Forall (fun p' => nameKey toLowerCase (PL.name p') ∉ names) merged.
Proof.
  revert names merged. induction ps as [|p ps IH]; intros names merged Hkey.
  - intros [= <-]. split; constructor.
  - simpl. destruct (renameOne toLowerCase names p) as [[p' names']|] eqn:Hone;
      [|done].
    destruct (renameAll toLowerCase names' ps) as [rest|] eqn:Hrest; [|done].
    intros [= <-].
    destruct (MergeFacts.renameOne_fresh toLowerCase names p p' names')
      as [Hp' ->]; [by intros i; apply Hkey; left|done|].
    destruct (IH _ _ (fun q i Hq => Hkey q i (list_elem_of_further _ _ _ Hq))
                Hrest) as [Hnd Hout].
    split.
    + cbn [fmap list_fmap]. apply NoDup_cons. split; [|done].
      intros (q & Hq & Hin)%list_elem_of_fmap.
      rewrite Forall_forall in Hout. apply (Hout q Hin).
      simpl in Hq. rewrite <- Hq. apply elem_of_union. left.
      by apply elem_of_singleton.
    + constructor; [done|]. eapply Forall_impl; [exact Hout|].
      intros q Hq Hin. apply Hq, elem_of_union. by right.
Qed.

(** X9. Importing with merge, when the collection or the import has a
    playlist: the handler returns; the playlists of the collection come
    first, as they were, followed by one playlist for each imported
    playlist, in order, equal to it but for the name, which is the imported
    name (or the import label for the empty name) with or without a
    counter from 2; the result satisfies the invariant, and the selection
    is kept when it named a playlist. *)
Theorem X9_applyMerge_keeps_and_appends state imported :
  playlists state ++ playlists imported <> [] ->
  exists s' merged,
    applyMerge toLowerCase state imported = Some s' /\
    playlists s' = playlists state ++ merged /\
    Forall2 (fun p p' =>
               p' = PL.with_name p (PL.name p') /\
               (PL.name p' = baseName p \/
                exists i, (2 <= i)%nat /\ PL.name p' = numbered (baseName p) i))
      (playlists imported) merged /\
    version s' = 1%Z /\
    invariant s' /\
    ((exists p, p ∈ playlists state /\ PL.id p = selectedPlaylistId state) ->
     selectedPlaylistId s' = selectedPlaylistId state).
Proof.
  intros Hne. unfold applyMerge.
  destruct (renameAll_names (namesOf toLowerCase (playlists state))
              (playlists imported)) as (merged & -> & Hall).
  match goal with |- context [withDefaultSelection ?s] =>
    destruct (AppFacts.withDefaultSelection_spec s)
      as (s' & Hs' & Hpl & Hv & Hinv & Hsel & _) end.
  { simpl. intros Hnil. apply app_eq_nil in Hnil as [Hs Hm]. subst merged.
    apply Forall2_nil_inv_r in Hall. apply Hne. by rewrite Hs, Hall. }
  exists s', merged. split_and!; try done.
  intros (p & Hin & Hp). apply Hsel. exists p. simpl.
  split; [|done]. apply elem_of_app. by left.
Qed.

(** X10. When numbering a base name and taking the key commute for every
    imported playlist, which is so for names that do not end with white
    space, the names that a merge gives to the imported playlists are
    distinct from one another and from the names of the collection, up to
    trimming and case. *)
Theorem X10_merge_names_unique state imported s' :
  (forall p i, p ∈ playlists imported ->
     nameKey toLowerCase (numbered (baseName p) i) =
     numbered (nameKey toLowerCase (baseName p)) i) ->
  applyMerge toLowerCase state imported = Some s' ->
  exists merged,
    playlists s' = playlists state ++ merged /\
    length merged = length (playlists imported) /\
    NoDup (nameKey toLowerCase ∘ PL.name <$> merged) /\
    (forall p p', p ∈ playlists state -> p' ∈ merged ->
       nameKey toLowerCase (PL.name p) <> nameKey toLowerCase (PL.name p')).
Proof.
  intros Hkey. unfold applyMerge.
  destruct (renameAll toLowerCase _ (playlists imported)) as [merged|] eqn:Hm;
    [|done].
  destruct (renameAll_fresh _ _ _ Hkey Hm) as [Hnd Hout].
  destruct (renameAll_names (namesOf toLowerCase (playlists state))
              (playlists imported)) as (merged' & Hm' & Hall).
  rewrite Hm in Hm'. injection Hm' as <-.
  unfold withDefaultSelection. destruct (pickDefaultPlaylistId _); [|done].
  intros [= <-]. exists merged. simpl. split_and!; [done| |done|].
  - symmetry. by eapply Forall2_length.
  - intros p p' Hp Hp' Heq. rewrite Forall_forall in Hout.
    apply (Hout p' Hp'). rewrite <- Heq. unfold namesOf.
    apply elem_of_list_to_set, list_elem_of_fmap. by exists p.
Qed.

End MergeMore.

(** *** Names without white space at the end *)

Lemma toLowerCaseAscii_app a b :
  JsString.toLowerCaseAscii (a +:+ b) =
  JsString.toLowerCaseAscii a +:+ JsString.toLowerCaseAscii b.
Proof. induction a as [|c a IH]; [done|]. simpl. by rewrite IH. Qed.

Lemma toLowerCaseAscii_digits d :
  JsString.toLowerCaseAscii (NilEmpty.string_of_uint d) =
  NilEmpty.string_of_uint d.
Proof. induction d; simpl; [done|..]; by rewrite IHd. Qed.

Lemma toLowerCaseAscii_of_nat i :
  JsString.toLowerCaseAscii (JsString.of_nat i) = JsString.of_nat i.
Proof.
  unfold JsString.of_nat, NilZero.string_of_uint.
  destruct (Nat.to_uint i); first [done | apply toLowerCaseAscii_digits].
Qed.

Lemma trim_numbered c b i :
  SimpleUrl.printable c = true ->
  JsString.trim (numbered (String c b) i) = numbered (String c b) i.
Proof.
  intros Hc. apply JsStringFacts.trim_stable.
  - cbn [numbered append list_ascii_of_string].
    exact (proj1 (SimpleUrlFacts.printable_no_space c _ Hc)).
  - unfold numbered.
    rewrite !JsStringFacts.list_ascii_of_string_app, !rev_app_distr.
    cbn [list_ascii_of_string rev app].
    exact (proj2 (SimpleUrlFacts.printable_no_space ")"%char _ eq_refl)).
Qed.

(** For a name that starts with a printable ASCII character and has no
    white space at its end, the key of the numbered name is the numbered
    key. *)
Lemma nameKey_numbered_ascii c b i :
  SimpleUrl.printable c = true ->
  JsString.trim (String c b) = String c b ->
  nameKey JsString.toLowerCaseAscii (numbered (String c b) i) =
  numbered (nameKey JsString.toLowerCaseAscii (String c b)) i.
Proof.
  intros Hc Htrim. unfold nameKey. rewrite trim_numbered, Htrim by done.
  unfold numbered. by rewrite !toLowerCaseAscii_app, toLowerCaseAscii_of_nat.
Qed.

Lemma X9_witness :
  exists s' merged,
    applyMerge JsString.toLowerCaseAscii Sample.music Sample.music_spaced
      = Some s' /\
    playlists s' = playlists Sample.music ++ merged /\
    Forall2 (fun p p' =>
               p' = PL.with_name p (PL.name p') /\
               (PL.name p' = baseName p \/
                exists i, (2 <= i)%nat /\ PL.name p' = numbered (baseName p) i))
      (playlists Sample.music_spaced) merged /\
    version s' = 1%Z /\
    invariant s' /\
    ((exists p, p ∈ playlists Sample.music /\
                PL.id p = selectedPlaylistId Sample.music) ->
     selectedPlaylistId s' = selectedPlaylistId Sample.music).
Proof.
  apply (X9_applyMerge_keeps_and_appends JsString.toLowerCaseAscii
           Sample.music Sample.music_spaced).
  discriminate.
Defined.

Lemma X10_witness :
  exists s' merged,
    applyMerge JsString.toLowerCaseAscii Sample.music Sample.music_twice
      = Some s' /\
    playlists s' = playlists Sample.music ++ merged /\
    length merged = length (playlists Sample.music_twice) /\
    NoDup (nameKey JsString.toLowerCaseAscii ∘ PL.name <$> merged) /\
    (forall p p', p ∈ playlists Sample.music -> p' ∈ merged ->
       nameKey JsString.toLowerCaseAscii (PL.name p) <>
       nameKey JsString.toLowerCaseAscii (PL.name p')).
Proof.
  eexists.
  refine (let H := X10_merge_names_unique JsString.toLowerCaseAscii
                     Sample.music Sample.music_twice _ _ eq_refl in _).
  destruct H as (merged & H). exists merged. split; [reflexivity|exact H].
  Unshelve.
  intros p i Hp.
  assert (baseName p = "Music" \/ baseName p = "music" \/ baseName p = "Jazz")
    as [-> | [-> | ->]].
  { simpl in Hp. set_unfold. destruct Hp as [-> | [-> | [-> | []]]]; auto. }
  all: by apply nameKey_numbered_ascii.
Defined.

End MergeMore.

(** ** More on the share codec *)

Module ShareMore.
Import Share Minted ShareFacts.

(** *** The identifiers the decoder mints *)

Section Minted.

Variable entropy : nat -> string.
Variable now : Z.

Lemma from_draws_nil n : from_draws entropy n 0 [].
Proof. split; [done|]. intros j id Hj. by rewrite lookup_nil in Hj. Qed.

Lemma from_draws_cons n m id ids :
  id = "pl_" +:+ entropy n \/ id = "v_" +:+ entropy n ->
  from_draws entropy (S n) m ids -> from_draws entropy n (S m) (id :: ids).
Proof.
  intros Hid [Hlen Hids]. split; [simpl; by rewrite Hlen|].
  intros [|j] id' Hj; simpl in Hj.
  - injection Hj as <-. by rewrite Nat.add_0_r.
  - replace (n + S j)%nat with (S n + j)%nat by lia. by apply Hids.
Qed.

Lemma from_draws_app n m1 m2 ids1 ids2 :
  from_draws entropy n m1 ids1 -> from_draws entropy (n + m1) m2 ids2 ->
  from_draws entropy n (m1 + m2) (ids1 ++ ids2).
Proof.
  intros [Hlen1 H1] [Hlen2 H2]. split; [by rewrite length_app, Hlen1, Hlen2|].
  intros j id Hj. apply lookup_app_Some in Hj as [Hj|[Hge Hj]].
  - by apply H1.
  - apply H2 in Hj. rewrite Hlen1 in *.
    by replace (n + j)%nat with (n + m1 + (j - m1))%nat by lia.
Qed.

(** Identifiers made from draws that differ are distinct. *)
Lemma from_draws_NoDup n m ids :
  (forall i j, (n <= i < j)%nat -> (j < n + m)%nat -> entropy i <> entropy j) ->
  from_draws entropy n m ids -> NoDup ids.
Proof.
  intros Hinj [Hlen Hids]. apply NoDup_alt. intros i j id Hi Hj.
  destruct (decide (i = j)) as [|Hne]; [done|exfalso].
  pose proof (lookup_lt_Some _ _ _ Hi). pose proof (lookup_lt_Some _ _ _ Hj).
  assert (Hdiff : entropy (n + i) <> entropy (n + j)).
  { destruct (decide (i < j)%nat).
    - apply Hinj; lia.
    - intros Heq. symmetry in Heq. revert Heq. apply Hinj; lia. }
  apply Hids in Hi. apply Hids in Hj.
  destruct Hi as [-> | ->], Hj as [Hj | Hj]; simpl in Hj;
    first [discriminate Hj | injection Hj as Hj; by apply Hdiff].
Qed.

Lemma decodeItem_id it n d n' :
  decodeItem entropy now it n = inr (d, n') ->
  n' = S n /\ DItem.id d = "v_" +:+ entropy n.
Proof.
  unfold decodeItem, dbind, lift, newId, try_opt, dret, throw.
  destruct it; simpl; intros Hd; by simplify_eq.
Qed.

Lemma mapD_decodeItem_ids elems n ds n' :
  mapD (decodeItem entropy now) elems n = inr (ds, n') ->
  n' = (n + length elems)%nat /\
  from_draws entropy n (length elems) (DItem.id <$> ds).
Proof.
  revert n ds n'. induction elems as [|it elems IH]; intros n ds n'.
  - intros [= <- <-]. split; [simpl; lia|apply from_draws_nil].
  - cbn [mapD]. unfold dbind at 1.
    destruct (decodeItem entropy now it n) as [e|[d n1]] eqn:Hd; [done|].
    apply decodeItem_id in Hd as [-> Hid]. unfold dbind at 1.
    destruct (mapD _ elems (S n)) as [e|[ds' n2]] eqn:Hds; [done|].
    intros [= <- <-]. destruct (IH _ _ _ Hds) as [-> Hrest].
    split; [simpl; lia|]. cbn [fmap list_fmap length].
    apply from_draws_cons; [by right|done].
Qed.

Lemma decodePlaylist_ids pl n d n' :
  decodePlaylist entropy now pl n = inr (d, n') ->
  exists m, n' = (n + S m)%nat /\
    from_draws entropy n (S m)
      (DPlaylist.id d :: (DItem.id <$> DPlaylist.items d)).
Proof.
  unfold decodePlaylist, dbind, lift, newId, try_opt, dret, throw.
  destruct (Js.get "i" pl) as [i|]; [|done].
  destruct (Js.or i (Js.Arr [])) as [| |b|z|str|elems|fs]; try done.
  destruct (mapD _ elems (S n)) as [e|[ds n1]] eqn:Hds; [done|].
  destruct (Js.get "n" pl); [|done]. destruct (Js.get "c" pl); [|done].
  intros [= <- <-]. apply mapD_decodeItem_ids in Hds as [-> Hids].
  exists (length elems). split; [lia|]. simpl.
  apply from_draws_cons; [by left|done].
Qed.

Lemma mapD_decodePlaylist_ids ps n ds n' :
  mapD (decodePlaylist entropy now) ps n = inr (ds, n') ->
  exists m, n' = (n + m)%nat /\ (length ds <= m)%nat /\
    from_draws entropy n m
      (concat ((fun p => DPlaylist.id p :: (DItem.id <$> DPlaylist.items p))
                 <$> ds)).
Proof.
  revert n ds n'. induction ps as [|pl ps IH]; intros n ds n'.
  - intros [= <- <-]. exists 0%nat. split_and!; [lia|done|apply from_draws_nil].
  - cbn [mapD]. unfold dbind at 1.
    destruct (decodePlaylist entropy now pl n) as [e|[d n1]] eqn:Hd; [done|].
    apply decodePlaylist_ids in Hd as (m1 & -> & H1). unfold dbind at 1.
    destruct (mapD _ ps (n + S m1)) as [e|[ds' n2]] eqn:Hds; [done|].
    intros [= <- <-]. destruct (IH _ _ _ Hds) as (m2 & -> & Hlen & H2).
    exists (S m1 + m2)%nat. split_and!; [lia|simpl; lia|].
    cbn [fmap list_fmap concat]. by apply from_draws_app.
Qed.

(** What [decodePayload] returns: the version 1, and as selection the
    identifier of the first playlist, or a fresh one when there is none. *)
Lemma decodePayload_returns payload n d n' :
  decodePayload entropy now payload n = inr (d, n') ->
  d_version d = 1%Z /\
  exists m, from_draws entropy n m (ids_of d) /\
    match d_playlists d with
    | [] => n' = S n /\ d_selectedPlaylistId d = "pl_" +:+ entropy n
    | first :: _ =>
        n' = (n + m)%nat /\ d_selectedPlaylistId d = DPlaylist.id first
    end.
Proof.
  unfold decodePayload, dbind, throw.
  destruct (negb (Js.truthy payload)); [done|].
  destruct (Js.get "v" payload) as [[| |b|v|str|l|fs]|]; try done.
  destruct v as [|[]|]; try done.
  destruct (Js.get "p" payload) as [[| |b|z|str|ps|fs]|]; try done.
  destruct (mapD _ ps n) as [e|[ds n1]] eqn:Hds; [done|].
  apply mapD_decodePlaylist_ids in Hds as (m & -> & Hlen & Hids).
  destruct ds as [|first rest].
  - assert (m = 0%nat) as -> by (destruct Hids as [Hm _]; by simpl in Hm).
    rewrite Nat.add_0_r. unfold lift, newId, dret. intros [= <- <-].
    split; [done|]. exists 0%nat. by split.
  - pose proof (Hids) as [_ Hfirst]. specialize (Hfirst 0%nat _ eq_refl).
    assert (Ht : JsString.truthy (DPlaylist.id first) = true)
      by by destruct Hfirst as [-> | ->].
    rewrite Ht. unfold dret. intros [= <- <-]. split; [done|].
    exists m. by split.
Qed.

Section Decoder.

Variable atob : string -> option (list Byte.byte).
Variable inflateRaw : list Byte.byte -> option (list Byte.byte).
Variable fromUtf8Bytes : list Byte.byte -> string.
Variable JSON_parse : string -> option Js.value.

Lemma decodeShareToState_payload encoded n d n' :
  decodeShareToState atob inflateRaw fromUtf8Bytes JSON_parse entropy now
    encoded n = inr (d, n') ->
  exists payload, decodePayload entropy now payload n = inr (d, n').
Proof.
  unfold decodeShareToState, dbind, try_opt, dret, throw.
  destruct (match_v1 _) as [data|]; [|done].
  destruct (base64UrlDecode atob data) as [bytes|]; [|done].
  destruct (inflateRaw bytes) as [inflated|]; [|done].
  destruct (JSON_parse _) as [payload|]; [|done]. eauto.
Qed.

(** X15. The identifiers of a decoded state, those of its playlists and
    of their items, are pairwise distinct when the draws that [newId] makes
    during the call are, and there are as many as draws were made. *)
Theorem X15_decoded_identifiers_distinct encoded n d n' :
  decodeShareToState atob inflateRaw fromUtf8Bytes JSON_parse entropy now
    encoded n = inr (d, n') ->
  (forall i j, (n <= i < j)%nat -> (j < n')%nat -> entropy i <> entropy j) ->
  NoDup (ids_of d) /\
  (d_playlists d <> [] -> length (ids_of d) = (n' - n)%nat).
Proof.
  intros Hd Hinj. apply decodeShareToState_payload in Hd as (payload & Hd).
  apply decodePayload_returns in Hd as (_ & m & Hids & Hsel).
  destruct (d_playlists d) as [|first rest] eqn:Hps.
  - unfold ids_of. rewrite Hps. split; [constructor|done].
  - destruct Hsel as [-> _]. split.
    + by eapply from_draws_NoDup.
    + intros _. destruct Hids as [-> _]. lia.
Qed.

(** X16. A decoded state with a playlist has the version 1 and selects
    its first playlist, so that it satisfies the collection invariant. *)
Theorem X16_decoded_selects_first_playlist encoded n d n' :
  decodeShareToState atob inflateRaw fromUtf8Bytes JSON_parse entropy now
    encoded n = inr (d, n') ->
  d_playlists d <> [] ->
  d_version d = 1%Z /\
  (DPlaylist.id <$> head (d_playlists d)) = Some (d_selectedPlaylistId d) /\
  Share.invariant d.
Proof.
  intros Hd Hne. apply decodeShareToState_payload in Hd as (payload & Hd).
  apply decodePayload_returns in Hd as (Hv & m & _ & Hsel).
  destruct (d_playlists d) as [|first rest] eqn:Hps; [done|].
  destruct Hsel as [_ Hsel]. split_and!; [done|by rewrite Hsel|].
  split; [by rewrite Hps|]. exists first. rewrite Hps. split; [left|done].
Qed.

End Decoder.
End Minted.

Lemma X15_witness :
  let token := Reference.encode Sample.shared (mkOptions false false) in
  exists d n',
    Reference.decode Sample.entropy 42 token 0 = inr (d, n') /\
    NoDup (ids_of d) /\
    (d_playlists d <> [] -> length (ids_of d) = (n' - 0)%nat).
Proof.
  intros token.
  destruct (Reference.decode Sample.entropy 42 token 0) as [e|[d n']] eqn:Hd;
    [vm_compute in Hd; discriminate|].
  exists d, n'. split; [done|].
  apply (X15_decoded_identifiers_distinct Sample.entropy 42 Reference.atob
           Reference.inflateRaw Reference.fromUtf8Bytes Reference.JSON_parse
           token 0 d n' Hd).
  intros i j Hij _ Heq. unfold Sample.entropy in Heq.
  cbn [append] in Heq. injection Heq as Heq.
  apply JsStringFacts.of_nat_inj in Heq. lia.
Defined.

Lemma X16_witness :
  let token := Reference.encode Sample.shared (mkOptions false false) in
  exists d n',
    Reference.decode Sample.entropy 42 token 0 = inr (d, n') /\
    d_version d = 1%Z /\
    (DPlaylist.id <$> head (d_playlists d)) = Some (d_selectedPlaylistId d) /\
    Share.invariant d.
Proof.
  intros token.
  destruct (Reference.decode Sample.entropy 42 token 0) as [e|[d n']] eqn:Hd;
    [vm_compute in Hd; discriminate|].
  exists d, n'. split; [done|].
  apply (X16_decoded_selects_first_playlist Sample.entropy 42 Reference.atob
           Reference.inflateRaw Reference.fromUtf8Bytes Reference.JSON_parse
           token 0 d n' Hd).
  vm_compute in Hd. injection Hd as <- _. discriminate.
Defined.

(** *** The base64url layer and the scope of a share link *)

Lemma url_char_safe c :
  base64url_char c = true ->
  c <> "+"%char /\ c <> "/"%char /\ c <> "="%char.
Proof.
  destruct c as [[] [] [] [] [] [] [] []]; try discriminate; intros _;
    split_and!; discriminate.
Qed.

(** X13. On bytes for which [btoa] returns base64 text that [atob] reads
    back, [base64UrlDecode] undoes [base64UrlEncode]; the encoded text is
    not empty and consists of letters, digits, [-] and [_] only: it has no
    [+], no [/] and no padding. *)
Theorem X13_base64Url_layer btoa atob bytes :
  atob (btoa bytes) = Some bytes ->
  base64_shaped (btoa bytes) ->
  let data := base64UrlEncode btoa bytes in
  base64UrlDecode atob data = Some bytes /\
  data <> "" /\
  Forall (fun c => base64url_char c = true /\
                   c <> "+"%char /\ c <> "/"%char /\ c <> "="%char)
    (list_ascii_of_string data).
Proof.
  intros Hatob Hshape data.
  destruct (base64Url_roundtrip btoa atob bytes Hatob Hshape)
    as (Hdec & Hne & Hchars).
  split_and!; [done|done|].
  apply JsStringFacts.all_chars_Forall in Hchars.
  eapply Forall_impl; [exact Hchars|]. intros c Hc. split; [done|].
  by apply url_char_safe.
Qed.

Lemma X13_witness :
  let bytes := [Byte.xfb; Byte.xff] in
  let data := base64UrlEncode Reference.btoa bytes in
  Reference.btoa bytes = "+/8=" /\ data = "-_8" /\
  base64UrlDecode Reference.atob data = Some bytes /\
  data <> "" /\
  Forall (fun c => base64url_char c = true /\
                   c <> "+"%char /\ c <> "/"%char /\ c <> "="%char)
    (list_ascii_of_string data).
Proof.
  intros bytes data. split; [reflexivity|]. split; [reflexivity|].
  apply (X13_base64Url_layer Reference.btoa Reference.atob bytes).
  - reflexivity.
  - exists "+/8", "=". split_and!; first [reflexivity | discriminate | tauto].
Defined.

Section Scope.

Variable btoa : list Byte.byte -> string.
Variable atob : string -> option (list Byte.byte).
Variable deflateRaw : list Byte.byte -> list Byte.byte.
Variable inflateRaw : list Byte.byte -> option (list Byte.byte).
Variable toUtf8Bytes : string -> list Byte.byte.
Variable fromUtf8Bytes : list Byte.byte -> string.
Variable JSON_stringify : Js.value -> string.
Variable JSON_parse : string -> option Js.value.
Variable entropy : nat -> string.
Variable now : Z.

(** X14. With the scope "selected" the link carries the playlists whose
    identifier is the selected one, and nothing of the others: on a
    platform that undoes its encoders on the token at hand, decoding gives
    one playlist for each of them, in order, with its name (or the import
    label), and with as many items; it gives no playlist when no playlist
    has the selected identifier. *)
Theorem X14_selected_scope opts state n :
  scope_selected opts = true ->
  let chosen :=
    filter (fun p => PL.id p = selectedPlaylistId state) (playlists state) in
  let json := JSON_stringify (sharePayload state opts) in
  let raw := toUtf8Bytes json in
  let deflated := deflateRaw raw in
  atob (btoa deflated) = Some deflated ->
  base64_shaped (btoa deflated) ->
  inflateRaw deflated = Some raw ->
  fromUtf8Bytes raw = json ->
  JSON_parse json = Some (Js.prune (sharePayload state opts)) ->
  exists decoded n',
    decodeShareToState atob inflateRaw fromUtf8Bytes JSON_parse entropy now
      (encodeShareFromState btoa deflateRaw toUtf8Bytes JSON_stringify
         state opts) n = inr (decoded, n') /\
    Forall2
      (fun pl d =>
         DPlaylist.name d =
           Js.Str (if JsString.truthy (PL.name pl) then PL.name pl
                   else imported_label) /\
         length (DPlaylist.items d) = length (PL.items pl))
      chosen (d_playlists decoded) /\
    (chosen = [] -> d_playlists decoded = []).
Proof.
  intros Hscope chosen json raw deflated Hatob Hshape Hinflate Hutf8 Hparse.
  set (state' := {| version := version state;
                    selectedPlaylistId := selectedPlaylistId state;
                    playlists := chosen |}).
  set (opts' := mkOptions (includeThumbnails opts) false).
  assert (Hpay : sharePayload state opts = sharePayload state' opts').
  { unfold sharePayload. by rewrite Hscope. }
  destruct (base64Url_roundtrip btoa atob deflated Hatob Hshape)
    as (Hdecode & Hne & Hurl). cbv zeta in *.
  assert (Hrun :
    decodeShareToState atob inflateRaw fromUtf8Bytes JSON_parse entropy now
      (encodeShareFromState btoa deflateRaw toUtf8Bytes JSON_stringify
         state opts) n
    = inr (expectedDecoded entropy now opts' state' n)).
  { unfold Share.decodeShareToState, encodeShareFromState. cbv zeta.
    fold json. fold raw. fold deflated.
    rewrite (match_v1_token _ Hne Hurl). unfold dbind, try_opt, dret.
    rewrite Hdecode, Hinflate, Hutf8, Hparse, Hpay.
    by apply decodePayload_encoded. }
  destruct (expectedDecoded entropy now opts' state' n) as [decoded n'] eqn:Hexp.
  exists decoded, n'. split; [done|].
  unfold expectedDecoded, bind, ret in Hexp.
  pose proof (mapGen_Forall2 (expectedPlaylist entropy now opts')
                (playlists state') n) as Hpls.
  destruct (mapGen (expectedPlaylist entropy now opts') (playlists state') n)
    as [pls n1].
  assert (d_playlists decoded = pls) as ->.
  { destruct pls; simpl in Hexp; by simplify_eq. }
  simpl in Hpls. split.
  - eapply Forall2_impl; [exact Hpls|].
    intros pl d (m & ->). unfold expectedPlaylist, bind, ret, newId.
    pose proof (mapGen_Forall2 (expectedItem entropy now opts')
                  (PL.items pl) (S m)) as Hits.
    destruct (mapGen (expectedItem entropy now opts') (PL.items pl) (S m))
      as [its m1].
    simpl in *. split; [done|]. symmetry. by eapply Forall2_length.
  - intros Hnil. rewrite Hnil in Hpls. by apply Forall2_nil_inv_l in Hpls.
Qed.

End Scope.

Lemma X14_witness :
  let opts := mkOptions false true in
  let state := Sample.plain in
  let chosen :=
    filter (fun p => PL.id p = selectedPlaylistId state) (playlists state) in
  exists decoded n',
    Reference.decode Sample.entropy 42 (Reference.encode state opts) 0
      = inr (decoded, n') /\
    Forall2
      (fun pl d =>
         DPlaylist.name d =
           Js.Str (if JsString.truthy (PL.name pl) then PL.name pl
                   else imported_label) /\
         length (DPlaylist.items d) = length (PL.items pl))
      chosen (d_playlists decoded) /\
    (chosen = [] -> d_playlists decoded = []).
Proof.
  intros opts state chosen.
  apply (X14_selected_scope Reference.btoa Reference.atob Reference.deflateRaw
           Reference.inflateRaw Reference.toUtf8Bytes Reference.fromUtf8Bytes
           Reference.JSON_stringify Reference.JSON_parse Sample.entropy 42
           opts state 0%nat).
  - reflexivity.
  - vm_compute. reflexivity.
  - set (e := Reference.btoa (Reference.deflateRaw (Reference.toUtf8Bytes
                 (Reference.JSON_stringify (sharePayload state opts))))).
    exists (strip_trailing_eq e),
      (String.substring (String.length (strip_trailing_eq e)) 2 e).
    vm_compute. split_and!; first [reflexivity | discriminate | by left
                                  | by right; left | by right; right].
  - reflexivity.
  - vm_compute. reflexivity.
  - vm_compute. reflexivity.
Defined.

(** *** Reading a pasted link *)

Lemma trim_token data :
  data <> "" -> all_chars base64url_char data = true ->
  JsString.trim ("v1." +:+ data) = "v1." +:+ data.
Proof.
  intros Hne Hall. apply JsStringFacts.all_chars_Forall in Hall.
  assert (Hl : list_ascii_of_string data <> []).
  { intros Hnil. apply Hne. apply JsStringFacts.list_ascii_of_string_inj.
    by rewrite Hnil. }
  apply JsStringFacts.trim_stable.
  - reflexivity.
  - change ("v1." +:+ data) with (String "v" (String "1" (String "." data))).
    cbn [list_ascii_of_string rev].
    destruct (JsStringFacts.rev_head _ _ Hall Hl) as (c & rest & Hrev & Hc).
    rewrite Hrev. cbn [app].
    exact (proj1 (url_char_no_space c _ Hc)).
Qed.

Lemma or_undefined_truthy o s :
  JsString.or_undefined o = Some s -> JsString.truthy s = true.
Proof.
  destruct o as [x|]; [|done]. simpl.
  destruct (JsString.truthy x) eqn:Hx; [|done]. by intros [= <-].
Qed.

Section Link.

Context `{UrlHashApi}.

(** X17. [extractSharePayloadFromUrlOrHash] returns nothing for blank
    input, returns the trimmed input itself when that starts with [v1.],
    whether or not it is a URL, and never returns the empty string. *)
Theorem X17_extractSharePayload input :
  (JsString.truthy (JsString.trim input) = false ->
   Link.extractSharePayloadFromUrlOrHash input = None) /\
  (Youtube.startsWith "v1." (JsString.trim input) = true ->
   Link.extractSharePayloadFromUrlOrHash input = Some (JsString.trim input)) /\
  (forall d, Link.extractSharePayloadFromUrlOrHash input = Some d ->
     JsString.truthy d = true).
Proof.
  unfold Link.extractSharePayloadFromUrlOrHash. cbv zeta. split_and!.
  - by intros ->.
  - intros Hv.
    assert (Ht : JsString.truthy (JsString.trim input) = true)
      by by destruct (JsString.trim input).
    by rewrite Ht, Hv.
  - intros d. destruct (JsString.truthy (JsString.trim input)) eqn:Ht;
      [|done]. cbn [negb].
    destruct (Youtube.startsWith "v1." (JsString.trim input));
      [by intros [= <-]|].
    destruct (parse _) as [u|]; [|done].
    destruct (Link.after_first "?" (hash u)) as [q|].
    + destruct (JsString.or_undefined (Youtube.get "d" (URLSearchParams q)))
        as [d1|] eqn:Hd1.
      * intros [= <-]. by eapply or_undefined_truthy.
      * apply or_undefined_truthy.
    + apply or_undefined_truthy.
Qed.

Variable btoa : list Byte.byte -> string.
Variable deflateRaw : list Byte.byte -> list Byte.byte.
Variable toUtf8Bytes : string -> list Byte.byte.
Variable JSON_stringify : Js.value -> string.

(** X18. The token that [encodeShareFromState] builds, pasted as it is, is
    what [extractSharePayloadFromUrlOrHash] returns, when [btoa] returns
    base64 text. *)
Theorem X18_extract_of_encoded state opts :
  base64_shaped
    (btoa (deflateRaw (toUtf8Bytes (JSON_stringify (sharePayload state opts)))))
  ->
  let token :=
    encodeShareFromState btoa deflateRaw toUtf8Bytes JSON_stringify state opts in
  Link.extractSharePayloadFromUrlOrHash token = Some token.
Proof.
  intros (core & pad & He & Hne & Hcore & Hpad & Hlen) token.
  destruct (replace_core core Hcore) as (Hurl & Hnoeq & Hback & Hlen').
  cbv zeta in *.
  assert (Htok : exists data, token = "v1." +:+ data /\ data <> "" /\
                              all_chars base64url_char data = true).
  { exists (replace_char "/" "_" (replace_char "+" "-" core)).
    split_and!; [|intros Hc; rewrite Hc in Hlen'; by destruct core|done].
    subst token. unfold encodeShareFromState, base64UrlEncode, toBase64.
    cbv zeta. rewrite He, !replace_char_app.
    rewrite !(replace_pad _ _ pad) by (done || discriminate).
    rewrite strip_trailing_eq_pad; [done| |done|done].
    intros Hc. rewrite Hc in Hlen'. by destruct core. }
  destruct Htok as (data & Htok & Hdne & Hchars).
  destruct (X17_extractSharePayload token) as (_ & Hv1 & _).
  rewrite Htok in *. rewrite (trim_token _ Hdne Hchars) in Hv1.
  by apply Hv1.
Qed.

End Link.

Lemma X18_witness :
  let token := Reference.encode Sample.titled (mkOptions false false) in
  Link.extractSharePayloadFromUrlOrHash (H0 := SimpleUrl_hash) token
  = Some token.
Proof.
  apply (@X18_extract_of_encoded SimpleUrl.api SimpleUrl_hash Reference.btoa
           Reference.deflateRaw Reference.toUtf8Bytes Reference.JSON_stringify
           Sample.titled (mkOptions false false)).
  set (e := Reference.btoa (Reference.deflateRaw (Reference.toUtf8Bytes
               (Reference.JSON_stringify
                  (sharePayload Sample.titled (mkOptions false false)))))).
  exists (strip_trailing_eq e),
    (String.substring (String.length (strip_trailing_eq e)) 2 e).
  vm_compute. split_and!; first [reflexivity | discriminate | by left
                                | by right; left | by right; right].
Defined.

End ShareMore.

(** ** More on the URL normalizer *)

Module YoutubeMore.
Import Youtube.

Lemma append_empty (s : string) : s +:+ "" = s.
Proof.
  induction s as [|c s IH]; [done|].
  change (String c (s +:+ "") = String c s). by rewrite IH.
Qed.

Lemma split_slash_segment seg tail :
  Share.all_chars (SimpleUrl.other_than "/") seg = true ->
  tail = "" \/ (exists t, tail = String "/" t) ->
  exists rest, split "/" (seg +:+ tail) = seg :: rest.
Proof.
  intros Hseg [-> | (t & ->)].
  - exists []. rewrite append_empty. by apply SimpleUrlFacts.split_none.
  - eexists. by apply SimpleUrlFacts.split_at.
Qed.

Lemma truthy_id_Some id : id <> "" -> truthy_id (Some id) = Some id.
Proof. by destruct id. Qed.

Lemma truthy_id_nonempty o : truthy_id o <> Some "".
Proof. destruct o as [[|c s]|]; done. Qed.

Section Normalizer.

Context `{UrlLaws}.

(** X19. For an input that is a URL, the normalizer returns the
    serialization of a URL with the same host and, when there is a host,
    the same path, whose parameters are those of the input named [v], [t],
    [start], [list], [index] or [si], in their order: every other
    parameter is removed. *)
Theorem X19_normalize_removes_other_parameters input u :
  parse (JsString.trim input) = Some u ->
  exists r c,
    normalizeYouTubeUrl input = Some r /\
    parse (url r) = Some c /\
    searchParams c = filter (fun p => p.1 ∈ keep) (searchParams u) /\
    hostname c = hostname u /\
    (hostname u <> "" -> pathname c = pathname u).
Proof.
  intros Hu. destruct (YoutubeFacts.clean_spec u) as (Hp & Hh & Hpath).
  eexists _, (clean u). split; [by apply YoutubeFacts.normalizeYouTubeUrl_parsed|].
  cbn [url]. split_and!; [apply parse_href|done..].
Qed.

(** X20. The video identifier that the normalizer returns for a URL is
    never the empty string, and is absent unless the host, without a
    leading [www.], is [youtu.be], [youtube.com], [m.youtube.com] or
    [music.youtube.com]. On the three latter it is the non-empty first [v]
    parameter of the path [/watch], and the segment after [/shorts/] or
    [/embed/]; on [youtu.be] it is the first segment of the path. *)
Theorem X20_normalize_videoId input u :
  parse (JsString.trim input) = Some u ->
  let host := strip_www (hostname u) in
  let tube := host = "youtube.com" \/ host = "m.youtube.com" \/
              host = "music.youtube.com" in
  exists r,
    normalizeYouTubeUrl input = Some r /\
    videoId r <> Some "" /\
    (host <> "youtu.be" -> ~ tube -> videoId r = None) /\
    (tube -> pathname u = "/watch" ->
     videoId r = JsString.or_undefined (get "v" (searchParams u))) /\
    (forall id tail,
       id <> "" -> Share.all_chars (SimpleUrl.other_than "/") id = true ->
       tail = "" \/ (exists t, tail = String "/" t) ->
       (host = "youtu.be" -> pathname u = "/" +:+ id +:+ tail ->
        videoId r = Some id) /\
       (tube -> pathname u = "/shorts/" +:+ id +:+ tail ->
        videoId r = Some id) /\
       (tube -> pathname u = "/embed/" +:+ id +:+ tail ->
        videoId r = Some id)).
Proof.
  intros Hu host tube.
  eexists. split; [by apply YoutubeFacts.normalizeYouTubeUrl_parsed|].
  cbn [videoId]. unfold videoIdOf. fold host.
  assert (Htube : tube ->
    host <> "youtu.be" /\
    bool_decide (host = "youtube.com") || bool_decide (host = "m.youtube.com")
      || bool_decide (host = "music.youtube.com") = true).
  { intros [-> | [-> | ->]]; by split. }
  split_and!.
  - destruct (decide (host = "youtu.be")); [apply truthy_id_nonempty|].
    destruct (_ || _); [|done].
    destruct (decide (pathname u = "/watch")); [apply truthy_id_nonempty|].
    destruct (startsWith "/shorts/" _); [apply truthy_id_nonempty|].
    destruct (startsWith "/embed/" _); [apply truthy_id_nonempty|done].
  - intros Hbe Hno. rewrite decide_False by done.
    destruct (bool_decide (host = "youtube.com")) eqn:H1;
      [apply bool_decide_eq_true in H1; destruct Hno; by left|].
    destruct (bool_decide (host = "m.youtube.com")) eqn:H2;
      [apply bool_decide_eq_true in H2; destruct Hno; by right; left|].
    destruct (bool_decide (host = "music.youtube.com")) eqn:H3;
      [apply bool_decide_eq_true in H3; destruct Hno; by right; right|].
    done.
  - intros [Hbe ->]%Htube Hpath. rewrite decide_False by done.
    by rewrite Hpath, decide_True.
  - intros seg tail Hid Hchars Htail.
    destruct (split_slash_segment seg tail Hchars Htail) as (rest & Hsplit).
    assert (Hkind : forall kind,
      Share.all_chars (SimpleUrl.other_than "/") kind = true ->
      split "/" (String "/" (kind +:+ String "/" (seg +:+ tail))) !! 2%nat
      = Some seg).
    { intros kind Hkind. cbn [split]. rewrite decide_True by done.
      rewrite (SimpleUrlFacts.split_at "/" kind) by done. by rewrite Hsplit. }
    split_and!.
    + intros Hbe ->. rewrite decide_True by done.
      change ("/" +:+ seg +:+ tail) with (String "/" (seg +:+ tail)).
      cbn [split]. rewrite decide_True by done. rewrite Hsplit.
      rewrite filter_cons_False by (simpl; congruence).
      rewrite filter_cons_True by by destruct seg.
      by apply truthy_id_Some.
    + intros [Hbe ->]%Htube ->. rewrite decide_False by done.
      rewrite decide_False by discriminate.
      replace (startsWith "/shorts/" ("/shorts/" +:+ seg +:+ tail))
        with true by (symmetry; reflexivity).
      change ("/shorts/" +:+ seg +:+ tail)
        with (String "/" ("shorts" +:+ String "/" (seg +:+ tail))).
      rewrite Hkind by done. by apply truthy_id_Some.
    + intros [Hbe ->]%Htube ->. rewrite decide_False by done.
      rewrite decide_False by discriminate.
      replace (startsWith "/shorts/" ("/embed/" +:+ seg +:+ tail))
        with false by (symmetry; reflexivity).
      replace (startsWith "/embed/" ("/embed/" +:+ seg +:+ tail))
        with true by (symmetry; reflexivity).
      change ("/embed/" +:+ seg +:+ tail)
        with (String "/" ("embed" +:+ String "/" (seg +:+ tail))).
      rewrite Hkind by done. by apply truthy_id_Some.
Qed.

End Normalizer.

Lemma X19_witness :
  let input := " https://www.youtube.com/watch?feature=share&v=abc&utm=x&t=10 " in
  exists u,
    parse (UrlApi := SimpleUrl.api) (JsString.trim input) = Some u /\
    exists r c,
      normalizeYouTubeUrl input = Some r /\
      parse (url r) = Some c /\
      searchParams c = filter (fun p => p.1 ∈ keep) (searchParams u) /\
      hostname c = hostname u /\
      (hostname u <> "" -> pathname c = pathname u).
Proof.
  intros input.
  destruct (parse (UrlApi := SimpleUrl.api) (JsString.trim input))
    as [u|] eqn:Hu; [|vm_compute in Hu; discriminate].
  exists u. split; [done|].
  exact (@X19_normalize_removes_other_parameters SimpleUrl.api
           SimpleUrlFacts.laws input u Hu).
Defined.

Lemma X20_witness :
  let input := "https://youtu.be/abc/?si=1" in
  exists u,
    parse (UrlApi := SimpleUrl.api) (JsString.trim input) = Some u /\
    let host := strip_www (hostname u) in
    let tube := host = "youtube.com" \/ host = "m.youtube.com" \/
                host = "music.youtube.com" in
    exists r,
      normalizeYouTubeUrl input = Some r /\
      videoId r <> Some "" /\
      (host <> "youtu.be" -> ~ tube -> videoId r = None) /\
      (tube -> pathname u = "/watch" ->
       videoId r = JsString.or_undefined (get "v" (searchParams u))) /\
      (forall id tail,
         id <> "" -> Share.all_chars (SimpleUrl.other_than "/") id = true ->
         tail = "" \/ (exists t, tail = String "/" t) ->
         (host = "youtu.be" -> pathname u = "/" +:+ id +:+ tail ->
          videoId r = Some id) /\
         (tube -> pathname u = "/shorts/" +:+ id +:+ tail ->
          videoId r = Some id) /\
         (tube -> pathname u = "/embed/" +:+ id +:+ tail ->
          videoId r = Some id)).
Proof.
  intros input.
  destruct (parse (UrlApi := SimpleUrl.api) (JsString.trim input))
    as [u|] eqn:Hu; [|vm_compute in Hu; discriminate].
  exists u. split; [done|].
  exact (@X20_normalize_videoId SimpleUrl.api SimpleUrlFacts.laws input u Hu).
Defined.

End YoutubeMore.

(** ** Tags *)

Module SearchFacts.
Import JsString Search.

(** *** More on [trim] *)

(** The trimmed string is a part of the string. *)
Lemma trim_infix s :
  exists pre post,
    list_ascii_of_string s = pre ++ list_ascii_of_string (trim s) ++ post.
Proof.
  unfold trim. rewrite list_ascii_of_string_of_list_ascii.
  set (l := list_ascii_of_string s).
  destruct (JsStringFacts.strip_all_suffix white_space (length l) l)
    as (pre & Hpre).
  fold (trimStartL l) in Hpre. set (t := trimStartL l) in *.
  destruct (JsStringFacts.strip_all_suffix (map (@rev ascii) white_space)
              (length t) (rev t)) as (post & Hpost).
  exists pre, (rev post). unfold trimEndL. fold t.
  rewrite <- rev_app_distr, <- Hpost, rev_involutive. done.
Qed.

Lemma trim_Forall (P : ascii -> Prop) s :
  Forall P (list_ascii_of_string s) -> Forall P (list_ascii_of_string (trim s)).
Proof.
  destruct (trim_infix s) as (pre & post & ->).
  by intros (_ & (? & _)%Forall_app)%Forall_app.
Qed.

(** The trimmed string neither starts nor ends with white space. *)
Lemma trim_clean s :
  strip_any white_space (list_ascii_of_string (trim s)) = None /\
  strip_any (map (@rev ascii) white_space)
    (rev (list_ascii_of_string (trim s))) = None.
Proof.
  unfold trim. rewrite list_ascii_of_string_of_list_ascii.
  set (l := list_ascii_of_string s). set (t := trimStartL l).
  assert (Ht : strip_any white_space t = None).
  { apply JsStringFacts.strip_all_clean;
      [apply JsStringFacts.white_space_nonempty|done]. }
  unfold trimEndL.
  set (v := strip_all (length t) (map (@rev ascii) white_space) (rev t)).
  assert (Hv : strip_any (map (@rev ascii) white_space) v = None).
  { apply JsStringFacts.strip_all_clean;
      [apply JsStringFacts.white_space_nonempty|]. by rewrite length_rev. }
  destruct (JsStringFacts.strip_all_suffix (map (@rev ascii) white_space)
              (length t) (rev t)) as (pre & Hpre). fold v in Hpre.
  assert (Htv : t = rev v ++ rev pre).
  { rewrite <- rev_app_distr, <- Hpre. by rewrite rev_involutive. }
  split; [|by rewrite rev_involutive].
  destruct (strip_any white_space (rev v)) as [r|] eqn:Hr; [|done].
  apply JsStringFacts.strip_any_Some in Hr as (p & Hp & Hrv). exfalso.
  apply (JsStringFacts.strip_any_None _ _ p (r ++ rev pre) Ht Hp).
  rewrite Htv, Hrv. by rewrite <- app_assoc.
Qed.

(** A space in front of a trimmed string is trimmed away. *)
Lemma trim_space t : trim t = t -> trim (String " " t) = t.
Proof.
  intros Ht. destruct (trim_clean t) as [Hstart Hend]. rewrite Ht in *.
  unfold trim. cbn [list_ascii_of_string].
  set (l := list_ascii_of_string t) in *.
  assert (Hs : trimStartL (" "%char :: l) = l).
  { unfold trimStartL. cbn [length strip_all].
    change (strip_any white_space (" "%char :: l)) with (Some l).
    by apply JsStringFacts.strip_all_None. }
  rewrite Hs. unfold trimEndL.
  rewrite (JsStringFacts.strip_all_None _ _ _ Hend), rev_involutive.
  apply string_of_list_ascii_of_string.
Qed.

(** *** [formatTags] *)

Lemma startsWith_hash t : Youtube.startsWith "#" ("#" +:+ t) = true.
Proof. done. Qed.

(** X21. Every tag that [formatTags] returns starts with [#]; it is the
    tag itself when that starts with [#] and the tag with [#] in front
    otherwise; and formatting formatted tags changes nothing. *)
Theorem X21_formatTags tags :
  Forall (fun t => Youtube.startsWith "#" t = true) (formatTags tags) /\
  Forall2 (fun t f => f = t \/ (Youtube.startsWith "#" t = false /\
                                f = "#" +:+ t))
    tags (formatTags tags) /\
  formatTags (formatTags tags) = formatTags tags.
Proof.
  unfold formatTags. split_and!.
  - apply Forall_fmap, Forall_forall. intros t _. unfold compose.
    destruct (Youtube.startsWith "#" t) eqn:Ht; [exact Ht|].
    apply startsWith_hash.
  - apply Forall2_fmap_r, Forall_Forall2_diag, Forall_forall. intros t _.
    unfold compose. cbv beta.
    destruct (Youtube.startsWith "#" t) eqn:Ht; [by left|by right].
  - rewrite <- list_fmap_compose. apply list_fmap_ext. intros i t _.
    unfold compose.
    destruct (Youtube.startsWith "#" t) eqn:Ht; [by rewrite Ht|].
    by rewrite startsWith_hash.
Qed.

(** *** [parseTagsInput] *)

Lemma split_on_no_separator sep s :
  Forall (fun seg => Forall (fun c => sep c = false)
                       (list_ascii_of_string seg))
    (split_on sep s).
Proof.
  induction s as [|c s IH]; simpl; [by repeat constructor|].
  destruct (sep c) eqn:Hc; [by constructor|].
  destruct (split_on sep s) as [|seg segs]; [by repeat constructor|].
  inversion IH; subst. constructor; [|done]. simpl. by constructor.
Qed.

Lemma strip_hash_Forall (P : ascii -> Prop) s :
  Forall P (list_ascii_of_string s) ->
  Forall P (list_ascii_of_string (strip_hash s)).
Proof.
  destruct s as [|c s]; [done|]. unfold strip_hash.
  destruct (decide (c = "#"%char)) as [->|Hc].
  - simpl. by inversion 1.
  - intros Hs.
    by destruct c as [[] [] [] [] [] [] [] []].
Qed.

Section Parse.

Variable toLowerCase : string -> string.

Lemma push_tag_tidy out p :
  Forall (fun c => tag_separator c = false) (list_ascii_of_string p) ->
  Forall tidy out /\ NoDup (normalize toLowerCase <$> out) ->
  Forall tidy (push_tag toLowerCase out p) /\
  NoDup (normalize toLowerCase <$> push_tag toLowerCase out p).
Proof.
  intros Hp [Hout Hnd]. unfold push_tag. cbv zeta.
  set (t := trim (strip_hash p)).
  destruct (truthy t) eqn:Ht; [|done]. cbn [negb].
  destruct (existsb _ out) eqn:Hex; [done|]. split.
  - apply Forall_app. split; [done|]. constructor; [|done]. split_and!.
    + intros Hnil. by rewrite Hnil in Ht.
    + apply JsStringFacts.trim_idempotent.
    + by apply trim_Forall, strip_hash_Forall.
  - rewrite fmap_app. apply NoDup_app. split_and!; [done| |].
    + intros k Hk Hk1. apply list_elem_of_fmap in Hk as (x & -> & Hx).
      simpl in Hk1. apply list_elem_of_singleton in Hk1.
      assert (existsb (fun x => bool_decide
                (normalize toLowerCase x = normalize toLowerCase t)) out
              = true); [|congruence].
      apply existsb_exists. exists x. split; [by apply list_elem_of_In|].
      by apply bool_decide_eq_true.
    + simpl. apply NoDup_singleton.
Qed.

Lemma fold_push_tag_tidy parts out :
  Forall (fun p => Forall (fun c => tag_separator c = false)
                     (list_ascii_of_string p)) parts ->
  Forall tidy out /\ NoDup (normalize toLowerCase <$> out) ->
  Forall tidy (fold_left (push_tag toLowerCase) parts out) /\
  NoDup (normalize toLowerCase <$>
           fold_left (push_tag toLowerCase) parts out).
Proof.
  intros Hparts. revert out. induction Hparts as [|p parts Hp _ IH];
    intros out Hout; [done|].
  simpl. apply IH. by apply push_tag_tidy.
Qed.

(** X22. Whatever the input, the tags that [parseTagsInput] returns are
    not empty, have no white space around them, contain neither a comma
    nor a line feed, and are pairwise distinct up to trimming and case. *)
Theorem X22_parseTagsInput_tidy input :
  Forall tidy (parseTagsInput toLowerCase input) /\
  NoDup (normalize toLowerCase <$> parseTagsInput toLowerCase input).
Proof.
  unfold parseTagsInput. cbv zeta. apply fold_push_tag_tidy.
  - apply Forall_forall. intros p [_ Hp]%list_elem_of_filter.
    apply list_elem_of_fmap in Hp as (seg & -> & Hseg).
    apply trim_Forall.
    pose proof (split_on_no_separator tag_separator input) as Hall.
    rewrite Forall_forall in Hall. by apply Hall.
  - split; constructor.
Qed.

End Parse.

(** *** Editing tags without changing them *)

Lemma split_on_none sep s :
  Forall (fun c => sep c = false) (list_ascii_of_string s) ->
  split_on sep s = [s].
Proof.
  induction s as [|c s IH]; [done|]. simpl. intros Hs.
  inversion Hs as [|? ? Hc Hrest]; subst. by rewrite Hc, IH.
Qed.

Lemma split_on_at sep s c r :
  Forall (fun c => sep c = false) (list_ascii_of_string s) -> sep c = true ->
  split_on sep (s +:+ String c r) = s :: split_on sep r.
Proof.
  intros Hs Hc. induction s as [|a s IH].
  - change ("" +:+ String c r) with (String c r). simpl. by rewrite Hc.
  - change (String a s +:+ String c r) with (String a (s +:+ String c r)).
    simpl in Hs. inversion Hs as [|? ? Ha Hrest]; subst.
    cbn [split_on]. by rewrite Ha, IH.
Qed.

(** The parts of the text that the tag editor shows for [tags]. *)
Lemma split_on_join tags :
  Forall (fun t => Forall (fun c => tag_separator c = false)
                     (list_ascii_of_string t)) tags ->
  split_on tag_separator (join ", " tags) =
    match tags with
    | [] => [""]
    | t :: ts => t :: (String " " <$> ts)
    end.
Proof.
  induction 1 as [|t ts Ht Hts IH]; [done|].
  cbn [join]. destruct ts as [|t' ts]; [by apply split_on_none|].
  change (t +:+ ", " +:+ join ", " (t' :: ts))
    with (t +:+ String "," (String " " (join ", " (t' :: ts)))).
  rewrite split_on_at by done. cbn [split_on].
  change (tag_separator " ") with false. cbv iota. by rewrite IH.
Qed.

Lemma strip_hash_none t : Youtube.startsWith "#" t = false -> strip_hash t = t.
Proof.
  destruct t as [|c t]; [done|]. simpl. case_decide as Hc; [done|].
  intros _. unfold strip_hash.
  by destruct c as [[] [] [] [] [] [] [] []].
Qed.

Section Edit.

Variable toLowerCase : string -> string.

Lemma fold_push_tag_fresh ts out :
  Forall tidy ts -> Forall (fun t => Youtube.startsWith "#" t = false) ts ->
  NoDup (normalize toLowerCase <$> (out ++ ts)) ->
  fold_left (push_tag toLowerCase) ts out = out ++ ts.
Proof.
  intros Htidy. revert out.
  induction Htidy as [|t ts (Hne & Htrim & _) _ IH]; intros out Hhash Hnd.
  - by rewrite app_nil_r.
  - inversion Hhash as [|? ? Ht Hrest]; subst. cbn [fold_left].
    assert (Hpush : push_tag toLowerCase out t = out ++ [t]).
    { unfold push_tag. cbv zeta. rewrite (strip_hash_none _ Ht), Htrim.
      replace (truthy t) with true by by destruct t. cbn [negb].
      destruct (existsb _ out) eqn:Hex; [exfalso|done].
      apply existsb_exists in Hex as (x & Hx & Heq).
      apply bool_decide_eq_true in Heq. apply list_elem_of_In in Hx.
      rewrite fmap_app in Hnd. apply NoDup_app in Hnd as (_ & Hdis & _).
      apply (Hdis (normalize toLowerCase x)).
      - apply list_elem_of_fmap. by exists x.
      - rewrite Heq. simpl. left. }
    rewrite Hpush, IH; [by rewrite <- app_assoc|done|].
    by rewrite <- app_assoc.
Qed.

(** X23. The tag editor shows the tags joined with a comma and a space
    and saves what [parseTagsInput] makes of the text. Saving without
    editing gives back the tags when they are as [parseTagsInput] returns
    them and none of them starts with [#]. *)
Theorem X23_edit_tags_unchanged tags :
  Forall tidy tags ->
  Forall (fun t => Youtube.startsWith "#" t = false) tags ->
  NoDup (normalize toLowerCase <$> tags) ->
  parseTagsInput toLowerCase (join ", " tags) = tags.
Proof.
  intros Htidy Hhash Hnd. unfold parseTagsInput. cbv zeta.
  rewrite split_on_join; last first.
  { eapply Forall_impl; [exact Htidy|]. by intros t (_ & _ & ?). }
  assert (Hparts :
    filter (fun p => truthy p = true)
      (trim <$> match tags with
                | [] => [""]
                | t :: ts => t :: (String " " <$> ts)
                end) = tags).
  { destruct Htidy as [|t ts (Hne & Htrim & _) Hts]; [done|].
    cbn [fmap list_fmap]. rewrite Htrim.
    rewrite filter_cons_True by by destruct t. f_equal.
    induction Hts as [|t' ts' (Hne' & Htrim' & _) _ IH]; [done|].
    cbn [fmap list_fmap]. rewrite (trim_space _ Htrim').
    rewrite filter_cons_True by by destruct t'. f_equal.
    apply IH.
    - by inversion Hhash as [|? ? ? Hr]; subst; inversion Hr; subst;
        constructor.
    - cbn [fmap list_fmap] in Hnd.
      apply NoDup_cons in Hnd as [Hn1 Hnd].
      apply NoDup_cons in Hnd as [Hn2 Hnd].
      apply NoDup_cons. split; [|done].
      intros Hin. apply Hn1. by right. }
  rewrite Hparts. by apply (fold_push_tag_fresh tags []).
Qed.

End Edit.

Lemma X23_witness :
  parseTagsInput toLowerCaseAscii (join ", " ["dev"; "3min summary"; "Music"])
  = ["dev"; "3min summary"; "Music"].
Proof.
  apply (X23_edit_tags_unchanged toLowerCaseAscii).
  - unfold tidy. repeat constructor; try discriminate; vm_compute; reflexivity.
  - repeat constructor.
  - compute_done.
Defined.

End SearchFacts.

(** ** Paths and the search box *)

Module NavFacts.
Import Nav.

Lemma endsWith_slash s :
  endsWith "/" s = true <->
  exists r, rev (list_ascii_of_string s) = "/"%char :: r.
Proof.
  unfold endsWith. cbn [list_ascii_of_string rev app string_of_list_ascii].
  destruct (rev (list_ascii_of_string s)) as [|c r]; simpl.
  - split; [done|]. by intros (r & ?).
  - destruct (decide ("/"%char = c)) as [<-|Hc].
    + split; [by eauto|done].
    + split; [done|]. intros (r' & [= Heq _]). by destruct Hc.
Qed.

Lemma drop_segment_suffix l : exists pre, l = pre ++ drop_segment l.
Proof.
  induction l as [|c l (pre & IH)]; [by exists []|]. simpl.
  case_decide; [by exists []|]. exists (c :: pre). simpl. by rewrite <- IH.
Qed.

Lemma drop_segment_slash l :
  "/"%char ∈ l -> exists suf, drop_segment l = "/"%char :: suf.
Proof.
  induction l as [|c l IH]; [by intros ?%elem_of_nil|]. simpl.
  case_decide as Hc; [subst; by eauto|].
  intros [?|?]%elem_of_cons; [congruence|by apply IH].
Qed.

(** X24. For a path that starts with a slash, as [location.pathname]
    does, [getBasePath] returns a path that starts and ends with a slash:
    the path itself when it ends with a slash, the path up to its last
    slash when it ends with [.html], and the path with a slash added
    otherwise; applied to its result it returns it unchanged. *)
Theorem X24_getBasePath p :
  Youtube.startsWith "/" p = true ->
  Youtube.startsWith "/" (getBasePath p) = true /\
  endsWith "/" (getBasePath p) = true /\
  getBasePath (getBasePath p) = getBasePath p /\
  (exists rest, p +:+ "/" = getBasePath p +:+ rest).
Proof.
  intros Hp.
  assert (exists l, list_ascii_of_string p = "/"%char :: l) as (l & Hl).
  { destruct p as [|c p]; [done|]. simpl in Hp. case_decide; [|done].
    subst c. simpl. eauto. }
  assert (Hmain :
    Youtube.startsWith "/" (getBasePath p) = true /\
    endsWith "/" (getBasePath p) = true /\
    (exists rest, p +:+ "/" = getBasePath p +:+ rest)).
  { unfold getBasePath. destruct (endsWith "/" p) eqn:Hend.
    { split_and!; [done|done|by exists "/"]. }
    destruct (endsWith ".html" p).
    - unfold drop_last_segment.
      set (r := rev (list_ascii_of_string p)).
      assert (Hr : rev r = "/"%char :: l) by by (unfold r; rewrite rev_involutive).
      destruct (drop_segment_suffix r) as (pre & Hpre).
      destruct (drop_segment_slash r) as (suf & Hsuf).
      { apply list_elem_of_In, in_rev. rewrite Hr. by left. }
      rewrite Hsuf in *.
      assert (Hrev : rev ("/"%char :: suf) ++ rev pre = "/"%char :: l).
      { by rewrite <- rev_app_distr, <- Hpre. }
      assert (Hhead : exists m, rev ("/"%char :: suf) = "/"%char :: m).
      { destruct (rev ("/"%char :: suf)) as [|c m] eqn:Hm.
        - simpl in Hm. by destruct (rev suf).
        - simpl in Hrev. injection Hrev as -> _. eauto. }
      destruct Hhead as (m & Hm). split_and!.
      + by rewrite Hm.
      + apply endsWith_slash. rewrite list_ascii_of_string_of_list_ascii.
        rewrite rev_involutive. eauto.
      + exists (string_of_list_ascii (rev pre) +:+ "/").
        apply JsStringFacts.list_ascii_of_string_inj.
        rewrite !JsStringFacts.list_ascii_of_string_app.
        rewrite !list_ascii_of_string_of_list_ascii.
        rewrite app_assoc, Hrev, Hl. done.
    - split_and!.
      + destruct p as [|c p]; [done|]. exact Hp.
      + apply endsWith_slash.
        rewrite JsStringFacts.list_ascii_of_string_app, rev_app_distr.
        eexists. reflexivity.
      + exists "". by rewrite YoutubeMore.append_empty. }
  destruct Hmain as (Hstart & Hend & Hrest). split_and!; try done.
  unfold getBasePath at 1. by rewrite Hend.
Qed.

Lemma X24_witness :
  getBasePath "/myapp/index.html" = "/myapp/" /\
  Youtube.startsWith "/" (getBasePath "/myapp/index.html") = true /\
  endsWith "/" (getBasePath "/myapp/index.html") = true /\
  getBasePath (getBasePath "/myapp/index.html")
    = getBasePath "/myapp/index.html" /\
  (exists rest,
     "/myapp/index.html" +:+ "/" = getBasePath "/myapp/index.html" +:+ rest).
Proof.
  split; [reflexivity|]. apply (X24_getBasePath "/myapp/index.html").
  reflexivity.
Defined.

Lemma startsWith_refl t : Youtube.startsWith t t = true.
Proof. induction t as [|c t IH]; [done|]. simpl. by rewrite decide_True. Qed.

Lemma includes_refl t : includes t t = true.
Proof. destruct t; simpl; [done|]. by rewrite decide_True, startsWith_refl. Qed.

Lemma includes_suffix t a b : includes t b = true -> includes t (a +:+ b) = true.
Proof.
  intros Hb. induction a as [|c a IH]; [done|].
  change (String c a +:+ b) with (String c (a +:+ b)).
  cbn [includes]. rewrite IH. apply orb_true_r.
Qed.

(** X25. Clicking a tag leaves a search text that contains the token of
    the tag, and clicking it again changes nothing more. The text is kept
    when it contains the token already; otherwise the token is added after
    the trimmed text, or becomes the text when that is blank. *)
Theorem X25_addToken token q :
  includes token (addToken token q) = true /\
  addToken token (addToken token q) = addToken token q /\
  (includes token q = true -> addToken token q = q) /\
  (includes token q = false ->
   addToken token q =
     if JsString.truthy (JsString.trim q)
     then JsString.trim q +:+ " " +:+ token else token).
Proof.
  assert (Hin : includes token (addToken token q) = true).
  { unfold addToken. destruct (includes token q) eqn:Hq; [done|].
    destruct (JsString.truthy (JsString.trim q)).
    - apply includes_suffix.
      change (" " +:+ token) with (String " " token). cbn [includes].
      rewrite includes_refl. apply orb_true_r.
    - apply includes_refl. }
  split_and!; [done| | |].
  - unfold addToken at 1. by rewrite Hin.
  - intros Hq. unfold addToken. by rewrite Hq.
  - intros Hq. unfold addToken. by rewrite Hq.
Qed.

End NavFacts.

(** ** Persistence *)

Module PersistFacts.
Import Persist.

Lemma lookup_set_field_same k v fs :
  Js.lookup_field k (set_field k v fs) = v.
Proof.
  induction fs as [|[k' x] fs IH]; simpl; [by rewrite decide_True|].
  case_decide; simpl; [by rewrite decide_True|by rewrite decide_False].
Qed.

Lemma lookup_set_field_other k k' v fs :
  k' <> k -> Js.lookup_field k' (set_field k v fs) = Js.lookup_field k' fs.
Proof.
  intros Hne. induction fs as [|[k0 x] fs IH]; simpl.
  - by rewrite decide_False.
  - destruct (decide (k0 = k)) as [->|Hk]; simpl.
    + by rewrite !decide_False by done.
    + by rewrite IH.
Qed.

Lemma some_id_true sel ps :
  some_id sel ps = Some true ->
  exists p, p ∈ ps /\ Js.get "id" p = Some (Js.Str sel).
Proof.
  induction ps as [|p ps IH]; [done|]. simpl.
  destruct (Js.get "id" p) as [v|] eqn:Hv; [|done].
  destruct (is_string sel v) eqn:Hs.
  - intros _. exists p. split; [left|].
    destruct v; try discriminate Hs. simpl in Hs.
    apply bool_decide_eq_true in Hs. by subst.
  - intros (q & Hq & Hid)%IH. exists q. split; [by right|done].
Qed.

Section Load.

Variable JSON_stringify : Js.value -> string.
Variable JSON_parse : string -> option Js.value.
Variable entropy : nat -> string.
Variable now : Z.

(** X27. Whatever the storage holds, [loadStoredState] returns either the
    state of [defaultState], freshly seeded and satisfying the invariant,
    or the parsed object, in which the version is 1, [playlists] is an
    array that is not empty, and [selectedPlaylistId] is the [id] of one
    of its elements: the stored one when an element has it, and the [id]
    of the first element otherwise. *)
Theorem X27_loadStoredState_result stored n :
  match loadStoredState JSON_parse entropy now stored n with
  | (Seeded s, n') =>
      (s, n') = Store.defaultState entropy now n /\ Store.invariant s
  | (Kept v, n') =>
      n' = n /\
      exists fields first rest p,
        v = Js.Obj fields /\
        Js.lookup_field "version" fields = Js.Num 1 /\
        Js.lookup_field "playlists" fields = Js.Arr (first :: rest) /\
        p ∈ first :: rest /\
        Js.get "id" p = Some (Js.lookup_field "selectedPlaylistId" fields)
  end.
Proof.
  assert (Hseed : match seeded entropy now n with
    | (Seeded s, n') =>
        (s, n') = Store.defaultState entropy now n /\ Store.invariant s
    | (Kept _, _) => False
    end).
  { unfold seeded, bind, ret.
    pose proof (StoreFacts.invariant_defaultState entropy now n) as Hinv.
    by destruct (Store.defaultState entropy now n). }
  assert (Hseed' :
    match seeded entropy now n with
    | (Seeded s, n') =>
        (s, n') = Store.defaultState entropy now n /\ Store.invariant s
    | (Kept v, n') =>
        n' = n /\
        exists fields first rest p,
          v = Js.Obj fields /\
          Js.lookup_field "version" fields = Js.Num 1 /\
          Js.lookup_field "playlists" fields = Js.Arr (first :: rest) /\
          p ∈ first :: rest /\
          Js.get "id" p = Some (Js.lookup_field "selectedPlaylistId" fields)
    end).
  { by destruct (seeded entropy now n) as [[s|v] n']. }
  unfold loadStoredState. destruct stored as [| |raw]; try exact Hseed'.
  destruct (negb (JsString.truthy raw)); [exact Hseed'|].
  destruct (JSON_parse raw) as [parsed|]; [|exact Hseed'].
  destruct (negb (isStoredStateV1 parsed)) eqn:Hv1; [exact Hseed'|].
  apply negb_false_iff in Hv1.
  destruct parsed as [| |b|z|str|l|fields]; try exact Hseed'.
  unfold isStoredStateV1 in Hv1.
  destruct (Js.lookup_field "version" fields) as [| |b|z|str|l|fs] eqn:Hver;
    try discriminate Hv1.
  destruct z as [|[]|]; try discriminate Hv1.
  destruct (Js.lookup_field "playlists" fields) as [| |b|z|str|ps|fs] eqn:Hps;
    try discriminate Hv1.
  destruct (Js.lookup_field "selectedPlaylistId" fields)
    as [| |b|z|sel|l|fs] eqn:Hsel; try discriminate Hv1.
  destruct ps as [|first rest]; [exact Hseed'|].
  destruct (some_id sel (first :: rest)) as [[]|] eqn:Hsome;
    [| |exact Hseed'].
  - unfold ret. split; [done|].
    apply some_id_true in Hsome as (p & Hp & Hid).
    exists fields, first, rest, p. by rewrite Hsel.
  - destruct (Js.get "id" first) as [id|] eqn:Hid; [|exact Hseed'].
    unfold ret. split; [done|].
    exists (set_field "selectedPlaylistId" id fields), first, rest, first.
    rewrite lookup_set_field_same, !lookup_set_field_other by done.
    split_and!; try done. left.
Qed.


Lemma lookup_version a b c :
  Js.lookup_field "version"
    [("version", a); ("selectedPlaylistId", b); ("playlists", c)] = a.
Proof. done. Qed.

Lemma lookup_selected a b c :
  Js.lookup_field "selectedPlaylistId"
    [("version", a); ("selectedPlaylistId", b); ("playlists", c)] = b.
Proof. done. Qed.

Lemma lookup_playlists a b c :
  Js.lookup_field "playlists"
    [("version", a); ("selectedPlaylistId", b); ("playlists", c)] = c.
Proof. done. Qed.

Lemma set_selected a b c v :
  set_field "selectedPlaylistId" v
    [("version", a); ("selectedPlaylistId", b); ("playlists", c)] =
  [("version", a); ("selectedPlaylistId", v); ("playlists", c)].
Proof. done. Qed.

(** What [JSON.stringify] keeps of a typed state. *)
Lemma prune_of_state s :
  Js.prune (of_state s) =
  Js.Obj
    [ ("version", Js.Num (version s));
      ("selectedPlaylistId", Js.Str (selectedPlaylistId s));
      ("playlists",
       Js.Arr ((fun pl => Js.prune (of_playlist pl)) <$> playlists s)) ].
Proof.
  rewrite <- (JsFacts.prune_elems_objects of_playlist)
    by (intros pl; by eexists).
  reflexivity.
Qed.

Lemma get_id_playlist pl :
  Js.get "id" (Js.prune (of_playlist pl)) = Some (Js.Str (PL.id pl)).
Proof.
  unfold of_playlist. by rewrite JsFacts.get_prune_Obj by compute_done.
Qed.

Lemma some_id_playlists sel (pls : list Playlist) :
  some_id sel ((fun pl => Js.prune (of_playlist pl)) <$> pls) =
  Some (existsb (fun p => bool_decide (PL.id p = sel)) pls).
Proof.
  induction pls as [|pl pls IH]; [done|]. cbn [fmap list_fmap some_id].
  rewrite get_id_playlist. cbn [is_string existsb].
  destruct (bool_decide (PL.id pl = sel)); [done|]. by rewrite IH.
Qed.

(** X26. Saving a state of version 1 and loading it again, when
    [JSON.parse] reads what [JSON.stringify] printed: a state that
    satisfies the invariant comes back as it was saved, without the
    properties that were [undefined], and no identifier is drawn; a state
    whose selection names no playlist comes back with its first playlist
    selected; a state without playlists is replaced by the default state. *)
Theorem X26_load_after_save s n :
  version s = 1%Z ->
  JSON_stringify (of_state s) <> "" ->
  JSON_parse (JSON_stringify (of_state s)) = Some (Js.prune (of_state s)) ->
  let loaded :=
    loadStoredState JSON_parse entropy now
      (saveStoredState JSON_stringify (of_state s)) n in
  (Store.invariant s -> loaded = (Kept (Js.prune (of_state s)), n)) /\
  (forall first rest,
     playlists s = first :: rest ->
     ~ (exists p, p ∈ playlists s /\ PL.id p = selectedPlaylistId s) ->
     loaded = (Kept (Js.prune (of_state (select (PL.id first) s))), n)) /\
  (playlists s = [] ->
   loaded = (Seeded (fst (Store.defaultState entropy now n)), S n)).
Proof.
  intros Hver Hne Hparse loaded.
  assert (Hload : loaded =
    match playlists s with
    | [] => seeded entropy now n
    | first :: _ =>
        if existsb (fun p => bool_decide (PL.id p = selectedPlaylistId s))
             (playlists s)
        then (Kept (Js.prune (of_state s)), n)
        else (Kept (Js.prune (of_state (select (PL.id first) s))), n)
    end).
  { subst loaded. unfold loadStoredState, saveStoredState.
    replace (JsString.truthy (JSON_stringify (of_state s))) with true
      by by destruct (JSON_stringify (of_state s)).
    cbn [negb]. rewrite Hparse, !prune_of_state.
    cbn [select version selectedPlaylistId playlists]. rewrite Hver.
    unfold isStoredStateV1.
    rewrite lookup_version, lookup_playlists, lookup_selected. cbn [negb].
    rewrite some_id_playlists.
    destruct (playlists s) as [|first rest] eqn:Hps; [done|].
    cbn [fmap list_fmap].
    destruct (existsb _ _); [done|].
    rewrite get_id_playlist, set_selected, prune_of_state.
    cbn [select version selectedPlaylistId playlists].
    by rewrite Hver, Hps. }
  rewrite Hload. split_and!.
  - intros [Hne' Hsel]. destruct (playlists s) as [|first rest] eqn:Hps; [done|].
    rewrite <- Hps in *.
    apply AppFacts.existsb_selected in Hsel. by rewrite Hsel.
  - intros first rest Hps Hno. rewrite Hps. rewrite <- Hps.
    destruct (existsb _ (playlists s)) eqn:Hex; [|done].
    apply AppFacts.existsb_selected in Hex. by destruct Hno.
  - intros ->. unfold seeded, bind, ret, Store.defaultState, newId. done.
Qed.

End Load.

Lemma X26_witness :
  let s := Sample.plain in
  let loaded :=
    loadStoredState Reference.JSON_parse Sample.entropy 42
      (saveStoredState Reference.JSON_stringify (of_state s)) 0 in
  (Store.invariant s -> loaded = (Kept (Js.prune (of_state s)), 0%nat)) /\
  (forall first rest,
     playlists s = first :: rest ->
     ~ (exists p, p ∈ playlists s /\ PL.id p = selectedPlaylistId s) ->
     loaded = (Kept (Js.prune (of_state (select (PL.id first) s))), 0%nat)) /\
  (playlists s = [] ->
   loaded = (Seeded (fst (Store.defaultState Sample.entropy 42 0)), 1%nat)).
Proof.
  apply (X26_load_after_save Reference.JSON_stringify Reference.JSON_parse
           Sample.entropy 42 Sample.plain 0%nat).
  - reflexivity.
  - vm_compute. discriminate.
  - vm_compute. reflexivity.
Defined.

End PersistFacts.
